(** * Multi-objective PSO and DE of the notebook: a shallow embedding

    The two hand-written algorithms of
    [scripts/Completed_Setting_up_the_algorithms.ipynb], [MOPSO] and [MODE],
    are embedded here: numpy scalars are IEEE binary64 values
    ([spec_float] with [prec = 53], [emax = 1024]), numpy vectors and
    matrices are lists and lists of rows, the process-wide [np.random]
    generator is an explicit state threaded through every call, and Python
    exceptions are an error result.  The problems that the notebook
    optimises and the reference front of [MyProblem] are embedded in
    the same way. *)

From Stdlib Require Import ZArith Floats.SpecFloat.
From stdpp Require Import base tactics option numbers list.

Set Default Proof Using "Type".

(** ** Binary64 scalars *)

Module F64.

Definition float := spec_float.

Definition prec : Z := 53.
Definition emax : Z := 1024.

Definition add : float -> float -> float := SFadd prec emax.
Definition sub : float -> float -> float := SFsub prec emax.
Definition mul : float -> float -> float := SFmul prec emax.

(** [a < b] and [a <= b] of Python floats: false as soon as one side is NaN. *)
Definition ltb : float -> float -> bool := SFltb.
Definition leb : float -> float -> bool := SFleb.

Definition is_nan (x : float) : bool :=
  match x with S754_nan => true | _ => false end.

Definition is_finite (x : float) : bool :=
  match x with S754_zero _ | S754_finite _ _ _ => true | _ => false end.

Definition zero : float := S754_zero false.
Definition one : float := S754_finite false 4503599627370496 (-52).
Definition inf : float := S754_infinity false.
Definition nan : float := S754_nan.

(** Conversion of an integer literal, as numpy does for [np.array([-5, 5])]. *)
Definition of_Z (z : Z) : float := binary_normalize prec emax z 0 false.

(** A dyadic literal [m * 2^e], rounded to binary64. *)
Definition of_dyadic (m e : Z) : float := binary_normalize prec emax m e false.

(** The inner loop of [np.clip] on floating-point data: NaN in the first
    operand propagates, otherwise a plain comparison selects. *)
Definition fmax (a b : float) : float :=
  if is_nan a then a else if ltb b a then a else b.
Definition fmin (a b : float) : float :=
  if is_nan a then a else if ltb a b then a else b.
Definition clip (x lo hi : float) : float := fmin (fmax x lo) hi.

(** [lo <= x <= hi], evaluated as Python would. *)
Definition within (lo hi x : float) : bool := leb lo x && leb x hi.

(** The half-open unit interval that [np.random.random] draws from. *)
Definition in_unit (x : float) : bool := leb zero x && ltb x one.

(** *** The comparison as a lexicographic key

    [SFcompare] orders the non-NaN values by sign class first, then
    exponent, then mantissa.  The key makes that order an order on
    triples of integers, where [lia] decides everything. *)
Definition key (x : float) : option (Z * Z * Z) :=
  match x with
  | S754_nan => None
  | S754_infinity true => Some (-2, 0, 0)
  | S754_finite true m e => Some (-1, - e, - Zpos m)
  | S754_zero _ => Some (0, 0, 0)
  | S754_finite false m e => Some (1, e, Zpos m)
  | S754_infinity false => Some (2, 0, 0)
  end%Z.

Definition lex3 (a b : Z * Z * Z) : comparison :=
  let '(a1, a2, a3) := a in
  let '(b1, b2, b3) := b in
  match (a1 ?= b1)%Z with
  | Eq => match (a2 ?= b2)%Z with Eq => (a3 ?= b3)%Z | c => c end
  | c => c
  end.

Definition klt (a b : Z * Z * Z) : Prop :=
  let '(a1, a2, a3) := a in
  let '(b1, b2, b3) := b in
  (a1 < b1 \/ (a1 = b1 /\ (a2 < b2 \/ (a2 = b2 /\ a3 < b3))))%Z.

End F64.

(** ** Python results and the numpy random generator *)

Inductive exn := ValueError | IndexError | OverflowError.

Inductive result (A : Type) :=
  | Ok (a : A)
  | Raise (e : exn).
Arguments Ok {A} a.
Arguments Raise {A} e.

(** What the caller of a method that has no [return] statement sees of
    the call itself: it comes back with [None], or an exception escapes. *)
Inductive outcome :=
  | Returns_None
  | Raises (e : exn).

Definition outcome_of {A} (r : result A) : outcome :=
  match r with
  | Ok _ => Returns_None
  | Raise e => Raises e
  end.

(** The notebook draws every random number from numpy's process-wide
    generator.  numpy itself is outside the repository: its generator is
    an interface here, with the parts of numpy's documented contract
    that the algorithms rely on. *)
Class RandomState := {
  rng : Type;
  (** [np.random.seed(s)] *)
  seed : N -> rng;
  (** [np.random.random()]: one sample of the uniform law on [0, 1) *)
  random_sample : rng -> F64.float * rng;
  (** [np.random.randint(n)] for [0 < n]: one uniform draw from [0, n) *)
  randint : nat -> rng -> nat * rng;
  (** [np.random.permutation(n)]: a uniformly shuffled [arange(n)] *)
  permutation : nat -> rng -> list nat * rng;
  random_sample_unit g : F64.in_unit (random_sample g).1 = true;
  randint_lt n g : 0 < n -> (randint n g).1 < n;
  permutation_perm n g : (permutation n g).1 ≡ₚ seq 0 n
}.

Section Numpy.
Context `{RandomState}.

(** A computation that consumes the generator and may raise. *)
Definition M (A : Type) : Type := rng -> result (A * rng).

#[export] Instance M_ret : MRet M := fun A a g => Ok (a, g).
#[export] Instance M_bind : MBind M := fun A B f m g =>
  match m g with
  | Ok (a, g') => f a g'
  | Raise e => Raise e
  end.

Definition raise {A} (e : exn) : M A := fun _ => Raise e.

(** [l[i]] on a Python list or a 1-D array, for a non-negative [i]. *)
Definition getitem {A} (l : list A) (i : nat) : M A :=
  match l !! i with
  | Some a => mret a
  | None => raise IndexError
  end.

(** [l[i] = x] on an array: in place, [IndexError] out of range. *)
Definition setitem {A} (l : list A) (i : nat) (x : A) : M (list A) :=
  if decide (i < length l) then mret (<[i := x]> l) else raise IndexError.

(** [for i in range(n): acc = body(i, acc)]. *)
Fixpoint for_in {A} (idxs : list nat) (body : nat -> A -> M A) (acc : A) : M A :=
  match idxs with
  | [] => mret acc
  | i :: idxs' => acc' ← body i acc; for_in idxs' body acc'
  end.
Definition for_range {A} (n : nat) (body : nat -> A -> M A) (acc : A) : M A :=
  for_in (seq 0 n) body acc.

(** [np.random.seed(s)]: the generator restarts from the seed. *)
Definition np_random_seed (s : N) : M unit := fun _ => Ok (tt, seed s).

Definition np_random_random : M F64.float :=
  fun g => Ok (random_sample g).

Definition np_random_randint (n : nat) : M nat :=
  if decide (0 < n) then fun g => Ok (randint n g) else raise ValueError.

(** [np.random.choice(a, size, replace=False)] on a 1-D array [a]:
    the first [size] entries of a shuffled index vector select from [a];
    asking for more than [len(a)] raises. *)
Definition np_random_choice (a : list nat) (size : nat) : M (list nat) :=
  if decide (size ≤ length a) then
    fun g =>
      let '(idx, g') := permutation (length a) g in
      Ok (omap (fun i => a !! i) (take size idx), g')
  else raise ValueError.

(** [np.random.random((rows, cols))], filled in row-major order. *)
Fixpoint random_vector (n : nat) : M (list F64.float) :=
  match n with
  | 0 => mret []
  | S n' => r ← np_random_random; rs ← random_vector n'; mret (r :: rs)
  end.
Fixpoint random_matrix (rows cols : nat) : M (list (list F64.float)) :=
  match rows with
  | 0 => mret []
  | S rows' =>
      r ← random_vector cols; rs ← random_matrix rows' cols; mret (r :: rs)
  end.

(** [np.random.uniform(low, high, size=(rows, cols))] with per-column
    bounds: the bounds must have [cols] entries and a finite range, and
    each entry is [low[k] + (high[k] - low[k]) * u] for a fresh sample [u]. *)
Definition uniform_row (low high us : list F64.float) : list F64.float :=
  zip_with (fun b u => F64.add b.1 (F64.mul (F64.sub b.2 b.1) u)) (zip low high) us.
Definition np_random_uniform (low high : list F64.float) (rows cols : nat)
  : M (list (list F64.float)) :=
  if decide (length low = cols /\ length high = cols) then
    if forallb F64.is_finite (zip_with F64.sub high low) then
      us ← random_matrix rows cols;
      mret (uniform_row low high <$> us)
    else raise OverflowError
  else raise ValueError.

End Numpy.

(** ** numpy arrays of floats

    A 1-D array is a list, a 2-D array a list of rows.  The arrays that
    the algorithms combine have the shape [(pop_size, n_var)] or
    [(n_var,)]; the element-wise operations below pair entries position
    by position.  On operands of different shapes numpy would broadcast
    or raise; the properties are stated for operands of equal shape,
    through [shape], where the pairing is exactly numpy's. *)

Abbreviation vec := (list F64.float).
Abbreviation matrix := (list (list F64.float)).

Definition vadd : vec -> vec -> vec := zip_with F64.add.
Definition vsub : vec -> vec -> vec := zip_with F64.sub.
Definition vmul : vec -> vec -> vec := zip_with F64.mul.
Definition vscale (c : F64.float) : vec -> vec := fmap (F64.mul c).

Definition madd : matrix -> matrix -> matrix := zip_with vadd.
Definition msub : matrix -> matrix -> matrix := zip_with vsub.
Definition mmul : matrix -> matrix -> matrix := zip_with vmul.
Definition mscale (c : F64.float) : matrix -> matrix := fmap (vscale c).

(** [v - X] for a row vector [v] and a matrix [X]: [v] is broadcast over the rows. *)
Definition row_msub (v : vec) (X : matrix) : matrix := fmap (vsub v) X.

(** [np.clip(x, xl, xu)] with per-column bounds. *)
Definition vclip (xl xu x : vec) : vec :=
  zip_with (fun xk b => F64.clip xk b.1 b.2) x (zip xl xu).
Definition np_clip (X : matrix) (xl xu : vec) : matrix := fmap (vclip xl xu) X.

(** [np.full(X.shape, c)] *)
Definition np_full (X : matrix) (c : F64.float) : matrix :=
  (fun row : vec => (fun _ => c) <$> row) <$> X.

(** [M[i, k]] as a partial lookup. *)
Definition lookup2 (m : matrix) (i k : nat) : option F64.float :=
  row ← m !! i; row !! k.

(** [np.all(a <= b)] and [np.any(a < b)]. *)
Definition all_le (a b : vec) : bool := forallb id (zip_with F64.leb a b).
Definition any_lt (a b : vec) : bool := existsb id (zip_with F64.ltb a b).

Definition shape (rows cols : nat) (m : matrix) : Prop :=
  length m = rows /\ Forall (fun r => length r = cols) m.

(** ** The pymoo objects the algorithms handle *)

Module Individual.
Record t := mk { X : vec; F : vec }.
End Individual.

Module Problem.
(** [ElementwiseProblem]: dimensions, box bounds and the objective function. *)
Record t := mk {
  n_var : nat;
  n_obj : nat;
  xl : vec;
  xu : vec;
  _evaluate : vec -> vec
}.
End Problem.

Module Population.
Abbreviation t := (list Individual.t).

(** [Population.new(X=X)]: one fresh, not yet evaluated individual per row. *)
Definition new (X : matrix) : t := (fun x => Individual.mk x []) <$> X.

(** [pop.get("X")] and [pop.get("F")]. *)
Definition get_X (pop : t) : matrix := Individual.X <$> pop.
Definition get_F (pop : t) : matrix := Individual.F <$> pop.

(** [Population.merge(a, b)]. *)
Definition merge (a b : t) : t := a ++ b.

(** The evaluator fills in the objectives of every individual, in index order. *)
Definition evaluate (p : Problem.t) (pop : t) : t :=
  (fun ind => Individual.mk (Individual.X ind)
                (Problem._evaluate p (Individual.X ind))) <$> pop.
End Population.

(** ** Non-dominated sorting *)

Module NonDominatedSorting.

(** Modelled from the spec: pymoo's [NonDominatedSorting] is called by
    the notebook but is not part of it.  The domination rule is that of
    section 4.1: [a] dominates [b] iff [a[i] <= b[i]] for every
    objective and [a[j] < b[j]] for at least one. *)
Definition dominates (a b : vec) : bool := all_le a b && any_lt a b.

(** Modelled from the spec: the domination count of row [i] among the
    rows whose index is in [among] is not zero. *)
Definition dominated_in (F : matrix) (among : list nat) (i : nat) : bool :=
  match F !! i with
  | Some fi =>
      existsb (fun j => match F !! j with
                        | Some fj => dominates fj fi
                        | None => false
                        end) among
  | None => false
  end.

(** Modelled from the spec: [do(F, only_non_dominated_front=True)],
    the indices with domination count zero, in increasing order. *)
Definition first_front (F : matrix) : list nat :=
  filter (fun i => dominated_in F (seq 0 (length F)) i = false) (seq 0 (length F)).

(** Modelled from the spec: [do(F)], the ranking obtained by peeling:
    the front of the remaining indices is the set of those that no
    remaining index dominates; it is removed and the rest is ranked in
    turn, until every index has a front. *)
Fixpoint peel (fuel : nat) (F : matrix) (remaining : list nat) : list (list nat) :=
  match fuel with
  | 0 => []
  | S fuel' =>
      match remaining with
      | [] => []
      | _ =>
          let front := filter (fun i => dominated_in F remaining i = false) remaining in
          let rest := filter (fun i => dominated_in F remaining i = true) remaining in
          front :: peel fuel' F rest
      end
  end.

(** Modelled from the spec: [NonDominatedSorting().do(F)] ranks all the
    rows of [F]; there are at most [len(F)] fronts. *)
Definition do (F : matrix) : list (list nat) :=
  peel (length F) F (seq 0 (length F)).

End NonDominatedSorting.

(** ** Particle swarm: [class MOPSO(Algorithm)] *)

Module MOPSO.

(** The algorithm object.  [pop_size], [w], [c1], [c2] are set by
    [__init__], [problem] by the framework's setup, the other fields by
    [_initialize_advance] and the generation methods. *)
Record t := mk {
  pop_size : nat;
  w : F64.float;
  c1 : F64.float;
  c2 : F64.float;
  problem : Problem.t;
  pop : Population.t;
  velocities : matrix;
  pbest : Population.t;
  gbest : Individual.t
}.

Definition set_pop (self : t) (p : Population.t) : t :=
  mk (pop_size self) (w self) (c1 self) (c2 self) (problem self)
     p (velocities self) (pbest self) (gbest self).
Definition set_velocities (self : t) (v : matrix) : t :=
  mk (pop_size self) (w self) (c1 self) (c2 self) (problem self)
     (pop self) v (pbest self) (gbest self).
Definition set_pbest (self : t) (p : Population.t) : t :=
  mk (pop_size self) (w self) (c1 self) (c2 self) (problem self)
     (pop self) (velocities self) p (gbest self).
Definition set_gbest (self : t) (b : Individual.t) : t :=
  mk (pop_size self) (w self) (c1 self) (c2 self) (problem self)
     (pop self) (velocities self) (pbest self) b.

(** [np.all(a.F <= b.F) and np.any(a.F < b.F)] *)
Definition dominate (a b : Individual.t) : bool :=
  all_le (Individual.F a) (Individual.F b) && any_lt (Individual.F a) (Individual.F b).

Section Methods.
Context `{RandomState}.

Definition _initialize_infill (self : t) : M Population.t :=
  X ← np_random_uniform (Problem.xl (problem self)) (Problem.xu (problem self))
         (pop_size self) (Problem.n_var (problem self));
  mret (Population.new X).

Definition _initialize_advance (self : t) (infills : Population.t) : M t :=
  let self := set_pop self infills in
  let self := set_velocities self
                (replicate (pop_size self)
                   (replicate (Problem.n_var (problem self)) F64.zero)) in
  let self := set_pbest self (pop self) in
  j ← np_random_randint (pop_size self);
  g ← getitem (pop self) j;
  mret (set_gbest self g).

Definition _infill (self : t) : M (t * Population.t) :=
  let X := Population.get_X (pop self) in
  r1 ← random_matrix (pop_size self) (Problem.n_var (problem self));
  r2 ← random_matrix (pop_size self) (Problem.n_var (problem self));
  let velocities' :=
    madd (madd (mscale (w self) (velocities self))
               (mmul (mscale (c1 self) r1)
                     (msub (Population.get_X (pbest self)) X)))
         (mmul (mscale (c2 self) r2)
               (row_msub (Individual.X (gbest self)) X)) in
  let self := set_velocities self velocities' in
  let X := madd X (velocities self) in
  let X := np_clip X (Problem.xl (problem self)) (Problem.xu (problem self)) in
  mret (self, Population.new X).

(** [pop[non_dominated_indices]] *)
Definition non_dominated (pop : Population.t) : M Population.t :=
  let F := Population.get_F pop in
  let non_dominated_indices := NonDominatedSorting.first_front F in
  mapM (getitem pop) non_dominated_indices.

(** One pass of the personal-best loop, for index [i]. *)
Definition update_pbest (pop : Population.t) (i : nat) (pbest : Population.t)
  : M Population.t :=
  a ← getitem pop i;
  b ← getitem pbest i;
  if dominate a b then setitem pbest i a else mret pbest.

Definition _advance (self : t) (infills : Population.t) : M t :=
  let self := set_pop self infills in
  pbest' ← for_range (pop_size self) (update_pbest (pop self)) (pbest self);
  let self := set_pbest self pbest' in
  non_dominated ← non_dominated (pbest self);
  if decide (0 < length non_dominated) then
    j ← np_random_randint (length non_dominated);
    g ← getitem non_dominated j;
    mret (set_gbest self g)
  else mret self.

Definition _set_optimum (self : t) : M Population.t := non_dominated (pop self).

End Methods.
End MOPSO.

(** ** Differential evolution: [class MODE(Algorithm)] *)

Module MODE.

Record t := mk {
  pop_size : nat;
  F : F64.float;
  CR : F64.float;
  problem : Problem.t;
  pop : Population.t
}.

Definition set_pop (self : t) (p : Population.t) : t :=
  mk (pop_size self) (F self) (CR self) (problem self) p.

Section Methods.
Context `{RandomState}.

Definition _initialize_infill (self : t) : M Population.t :=
  X ← np_random_uniform (Problem.xl (problem self)) (Problem.xu (problem self))
         (pop_size self) (Problem.n_var (problem self));
  mret (Population.new X).

(** [off[i, k] = x] *)
Definition setitem2 (off : matrix) (i k : nat) (x : F64.float) : M matrix :=
  row ← getitem off i;
  row' ← setitem row k x;
  setitem off i row'.

(** [X[i, k]] *)
Definition getitem2 (X : matrix) (i k : nat) : M F64.float :=
  row ← getitem X i; getitem row k.

(** The body of [for k in range(n_var)]. *)
Definition crossover (self : t) (X : matrix) (v : vec) (i j k : nat) (off : matrix)
  : M matrix :=
  r ← np_random_random;
  if F64.ltb r (CR self) || bool_decide (k = j) then
    vk ← getitem v k; setitem2 off i k vk
  else
    xik ← getitem2 X i k; setitem2 off i k xik.

(** [a, b, c = np.random.choice(pop_size, 3, replace=False)] *)
Definition choose_donors (self : t) : M (nat * nat * nat) :=
  abc ← np_random_choice (seq 0 (pop_size self)) 3;
  match abc with
  | [a; b; c] => mret (a, b, c)
  | _ => raise ValueError
  end.

(** The body of [for i in range(pop_size)]. *)
Definition mutate (self : t) (X : matrix) (i : nat) (off : matrix) : M matrix :=
  '(a, b, c) ← choose_donors self;
  xa ← getitem X a;
  xb ← getitem X b;
  xc ← getitem X c;
  let v := vadd xa (vscale (F self) (vsub xb xc)) in
  j ← np_random_randint (Problem.n_var (problem self));
  for_range (Problem.n_var (problem self)) (crossover self X v i j) off.

Definition _infill (self : t) : M Population.t :=
  let pop := pop self in
  let X := Population.get_X pop in
  let off := np_full X F64.inf in
  off ← for_range (pop_size self) (mutate self X) off;
  let off := np_clip off (Problem.xl (problem self)) (Problem.xu (problem self)) in
  mret (Population.new off).

(** The [for front in fronts] loop with its [break]. *)
Fixpoint select_fronts (pop_size : nat) (fronts : list (list nat)) (next_pop : list nat)
  : M (list nat) :=
  match fronts with
  | [] => mret next_pop
  | front :: fronts' =>
      if decide (length next_pop + length front ≤ pop_size) then
        select_fronts pop_size fronts' (next_pop ++ front)
      else if decide (length next_pop ≤ pop_size) then
        let remaining := pop_size - length next_pop in
        selected ← np_random_choice front remaining;
        mret (next_pop ++ selected)
      else raise ValueError
  end.

Definition _advance (self : t) (infills : Population.t) : M t :=
  let pop := Population.merge (pop self) infills in
  let F := Population.get_F pop in
  let fronts := NonDominatedSorting.do F in
  next_pop ← select_fronts (pop_size self) fronts [];
  pop' ← mapM (getitem pop) next_pop;
  mret (set_pop self pop').

Definition _set_optimum (self : t) : M Population.t :=
  let F := Population.get_F (pop self) in
  let non_dominated := NonDominatedSorting.first_front F in
  mapM (getitem (pop self)) non_dominated.

End Methods.
End MODE.

(** ** The optimisation driver *)

(** pymoo's [Algorithm] base class: the hooks that [minimize] calls. *)
Class Algorithm `{RandomState} (A : Type) := {
  setup : Problem.t -> A -> A;
  get_problem : A -> Problem.t;
  get_pop : A -> Population.t;
  initialize_infill : A -> M Population.t;
  initialize_advance : A -> Population.t -> M A;
  infill : A -> M (A * Population.t);
  advance : A -> Population.t -> M A
}.

#[export] Instance MOPSO_Algorithm `{RandomState} : Algorithm MOPSO.t := {
  setup p self :=
    MOPSO.mk (MOPSO.pop_size self) (MOPSO.w self) (MOPSO.c1 self) (MOPSO.c2 self) p
      (MOPSO.pop self) (MOPSO.velocities self) (MOPSO.pbest self) (MOPSO.gbest self);
  get_problem := MOPSO.problem;
  get_pop := MOPSO.pop;
  initialize_infill := MOPSO._initialize_infill;
  initialize_advance := MOPSO._initialize_advance;
  infill := MOPSO._infill;
  advance := MOPSO._advance
}.

(** [MODE] keeps the base class's initialisation, which stores the first
    evaluated population, and its [_infill] leaves the object unchanged. *)
#[export] Instance MODE_Algorithm `{RandomState} : Algorithm MODE.t := {
  setup p self := MODE.mk (MODE.pop_size self) (MODE.F self) (MODE.CR self) p (MODE.pop self);
  get_problem := MODE.problem;
  get_pop := MODE.pop;
  initialize_infill := MODE._initialize_infill;
  initialize_advance self infills := mret (MODE.set_pop self infills);
  infill self := off ← MODE._infill self; mret (self, off);
  advance := MODE._advance
}.

Module Driver.
Section Run.
Context `{RandomState} {A : Type} `{!Algorithm A}.

(** Modelled from the spec: [minimize] is pymoo's.  One generation is
    variation, evaluation of the offspring, then the algorithm's
    survival step (section 4.4). *)
Definition next (algorithm : A) : M A :=
  '(algorithm, infills) ← infill algorithm;
  let infills := Population.evaluate (get_problem algorithm) infills in
  advance algorithm infills.

(** Modelled from the spec: [n] generations in sequence. *)
Fixpoint generations (n : nat) (algorithm : A) : M A :=
  match n with
  | 0 => mret algorithm
  | S n' => algorithm ← next algorithm; generations n' algorithm
  end.

(** Modelled from the spec: initialisation samples and evaluates the
    first population. *)
Definition initialize (algorithm : A) : M A :=
  infills ← initialize_infill algorithm;
  let infills := Population.evaluate (get_problem algorithm) infills in
  initialize_advance algorithm infills.

(** Modelled from the spec: [minimize(problem, algorithm, ('n_gen', n_gen), seed=s)]
    called while the process-wide generator is in some state.  The
    generator is re-seeded first; the generation counter is 1 after
    initialisation and the run stops when it reaches [n_gen].  The final
    population is what the run exposes. *)
Definition minimize (problem : Problem.t) (algorithm : A) (n_gen : nat) (s : N)
  : M Population.t :=
  let algorithm := setup problem algorithm in
  _ ← np_random_seed s;
  algorithm ← initialize algorithm;
  algorithm ← generations (n_gen - 1) algorithm;
  mret (get_pop algorithm).
End Run.
End Driver.

(** ** A small concrete generator

    A counter-based generator that satisfies the interface: the state is
    the number of draws made so far.  It makes the embedding executable
    on concrete inputs. *)

Module CounterRng.

Definition quarter (n : nat) : F64.float :=
  match n `mod` 4 with
  | 0 => F64.zero
  | 1 => S754_finite false 4503599627370496 (-54)
  | 2 => S754_finite false 4503599627370496 (-53)
  | _ => S754_finite false 6755399441055744 (-53)
  end.

Lemma quarter_unit n : F64.in_unit (quarter n) = true.
Proof.
  unfold quarter. destruct (n `mod` 4) as [|[|[|?]]]; reflexivity.
Qed.

Lemma rotate_perm n k : rotate k (seq 0 n) ≡ₚ seq 0 n.
Proof.
  unfold rotate. rewrite Permutation_app_comm. by rewrite take_drop.
Qed.

Lemma mod_lt n g : 0 < n -> g `mod` n < n.
Proof. intros. apply Nat.mod_upper_bound. lia. Qed.

#[export] Instance counter_rng : RandomState := {
  rng := nat;
  seed s := N.to_nat s;
  random_sample g := (quarter g, S g);
  randint n g := (g `mod` n, S g);
  permutation n g := (rotate g (seq 0 n), S g);
  random_sample_unit g := quarter_unit g;
  randint_lt n g := mod_lt n g;
  permutation_perm n g := rotate_perm n g
}.

End CounterRng.

(** ** Concrete objects for the examples *)

Module Scenario.

Definition fl (z : Z) : F64.float := F64.of_Z z.

(** Two objectives on one variable in [[-5, 5]]: [f1 = x0], [f2 = 1 - x0]. *)
Definition line : Problem.t :=
  Problem.mk 1 2 [fl (-5)] [fl 5]
    (fun x => match x with
              | [x0] => [x0; F64.sub (fl 1) x0]
              | _ => []
              end).

Definition ind (x : Z) (f1 f2 : Z) : Individual.t :=
  Individual.mk [fl x] [fl f1; fl f2].

(** A swarm of two on [line], as [__init__] and the setup leave it;
    inertia 9/8, acceleration coefficients 2. *)
Definition swarm0 : MOPSO.t :=
  MOPSO.mk 2 (F64.of_dyadic 9 (-3)) (fl 2) (fl 2) line [] [] [] (Individual.mk [] []).

(** The second candidate is dominated by the first. *)
Definition infills0 : Population.t := [ind 0 1 1; ind 1 2 2].

(** The same swarm once initialised on [infills0], global best the second. *)
Definition swarm1 : MOPSO.t :=
  MOPSO.mk 2 (F64.of_dyadic 9 (-3)) (fl 2) (fl 2) line
    infills0 [[F64.zero]; [F64.zero]] infills0 (ind 1 2 2).

(** Evaluated offspring: the first dominates its personal best, the
    second does not. *)
Definition infills1 : Population.t := [ind 0 0 0; ind 1 3 3].

(** Enormous but finite acceleration coefficients, [c1 = c2 = 2^1023],
    on a swarm of three in [[-5, 5]]. *)
Definition huge : F64.float := S754_finite false 4503599627370496 971.

Definition swarm_huge : MOPSO.t :=
  MOPSO.mk 3 (F64.of_dyadic 9 (-3)) huge huge line [] [] [] (Individual.mk [] []).

(** The candidate at position [x] on [line]. *)
Definition at_position (x : F64.float) : Individual.t :=
  Individual.mk [x] (Problem._evaluate line [x]).

(** That swarm after initialisation and one generation from seed 2: all
    members sit on the lower bound, the velocity of the second one has
    overflowed to [-inf]. *)
Definition swarm_gen1 : MOPSO.t :=
  MOPSO.mk 3 (F64.of_dyadic 9 (-3)) huge huge line
    [at_position (fl (-5)); at_position (fl (-5)); at_position (fl (-5))]
    [[S754_finite true 5629499534213120 971]; [S754_infinity true]; [F64.zero]]
    [at_position (fl 0); at_position (F64.of_dyadic 5 (-1)); at_position (fl (-5))]
    (at_position (fl 0)).

(** Survival selection with target size 4: three mutually non-dominated
    parents and three offspring that the second parent dominates. *)
Definition de_sel : MODE.t :=
  MODE.mk 4 (F64.of_dyadic 1 (-1)) (F64.of_dyadic 1 (-1)) line
    [ind 0 0 2; ind 1 1 1; ind 2 2 0].

Definition infills_dom : Population.t := [ind 3 3 5; ind 4 4 4; ind 5 5 3].

(** Variation on a population of three. *)
Definition de_var : MODE.t :=
  MODE.mk 3 (F64.of_dyadic 1 (-1)) (F64.of_dyadic 1 (-1)) line
    [ind 0 0 1; ind 1 1 0; ind 2 2 (-1)].

(** Candidates with a non-finite objective. *)
Definition good : Individual.t := ind 0 1 1.
Definition bad_nan : Individual.t := Individual.mk [fl 1] [F64.nan; fl 0].
Definition bad_inf : Individual.t := Individual.mk [fl 1] [F64.inf; fl 0].

(** Survival selection with target size 1 between [good] and [bad_nan]. *)
Definition de_one : MODE.t :=
  MODE.mk 1 (F64.of_dyadic 1 (-1)) (F64.of_dyadic 1 (-1)) line [good].

End Scenario.

(** ** Descriptions from the specification

    Closed forms that follow the wording of the specification; the
    properties below relate them to the methods. *)

Module Described.

(** Personal best of member [i] after a generation: the new candidate
    if it dominates the old personal best, the old one otherwise. *)
Definition pbest_choice (pop pbest : Population.t) (i : nat) : option Individual.t :=
  b ← pbest !! i; a ← pop !! i;
  Some (if MOPSO.dominate a b then a else b).

(** The PSO velocity of one coordinate: inertia, pull towards the
    personal best, pull towards the global best. *)
Definition velocity_update (w c1 c2 velocity r1 r2 personal_best global_best position
                            : F64.float) : F64.float :=
  F64.add (F64.add (F64.mul w velocity)
                   (F64.mul (F64.mul c1 r1) (F64.sub personal_best position)))
          (F64.mul (F64.mul c2 r2) (F64.sub global_best position)).

(** The new position of one coordinate: moved by the velocity, then clamped. *)
Definition position_update (position velocity xl xu : F64.float) : F64.float :=
  F64.clip (F64.add position velocity) xl xu.

(** The DE trial vector [X[a] + F * (X[b] - X[c])]. *)
Definition trial_vector (F : F64.float) (xa xb xc : vec) : vec :=
  vadd xa (vscale F (vsub xb xc)).

(** Binomial crossover of the target [x] with the trial vector [v]:
    dimension [k] inherits from [v] when its own draw [rs[k]] is below [CR]
    or when [k] is the guaranteed dimension [j], and from [x] otherwise.
    [k0] is the index of the first entry. *)
Fixpoint binomial_crossover (CR : F64.float) (j k0 : nat) (x v rs : vec) : vec :=
  match x, v, rs with
  | xk :: x', vk :: v', r :: rs' =>
      (if F64.ltb r CR || bool_decide (k0 = j) then vk else xk)
        :: binomial_crossover CR j (S k0) x' v' rs'
  | _, _, _ => []
  end.

Section Variation.
Context `{RandomState}.

(** The unclamped offspring of target [i]: three donors drawn without
    replacement from all of [0 .. pop_size - 1], one guaranteed dimension,
    one uniform draw per dimension. *)
Definition de_offspring (self : MODE.t) (X : matrix) (i : nat) : M vec :=
  '(a, b, c) ← MODE.choose_donors self;
  xa ← getitem X a;
  xb ← getitem X b;
  xc ← getitem X c;
  xi ← getitem X i;
  j ← np_random_randint (Problem.n_var (MODE.problem self));
  rs ← random_vector (Problem.n_var (MODE.problem self));
  mret (binomial_crossover (MODE.CR self) j 0 xi
          (trial_vector (MODE.F self) xa xb xc) rs).

(** The DE variation step: one offspring per target index, in index
    order, then clamping into the bounds. *)
Definition de_infill (self : MODE.t) : M Population.t :=
  let X := Population.get_X (MODE.pop self) in
  rows ← mapM (de_offspring self X) (seq 0 (MODE.pop_size self));
  mret (Population.new
          (np_clip rows (Problem.xl (MODE.problem self)) (Problem.xu (MODE.problem self)))).

End Variation.

End Described.

(** ** The problems of the notebook *)

(** Python code that raises but draws no random number. *)
#[export] Instance result_ret : MRet result := fun A a => Ok a.
#[export] Instance result_bind : MBind result := fun A B f r =>
  match r with
  | Ok a => f a
  | Raise e => Raise e
  end.

(** A decimal literal [n / d] of the source, as Python reads it: the
    binary64 number nearest to the quotient. *)
Definition literal (n d : Z) : F64.float :=
  SFdiv F64.prec F64.emax (F64.of_Z n) (F64.of_Z d).

(** [x[i]] on a decision vector. *)
Definition item (x : vec) (i : nat) : result F64.float :=
  match x !! i with
  | Some a => Ok a
  | None => Raise IndexError
  end.

Module ThreeDProblem.

(** [class ThreeDProblem(ElementwiseProblem)], [_evaluate]: the three
    assignments in source order, every subscript evaluated where the
    source has it; the result is [out["F"]]. *)
Definition _evaluate (x : vec) : result vec :=
  a ← item x 0; b ← item x 1;
  let f1 := F64.mul (F64.of_Z (-1))
              (F64.sub (F64.mul (literal 5 10) a) (F64.mul (literal 3 10) b)) in
  a ← item x 0; c ← item x 2; b ← item x 1;
  let f2 := F64.sub (F64.add (F64.mul (literal 7 10) a) c) (F64.mul (literal 8 10) b) in
  c ← item x 2; b ← item x 1;
  let f3 := F64.mul (F64.of_Z (-1))
              (F64.sub (F64.mul (literal 6 10) c) (F64.mul (literal 2 10) b)) in
  mret [f1; f2; f3].

(** [__init__]: three variables in [[-5, 5]], three objectives.  The
    evaluator stores [out["F"]]; an exception of [_evaluate] would end
    the run, and the objective vector is left empty in that case. *)
Definition __init__ : Problem.t :=
  Problem.mk 3 3
    [F64.of_Z (-5); F64.of_Z (-5); F64.of_Z (-5)]
    [F64.of_Z 5; F64.of_Z 5; F64.of_Z 5]
    (fun x => match _evaluate x with Ok f => f | Raise _ => [] end).

End ThreeDProblem.

Module FranceBudgetProblem.

(** [_evaluate]: the pair of [out["F"]] and [out["G"]]. *)
Definition _evaluate (x : vec) : result (vec * F64.float) :=
  infrastructure_spending ← item x 0;
  tax_rate ← item x 1;
  social_spending ← item x 2;
  let f1 := F64.mul (F64.of_Z (-1))
              (F64.sub (F64.mul (literal 5 10) infrastructure_spending)
                       (F64.mul (literal 3 10) tax_rate)) in
  let f2 := F64.sub (F64.add (F64.mul (literal 7 10) infrastructure_spending)
                             social_spending)
                    (F64.mul (literal 8 10) tax_rate) in
  let f3 := F64.mul (F64.of_Z (-1))
              (F64.sub (F64.mul (literal 6 10) social_spending)
                       (F64.mul (literal 2 10) tax_rate)) in
  mret ([f1; f2; f3],
        F64.sub (F64.add infrastructure_spending social_spending) (F64.of_Z 150)).

Definition __init__ : Problem.t :=
  Problem.mk 3 3
    [F64.of_Z 0; F64.of_Z 0; F64.of_Z 0]
    [F64.of_Z 100; F64.of_Z 100; F64.of_Z 100]
    (fun x => match _evaluate x with Ok fg => fg.1 | Raise _ => [] end).

End FranceBudgetProblem.

Module MyProblem.

(** [evaluate]: the objectives once more, returned as an array. *)
Definition evaluate (x : vec) : result vec :=
  a ← item x 0; b ← item x 1;
  let f1 := F64.mul (F64.of_Z (-1))
              (F64.sub (F64.mul (literal 5 10) a) (F64.mul (literal 3 10) b)) in
  a ← item x 0; c ← item x 2; b ← item x 1;
  let f2 := F64.sub (F64.add (F64.mul (literal 7 10) a) c) (F64.mul (literal 8 10) b) in
  c ← item x 2; b ← item x 1;
  let f3 := F64.mul (F64.of_Z (-1))
              (F64.sub (F64.mul (literal 6 10) c) (F64.mul (literal 2 10) b)) in
  mret [f1; f2; f3].

(** 3-D arrays, and the element-wise operations on arrays of one shape. *)
Abbreviation cube := (list (list (list F64.float))).

Definition cscale (k : F64.float) (A : cube) : cube :=
  (fun plane : matrix => (fun line : vec => F64.mul k <$> line) <$> plane) <$> A.
Definition cadd (A B : cube) : cube := zip_with (zip_with (zip_with F64.add)) A B.
Definition csub (A B : cube) : cube := zip_with (zip_with (zip_with F64.sub)) A B.

(** [np.meshgrid(x0, x1, x2)] with the default [indexing='xy']: three
    arrays of shape [(len(x1), len(x0), len(x2))], where entry [(i, j, k)]
    is [x0[j]], [x1[i]] and [x2[k]]. *)
Definition meshgrid (x0 x1 x2 : vec) : cube * cube * cube :=
  ((fun _ : F64.float =>
      (fun a : F64.float => (fun _ : F64.float => a) <$> x2) <$> x0) <$> x1,
   (fun b : F64.float =>
      (fun _ : F64.float => (fun _ : F64.float => b) <$> x2) <$> x0) <$> x1,
   (fun _ : F64.float => (fun _ : F64.float => x2) <$> x0) <$> x1).

(** [A.flatten()], in row-major order. *)
Definition flatten (A : cube) : vec := concat (concat A).

(** A row of [combined]: the three objective values of one grid point. *)
Abbreviation row := (F64.float * F64.float * F64.float)%type.

(** [np.vstack((a, b, c)).T] for three vectors of one length. *)
Definition vstack_T (a b c : vec) : list row :=
  zip_with (fun ab z => (ab.1, ab.2, z)) (zip a b) c.

(** The candidate rows of [pareto_front] for the three axes. *)
Definition combined (x0 x1 x2 : vec) : list row :=
  let '(X0, X1, X2) := meshgrid x0 x1 x2 in
  let F1 := cscale (F64.of_Z (-1))
              (csub (cscale (literal 5 10) X0) (cscale (literal 3 10) X1)) in
  let F2 := csub (cadd (cscale (literal 7 10) X0) X2) (cscale (literal 8 10) X1) in
  let F3 := cscale (F64.of_Z (-1))
              (csub (cscale (literal 6 10) X2) (cscale (literal 2 10) X1)) in
  vstack_T (flatten F1) (flatten F2) (flatten F3).

(** The condition of the inner loop:
    [combined[j][0] <= combined[i][0] and combined[j][1] < combined[i][1]]. *)
Definition excludes (cj ci : row) : bool :=
  F64.leb cj.1.1 ci.1.1 && F64.ltb cj.1.2 ci.1.2.

(** [for j in range(combined.shape[0])] for one [i], with its [break].
    Both indices range over the rows, so that no subscript is out of
    range. *)
Fixpoint inner_loop (combined : list row) (i : nat) (js : list nat)
    (is_dominated : list bool) : list bool :=
  match js with
  | [] => is_dominated
  | j :: js' =>
      if bool_decide (i ≠ j) then
        match combined !! j, combined !! i with
        | Some cj, Some ci =>
            if excludes cj ci then <[i := true]> is_dominated
            else inner_loop combined i js' is_dominated
        | _, _ => inner_loop combined i js' is_dominated
        end
      else inner_loop combined i js' is_dominated
  end.

(** [for i in range(combined.shape[0])], starting from [np.zeros(..., dtype=bool)]. *)
Definition is_dominated (combined : list row) : list bool :=
  foldl (fun mask i => inner_loop combined i (seq 0 (length combined)) mask)
        (replicate (length combined) false) (seq 0 (length combined)).

(** [a[mask]] for a boolean mask with one entry per row. *)
Definition boolean_index (a : list row) (mask : list bool) : list row :=
  (filter (fun p : row * bool => p.2 = true) (zip a mask)).*1.

(** [combined[~is_dominated]] *)
Definition non_dominated_rows (combined : list row) : list row :=
  boolean_index combined (negb <$> is_dominated combined).

(** The array whose entry [(i, j, k)] is [h x0[j] x1[i] x2[k]], and the
    list of these entries in row-major order. *)
Definition tabulate (x0 x1 x2 : vec)
    (h : F64.float -> F64.float -> F64.float -> F64.float) : cube :=
  (fun b => (fun a => (fun c => h a b c) <$> x2) <$> x0) <$> x1.
Definition tabulate_flat {A} (x0 x1 x2 : vec)
    (h : F64.float -> F64.float -> F64.float -> A) : list A :=
  concat ((fun b => concat ((fun a => (fun c => h a b c) <$> x2) <$> x0)) <$> x1).

Section Pareto_front.
(** [np.linspace(-5, 5, n_points)] is numpy's. *)
Variable np_linspace : Z -> Z -> nat -> vec.

Definition pareto_front (n_points : nat) : list row :=
  let x0 := np_linspace (-5) 5 n_points in
  let x1 := np_linspace (-5) 5 n_points in
  let x2 := np_linspace (-5) 5 n_points in
  non_dominated_rows (combined x0 x1 x2).
End Pareto_front.

End MyProblem.

(** ** Consistent algorithm objects

    What the generation methods rely on without checking it: bounds with
    one entry per variable, and arrays of the shapes that the
    element-wise operations pair position by position. *)

Definition well_formed (p : Problem.t) : Prop :=
  length (Problem.xl p) = Problem.n_var p /\
  length (Problem.xu p) = Problem.n_var p /\
  forallb F64.is_finite (zip_with F64.sub (Problem.xu p) (Problem.xl p)) = true /\
  forall x, length x = Problem.n_var p ->
            length (Problem._evaluate p x) = Problem.n_obj p.

(** An individual that the evaluator has processed. *)
Definition evaluated (p : Problem.t) (ind : Individual.t) : Prop :=
  length (Individual.X ind) = Problem.n_var p /\
  Individual.F ind = Problem._evaluate p (Individual.X ind).

Definition MOPSO_consistent (self : MOPSO.t) : Prop :=
  0 < MOPSO.pop_size self /\
  well_formed (MOPSO.problem self) /\
  length (MOPSO.pop self) = MOPSO.pop_size self /\
  Forall (evaluated (MOPSO.problem self)) (MOPSO.pop self) /\
  shape (MOPSO.pop_size self) (Problem.n_var (MOPSO.problem self)) (MOPSO.velocities self) /\
  length (MOPSO.pbest self) = MOPSO.pop_size self /\
  Forall (evaluated (MOPSO.problem self)) (MOPSO.pbest self) /\
  MOPSO.gbest self ∈ MOPSO.pbest self.

Definition MODE_consistent (self : MODE.t) : Prop :=
  3 <= MODE.pop_size self /\
  0 < Problem.n_var (MODE.problem self) /\
  well_formed (MODE.problem self) /\
  length (MODE.pop self) = MODE.pop_size self /\
  Forall (evaluated (MODE.problem self)) (MODE.pop self).

(** ** The optimisation cells of the notebook *)

Module Notebook.

(** [MOPSO(pop_size=100)] and [MODE(pop_size=100)] as [__init__] leaves
    them: the other arguments take their defaults, and the fields that
    later calls set are empty. *)
Definition mopso : MOPSO.t :=
  MOPSO.mk 100 (literal 9 10) (literal 20 10) (literal 20 10)
    ThreeDProblem.__init__ [] [] [] (Individual.mk [] []).

Definition mode : MODE.t :=
  MODE.mk 100 (literal 5 10) (literal 5 10) ThreeDProblem.__init__ [].

End Notebook.

(** ** Consistent objects for the examples *)

Module Cases.

(** A swarm of two on [line] between two generations: every member
    carries the objective values of its own position. *)
Definition swarm : MOPSO.t :=
  MOPSO.mk 2 (F64.of_dyadic 9 (-3)) (F64.of_Z 2) (F64.of_Z 2) Scenario.line
    [Scenario.at_position (F64.of_Z 0); Scenario.at_position (F64.of_Z 1)]
    [[F64.zero]; [F64.zero]]
    [Scenario.at_position (F64.of_Z 0); Scenario.at_position (F64.of_Z 1)]
    (Scenario.at_position (F64.of_Z 0)).

(** A differential-evolution population of three on [line]. *)
Definition de : MODE.t :=
  MODE.mk 3 (F64.of_dyadic 1 (-1)) (F64.of_dyadic 1 (-1)) Scenario.line
    [Scenario.at_position (F64.of_Z 0); Scenario.at_position (F64.of_Z 1);
     Scenario.at_position (F64.of_Z 2)].

(** The same population with crossover rate 1. *)
Definition de_full : MODE.t :=
  MODE.mk 3 (F64.of_dyadic 1 (-1)) F64.one Scenario.line
    [Scenario.at_position (F64.of_Z 0); Scenario.at_position (F64.of_Z 1);
     Scenario.at_position (F64.of_Z 2)].

End Cases.

(** ** Generators that deliver the same draws *)

(** A second concrete generator: the counter of [CounterRng] together
    with a flag that records whether a draw has been made. *)
Module TaggedRng.

#[export] Instance tagged_rng : RandomState := {
  rng := nat * bool;
  seed s := (N.to_nat s, false);
  random_sample g := (CounterRng.quarter g.1, (S g.1, true));
  randint n g := (g.1 `mod` n, (S g.1, true));
  permutation n g := (rotate g.1 (seq 0 n), (S g.1, true));
  random_sample_unit g := CounterRng.quarter_unit g.1;
  randint_lt n g := CounterRng.mod_lt n g.1;
  permutation_perm n g := CounterRng.rotate_perm n g.1
}.

End TaggedRng.

(** What a run exposes: its result without the generator. *)
Definition without_rng {A G} (r : result (A * G)) : result A :=
  match r with
  | Ok (a, _) => Ok a
  | Raise e => Raise e
  end.

(** Two generators, possibly of different kinds, deliver the same draws:
    [sim] relates their states, equal seeds give related states, and
    from related states every kind of draw returns the same value and
    leaves related states. *)
Definition same_draws (R1 R2 : RandomState)
    (sim : @rng R1 -> @rng R2 -> Prop) : Prop :=
  (forall s, sim (@seed R1 s) (@seed R2 s)) /\
  (forall g1 g2, sim g1 g2 ->
     (@random_sample R1 g1).1 = (@random_sample R2 g2).1 /\
     sim (@random_sample R1 g1).2 (@random_sample R2 g2).2) /\
  (forall n g1 g2, 0 < n -> sim g1 g2 ->
     (@randint R1 n g1).1 = (@randint R2 n g2).1 /\
     sim (@randint R1 n g1).2 (@randint R2 n g2).2) /\
  (forall n g1 g2, sim g1 g2 ->
     (@permutation R1 n g1).1 = (@permutation R2 n g2).1 /\
     sim (@permutation R1 n g1).2 (@permutation R2 n g2).2).

(** Two results agree: the same value with related generators, or the
    same exception; two computations agree when they do so from related
    generators. *)
Definition agree {R1 R2 : RandomState} (sim : @rng R1 -> @rng R2 -> Prop) {A}
    (r1 : result (A * @rng R1)) (r2 : result (A * @rng R2)) : Prop :=
  match r1, r2 with
  | Ok (a1, g1), Ok (a2, g2) => a1 = a2 /\ sim g1 g2
  | Raise e1, Raise e2 => e1 = e2
  | _, _ => False
  end.

Definition agreeM {R1 R2 : RandomState} (sim : @rng R1 -> @rng R2 -> Prop) {A}
    (m1 : @M R1 A) (m2 : @M R2 A) : Prop :=
  forall g1 g2, sim g1 g2 -> agree sim (m1 g1) (m2 g2).

(** * Properties *)

(** ** Facts about binary64 comparison and clamping *)

Module F64_facts.
Import F64.

Lemma SFcompare_key (a b : float) :
  SFcompare a b =
  match key a, key b with
  | Some ka, Some kb => Some (lex3 ka kb)
  | _, _ => None
  end.
Proof.
  destruct a as [[]|[]| |[] ma ea], b as [[]|[]| |[] mb eb]; try reflexivity;
    cbn [SFcompare key lex3].
  rewrite Z.compare_opp, (Z.compare_antisym ea eb).
  destruct (ea ?= eb)%Z; reflexivity.
Qed.

Lemma lex3_Lt a b : lex3 a b = Lt <-> klt a b.
Proof.
  destruct a as [[a1 a2] a3], b as [[b1 b2] b3]. cbn.
  destruct (Z.compare_spec a1 b1); [destruct (Z.compare_spec a2 b2);
    [destruct (Z.compare_spec a3 b3)| |]| |]; split; intros;
    try discriminate; try reflexivity; lia.
Qed.

Lemma lex3_Eq a b : lex3 a b = Eq <-> a = b.
Proof.
  destruct a as [[a1 a2] a3], b as [[b1 b2] b3]. cbn.
  destruct (Z.compare_spec a1 b1); [destruct (Z.compare_spec a2 b2);
    [destruct (Z.compare_spec a3 b3)| |]| |]; split; intros E;
    try discriminate; try reflexivity; try (inversion E; lia).
  subst. reflexivity.
Qed.

Lemma ltb_key a b :
  ltb a b = true <-> exists ka kb, key a = Some ka /\ key b = Some kb /\ klt ka kb.
Proof.
  unfold ltb, SFltb. rewrite SFcompare_key.
  destruct (key a) as [ka|], (key b) as [kb|];
    try (split; [discriminate | intros (?&?&?&?&?); discriminate]).
  split.
  - intros H. exists ka, kb. repeat split. apply lex3_Lt.
    destruct (lex3 ka kb); congruence.
  - intros (?&?&[= <-]&[= <-]&H). apply lex3_Lt in H. rewrite H. reflexivity.
Qed.

Lemma leb_key a b :
  leb a b = true <->
  exists ka kb, key a = Some ka /\ key b = Some kb /\ (klt ka kb \/ ka = kb).
Proof.
  unfold leb, SFleb. rewrite SFcompare_key.
  destruct (key a) as [ka|], (key b) as [kb|];
    try (split; [discriminate | intros (?&?&?&?&?); discriminate]).
  split.
  - intros H. exists ka, kb. repeat split.
    destruct (lex3 ka kb) eqn:E; try discriminate.
    + right. apply lex3_Eq. exact E.
    + left. apply lex3_Lt. exact E.
  - intros (?&?&[= <-]&[= <-]&[H|H]).
    + apply lex3_Lt in H. rewrite H. reflexivity.
    + apply lex3_Eq in H. rewrite H. reflexivity.
Qed.

Lemma key_is_nan a : is_nan a = false <-> exists ka, key a = Some ka.
Proof.
  destruct a as [?|[]| |[] ? ?]; cbn; split; eauto; try discriminate.
  all: intros [? ?]; discriminate.
Qed.

Lemma klt_trans a b c : klt a b -> klt b c -> klt a c.
Proof.
  destruct a as [[a1 a2] a3], b as [[b1 b2] b3], c as [[c1 c2] c3]. cbn. lia.
Qed.

Lemma klt_irrefl a : ~ klt a a.
Proof. destruct a as [[a1 a2] a3]. cbn. lia. Qed.

Lemma klt_total a b : klt a b \/ a = b \/ klt b a.
Proof.
  destruct a as [[a1 a2] a3], b as [[b1 b2] b3]. cbn.
  destruct (Z.lt_trichotomy a1 b1) as [?|[?|?]];
    destruct (Z.lt_trichotomy a2 b2) as [?|[?|?]];
    destruct (Z.lt_trichotomy a3 b3) as [?|[?|?]];
    subst; try (left; lia); try (right; right; lia).
  right; left; reflexivity.
Qed.

(** *** Order facts used by the algorithms *)

Lemma ltb_leb a b : ltb a b = true -> leb a b = true.
Proof.
  rewrite ltb_key, leb_key. intros (ka&kb&?&?&?). exists ka, kb. tauto.
Qed.

Lemma leb_refl a : is_nan a = false -> leb a a = true.
Proof.
  rewrite key_is_nan, leb_key. intros [ka ?]. exists ka, ka. tauto.
Qed.

Lemma ltb_irrefl a : ltb a a = false.
Proof.
  destruct (ltb a a) eqn:E; [|reflexivity].
  apply ltb_key in E as (ka&kb&Ha&Hb&H). rewrite Ha in Hb.
  injection Hb as <-. destruct (klt_irrefl _ H).
Qed.

Lemma not_ltb_leb a b :
  is_nan a = false -> is_nan b = false -> ltb b a = false -> leb a b = true.
Proof.
  rewrite !key_is_nan. intros [ka Ha] [kb Hb] Hlt.
  apply leb_key. exists ka, kb. repeat split; try assumption.
  destruct (klt_total ka kb) as [?|[?|H]]; [tauto|tauto|].
  assert (ltb b a = true) by (apply ltb_key; eauto 6). congruence.
Qed.

Lemma leb_trans a b c : leb a b = true -> leb b c = true -> leb a c = true.
Proof.
  rewrite !leb_key. intros (ka&kb&Ha&Hb&H1) (kb'&kc&Hb'&Hc&H2).
  rewrite Hb in Hb'. injection Hb' as <-. exists ka, kc. repeat split; auto.
  destruct H1 as [H1| ->], H2 as [H2| <-]; eauto using klt_trans.
Qed.

Lemma ltb_leb_trans a b c : ltb a b = true -> leb b c = true -> ltb a c = true.
Proof.
  rewrite !ltb_key, leb_key. intros (ka&kb&Ha&Hb&H1) (kb'&kc&Hb'&Hc&H2).
  rewrite Hb in Hb'. injection Hb' as <-. exists ka, kc. repeat split; auto.
  destruct H2 as [H2| <-]; eauto using klt_trans.
Qed.

Lemma leb_ltb_trans a b c : leb a b = true -> ltb b c = true -> ltb a c = true.
Proof.
  rewrite !ltb_key, leb_key. intros (ka&kb&Ha&Hb&H1) (kb'&kc&Hb'&Hc&H2).
  rewrite Hb in Hb'. injection Hb' as <-. exists ka, kc. repeat split; auto.
  destruct H1 as [H1| ->]; eauto using klt_trans.
Qed.

Lemma leb_not_nan a b : leb a b = true -> is_nan a = false /\ is_nan b = false.
Proof.
  rewrite leb_key, !key_is_nan. intros (ka&kb&?&?&?). eauto.
Qed.

Lemma ltb_not_nan a b : ltb a b = true -> is_nan a = false /\ is_nan b = false.
Proof.
  rewrite ltb_key, !key_is_nan. intros (ka&kb&?&?&?). eauto.
Qed.

Lemma leb_nan_r a : leb a nan = false.
Proof. destruct a as [?|[]| |[] ? ?]; reflexivity. Qed.

Lemma leb_nan_l a : leb nan a = false.
Proof. reflexivity. Qed.

Lemma ltb_nan_r a : ltb a nan = false.
Proof. destruct a as [?|[]| |[] ? ?]; reflexivity. Qed.

Lemma ltb_nan_l a : ltb nan a = false.
Proof. reflexivity. Qed.

(** *** Clamping *)

Lemma fmax_lower x lo :
  is_nan x = false -> is_nan lo = false ->
  leb lo (fmax x lo) = true /\ is_nan (fmax x lo) = false.
Proof.
  intros Hx Hlo. unfold fmax. rewrite Hx.
  destruct (ltb lo x) eqn:E; auto using ltb_leb, leb_refl.
Qed.

Lemma clip_within x lo hi :
  leb lo hi = true -> is_nan x = false -> within lo hi (clip x lo hi) = true.
Proof.
  intros Hb Hx. destruct (leb_not_nan _ _ Hb) as [Hlo Hhi].
  destruct (fmax_lower x lo Hx Hlo) as [Hl Hn].
  unfold within, clip, fmin. rewrite Hn.
  destruct (ltb (fmax x lo) hi) eqn:E; apply andb_true_iff; split;
    auto using ltb_leb, leb_refl.
Qed.

Lemma clip_nan lo hi : clip nan lo hi = nan.
Proof. reflexivity. Qed.

Lemma within_not_nan lo hi x : within lo hi x = true -> is_nan x = false.
Proof.
  unfold within. intros [H _]%andb_true_iff. apply (leb_not_nan _ _ H).
Qed.

(** A value already inside the bounds is left alone, up to the sign of
    a zero ([np.clip(-0.0, 0.0, 1.0)] is [0.0]). *)
Lemma clip_inside x lo hi :
  ltb lo x = true -> ltb x hi = true -> clip x lo hi = x.
Proof.
  intros H1 H2. destruct (ltb_not_nan _ _ H2) as [Hx _].
  unfold clip, fmax, fmin. rewrite Hx, H1, Hx, H2. reflexivity.
Qed.

(** Infinity is an ordinary, largest value of the order. *)
Lemma leb_inf x : is_nan x = false -> leb x inf = true.
Proof. destruct x as [?|[]| |[] ? ?]; intros; reflexivity || discriminate. Qed.

Lemma ltb_finite_inf x : is_finite x = true -> ltb x inf = true.
Proof. destruct x as [?|[]| |[] ? ?]; intros; reflexivity || discriminate. Qed.

End F64_facts.

(** ** Reasoning about generator-passing computations *)

Section Monad_facts.
Context `{RandomState}.

Lemma bind_Ok {A B} (m : M A) (f : A -> M B) (g : rng) (r : B * rng) :
  (m ≫= f) g = Ok r <-> exists a g1, m g = Ok (a, g1) /\ f a g1 = Ok r.
Proof.
  unfold mbind, M_bind. destruct (m g) as [[a g1]|e].
  - split; [eauto|]. intros (?&?&[= <- <-]&?). assumption.
  - split; [discriminate|]. intros (?&?&?&?). discriminate.
Qed.

Lemma bind_step {A B} (m : M A) (f : A -> M B) (g : rng) a g1 :
  m g = Ok (a, g1) -> (m ≫= f) g = f a g1.
Proof. unfold mbind, M_bind. intros ->. reflexivity. Qed.

Lemma bind_Raise {A B} (m : M A) (f : A -> M B) (g : rng) e :
  m g = Raise e -> (m ≫= f) g = Raise e.
Proof. unfold mbind, M_bind. intros ->. reflexivity. Qed.

Lemma ret_Ok {A} (a : A) (g : rng) : mret (M := M) a g = Ok (a, g).
Proof. reflexivity. Qed.

Lemma getitem_Some {A} (l : list A) i a g :
  l !! i = Some a -> getitem l i g = Ok (a, g).
Proof. unfold getitem. intros ->. reflexivity. Qed.

Lemma getitem_Ok {A} (l : list A) i a g g' :
  getitem l i g = Ok (a, g') <-> l !! i = Some a /\ g' = g.
Proof.
  unfold getitem. destruct (l !! i); split.
  - intros [= <- <-]. auto.
  - intros [[= <-] ->]. reflexivity.
  - discriminate.
  - intros [? _]. discriminate.
Qed.

Lemma setitem_lt {A} (l : list A) i x g :
  i < length l -> setitem l i x g = Ok (<[i := x]> l, g).
Proof. unfold setitem. intros. rewrite decide_True by assumption. reflexivity. Qed.

Lemma np_random_randint_pos n g :
  0 < n -> np_random_randint n g = Ok (randint n g).
Proof. unfold np_random_randint. intros. rewrite decide_True by assumption. reflexivity. Qed.

Lemma np_random_randint_draw n g j g' :
  0 < n -> randint n g = (j, g') -> np_random_randint n g = Ok (j, g').
Proof. intros ? <-. by apply np_random_randint_pos. Qed.

(** [mapM] over indices that are all in range is plain fancy indexing. *)
Lemma mapM_getitem {A} (l : list A) (idxs : list nat) g :
  Forall (fun i => i < length l) idxs ->
  exists sel, mapM (getitem l) idxs g = Ok (sel, g) /\
              Forall2 (fun i a => l !! i = Some a) idxs sel.
Proof.
  induction 1 as [|i idxs Hi _ (sel & IH & HF)]; cbn.
  - exists []. split; [reflexivity | constructor].
  - destruct (lookup_lt_is_Some_2 l i Hi) as [a Ha].
    exists (a :: sel). split; [|by constructor].
    rewrite (bind_step _ _ _ a g) by (by apply getitem_Some).
    rewrite (bind_step _ _ _ sel g) by exact IH. reflexivity.
Qed.

End Monad_facts.

(** ** MOPSO initialisation *)

Section MOPSO_initialisation.
Context `{RandomState}.

(** C10. At MOPSO initialisation with a population of [pop_size] evaluated
    candidates, every velocity is the zero vector of length [n_var], the
    personal bests are the initial candidates themselves, index by index,
    and the global best is the member whose index is one
    [np.random.randint(pop_size)] draw: any member of the whole initial
    population, dominated or not. *)
Theorem MOPSO_initialize_advance_spec (self : MOPSO.t) (infills : Population.t) (g : rng) :
  0 < MOPSO.pop_size self ->
  length infills = MOPSO.pop_size self ->
  exists (j : nat) (g' : rng) (gb : Individual.t) (self' : MOPSO.t),
    np_random_randint (MOPSO.pop_size self) g = Ok (j, g') /\
    j < MOPSO.pop_size self /\
    infills !! j = Some gb /\
    MOPSO._initialize_advance self infills g = Ok (self', g') /\
    MOPSO.pop self' = infills /\
    MOPSO.velocities self' =
      replicate (MOPSO.pop_size self)
        (replicate (Problem.n_var (MOPSO.problem self)) F64.zero) /\
    Forall (Forall (fun v => v = F64.zero)) (MOPSO.velocities self') /\
    MOPSO.pbest self' = infills /\
    MOPSO.gbest self' = gb.
Proof.
  intros Hpos Hlen.
  pose proof (randint_lt (MOPSO.pop_size self) g Hpos) as Hj.
  destruct (randint (MOPSO.pop_size self) g) as [j g'] eqn:Hr. cbn in Hj.
  destruct (lookup_lt_is_Some_2 infills j) as [gb Hgb]; [lia|].
  exists j, g', gb.
  eexists. split; [|split; [|split; [|split]]].
  - by apply np_random_randint_draw.
  - exact Hj.
  - exact Hgb.
  - unfold MOPSO._initialize_advance. cbn [MOPSO.pop_size MOPSO.set_velocities
      MOPSO.set_pop MOPSO.set_pbest MOPSO.pop MOPSO.problem].
    rewrite (bind_step _ _ _ j g') by (by apply np_random_randint_draw).
    rewrite (bind_step _ _ _ gb g') by (by apply getitem_Some).
    reflexivity.
  - cbn. repeat split; try reflexivity.
    apply Forall_replicate, Forall_replicate. reflexivity.
Qed.

End MOPSO_initialisation.

(** At the concrete swarm of two, with the generator in a state where the
    draw is 1, the initial global best is the second candidate, which the
    first one dominates. *)
Lemma MOPSO_initialize_advance_witness :
  exists self' : MOPSO.t,
    MOPSO._initialize_advance (H := CounterRng.counter_rng)
      Scenario.swarm0 Scenario.infills0 (1 : nat) = Ok (self', 2) /\
    MOPSO.pbest self' = Scenario.infills0 /\
    MOPSO.gbest self' = Scenario.ind 1 2 2 /\
    MOPSO.dominate (Scenario.ind 0 1 1) (MOPSO.gbest self') = true.
Proof.
  destruct (MOPSO_initialize_advance_spec (H := CounterRng.counter_rng)
              Scenario.swarm0 Scenario.infills0 (1 : nat))
    as (j & g' & gb & self' & Hr & _ & Hgb & Hadv & _ & _ & _ & Hpb & Hg).
  - cbn. lia.
  - reflexivity.
  - vm_compute in Hr. injection Hr as <- <-.
    vm_compute in Hgb. injection Hgb as <-.
    exists self'. rewrite Hg. repeat split; assumption || reflexivity.
Defined.

(** ** Pareto domination *)

Section Domination.

Lemma all_le_spec (a b : vec) :
  all_le a b = true <->
  forall k x y, a !! k = Some x -> b !! k = Some y -> F64.leb x y = true.
Proof.
  unfold all_le. revert b. induction a as [|x a IH]; intros [|y b]; cbn.
  1-3: split; [intros _ k ? ? ?; rewrite ?lookup_nil; discriminate | reflexivity].
  unfold id at 1. rewrite andb_true_iff, IH. split.
  - intros [Hxy Hab] [|k] x' y'; cbn.
    + intros [= <-] [= <-]. exact Hxy.
    + apply Hab.
  - intros Hall. split.
    + apply (Hall 0); reflexivity.
    + intros k. apply (Hall (S k)).
Qed.

Lemma any_lt_spec (a b : vec) :
  any_lt a b = true <->
  exists k x y, a !! k = Some x /\ b !! k = Some y /\ F64.ltb x y = true.
Proof.
  unfold any_lt. revert b. induction a as [|x a IH]; intros [|y b]; cbn.
  1-3: split; [discriminate | intros (k & ? & ? & Ha & Hb & _);
                 rewrite ?lookup_nil in *; discriminate].
  unfold id at 1. rewrite orb_true_iff, IH. split.
  - intros [Hxy | (k & x' & y' & ? & ? & ?)].
    + exists 0, x, y. auto.
    + exists (S k), x', y'. auto.
  - intros ([|k] & x' & y' & Ha & Hb & Hlt); cbn in Ha, Hb.
    + injection Ha as <-. injection Hb as <-. auto.
    + right. eauto 6.
Qed.

(** [MOPSO.dominate a b] is strict Pareto domination of the objective
    vectors: no objective of [a] is larger and one is strictly smaller. *)
Lemma dominate_spec (a b : Individual.t) :
  MOPSO.dominate a b = true <->
  (forall k x y, Individual.F a !! k = Some x -> Individual.F b !! k = Some y ->
                 F64.leb x y = true) /\
  (exists k x y, Individual.F a !! k = Some x /\ Individual.F b !! k = Some y /\
                 F64.ltb x y = true).
Proof.
  unfold MOPSO.dominate. rewrite andb_true_iff, all_le_spec, any_lt_spec. tauto.
Qed.

Lemma dominates_dominate (a b : Individual.t) :
  NonDominatedSorting.dominates (Individual.F a) (Individual.F b) = MOPSO.dominate a b.
Proof. reflexivity. Qed.

Lemma dominate_irrefl (a : Individual.t) : MOPSO.dominate a a = false.
Proof.
  destruct (MOPSO.dominate a a) eqn:E; [|reflexivity].
  apply dominate_spec in E as [_ (k & x & y & Hx & Hy & Hlt)].
  rewrite Hx in Hy. injection Hy as <-.
  rewrite F64_facts.ltb_irrefl in Hlt. discriminate.
Qed.

Lemma dominate_trans (a b c : Individual.t) :
  length (Individual.F a) = length (Individual.F b) ->
  length (Individual.F b) = length (Individual.F c) ->
  MOPSO.dominate a b = true -> MOPSO.dominate b c = true ->
  MOPSO.dominate a c = true.
Proof.
  intros Hab Hbc [Hle1 (k & x & y & Hx & Hy & Hlt)]%dominate_spec
                 [Hle2 _]%dominate_spec.
  apply dominate_spec. split.
  - intros i u v Hu Hv.
    destruct (lookup_lt_is_Some_2 (Individual.F b) i) as [m Hm].
    { rewrite <- Hab. by eapply lookup_lt_Some. }
    eapply F64_facts.leb_trans; eauto.
  - destruct (lookup_lt_is_Some_2 (Individual.F c) k) as [z Hz].
    { rewrite <- Hbc. by eapply lookup_lt_Some. }
    exists k, x, z. repeat split; try assumption.
    eapply F64_facts.ltb_leb_trans; eauto.
Qed.

(** A NaN objective makes every comparison false: the candidate is
    neither dominated nor dominating. *)
Lemma dominate_nan_r (a b : Individual.t) (k : nat) :
  length (Individual.F a) = length (Individual.F b) ->
  Individual.F b !! k = Some F64.nan ->
  MOPSO.dominate a b = false.
Proof.
  intros Hlen Hk. destruct (MOPSO.dominate a b) eqn:E; [|reflexivity].
  apply dominate_spec in E as [Hle _].
  destruct (lookup_lt_is_Some_2 (Individual.F a) k) as [x Hx].
  { rewrite Hlen. by eapply lookup_lt_Some. }
  specialize (Hle k x F64.nan Hx Hk). rewrite F64_facts.leb_nan_r in Hle. discriminate.
Qed.

Lemma dominate_nan_l (a b : Individual.t) (k : nat) :
  length (Individual.F a) = length (Individual.F b) ->
  Individual.F a !! k = Some F64.nan ->
  MOPSO.dominate a b = false.
Proof.
  intros Hlen Hk. destruct (MOPSO.dominate a b) eqn:E; [|reflexivity].
  apply dominate_spec in E as [Hle _].
  destruct (lookup_lt_is_Some_2 (Individual.F b) k) as [y Hy].
  { rewrite <- Hlen. by eapply lookup_lt_Some. }
  specialize (Hle k F64.nan y Hk Hy). discriminate.
Qed.

End Domination.

(** ** Non-dominated sorting: fronts partition the indices *)

Module NDS_facts.
Import NonDominatedSorting.

Lemma dominates_irrefl (a : vec) : dominates a a = false.
Proof. apply (dominate_irrefl (Individual.mk [] a)). Qed.

Lemma dominates_trans (a b c : vec) :
  length a = length b -> length b = length c ->
  dominates a b = true -> dominates b c = true -> dominates a c = true.
Proof.
  apply (dominate_trans (Individual.mk [] a) (Individual.mk [] b) (Individual.mk [] c)).
Qed.

Lemma dominated_in_true (F : matrix) (among : list nat) (i : nat) :
  dominated_in F among i = true <->
  exists fi j fj, F !! i = Some fi /\ j ∈ among /\ F !! j = Some fj /\
                  dominates fj fi = true.
Proof.
  unfold dominated_in. destruct (F !! i) as [fi|]; cycle 1.
  { split; [discriminate | intros (? & ? & ? & ? & _); discriminate]. }
  rewrite existsb_exists. split.
  - intros (j & Hj & Hd). destruct (F !! j) as [fj|] eqn:E; [|discriminate].
    exists fi, j, fj. rewrite list_elem_of_In. auto.
  - intros (? & j & fj & [= <-] & Hj & Hfj & Hd). exists j.
    rewrite Hfj, <- list_elem_of_In. auto.
Qed.

Lemma dominated_in_false (F : matrix) (among : list nat) (i : nat) :
  dominated_in F among i = false <->
  forall fi j fj, F !! i = Some fi -> j ∈ among -> F !! j = Some fj ->
                  dominates fj fi = false.
Proof.
  rewrite <- not_true_iff_false, dominated_in_true. split.
  - intros Hn fi j fj Hi Hj Hfj. apply not_true_iff_false. intros Hd.
    apply Hn. eauto 8.
  - intros Hall (fi & j & fj & Hi & Hj & Hfj & Hd).
    rewrite (Hall fi j fj) in Hd by assumption. discriminate.
Qed.

(** Among finitely many vectors of one length, someone is dominated by nobody. *)
Lemma exists_non_dominated (F : matrix) (m : nat) (remaining : list nat) :
  Forall (fun r => length r = m) F ->
  remaining <> [] ->
  exists i, i ∈ remaining /\ dominated_in F remaining i = false.
Proof.
  intros Hrows Hne. induction remaining as [|x l IH]; [done|].
  destruct l as [|y l'].
  - exists x. split; [by apply list_elem_of_singleton|].
    apply dominated_in_false. intros fi j fj Hi Hj Hfj.
    apply list_elem_of_singleton in Hj as ->.
    rewrite Hi in Hfj. injection Hfj as <-. apply dominates_irrefl.
  - destruct IH as (i0 & Hi0 & Hmin); [done|].
    set (l := y :: l') in *.
    destruct (dominated_in F [x] i0) eqn:Hx.
    + (* [x] dominates the old minimum: [x] is the new one *)
      apply dominated_in_true in Hx as (fi0 & j & fx & Hfi0 & Hj & Hfx & Hd).
      apply list_elem_of_singleton in Hj as ->.
      exists x. split; [by left|].
      apply dominated_in_false. intros fi j fj Hi Hj Hfj.
      rewrite Hfx in Hi. injection Hi as <-.
      apply elem_of_cons in Hj as [-> | Hj].
      * rewrite Hfx in Hfj. injection Hfj as <-. apply dominates_irrefl.
      * apply not_true_iff_false. intros Hd2.
        assert (dominates fj fi0 = true) as Hd3.
        { eapply (dominates_trans fj fx fi0); try eassumption.
          - rewrite (Forall_lookup_1 _ _ _ _ Hrows Hfj).
            by rewrite (Forall_lookup_1 _ _ _ _ Hrows Hfx).
          - rewrite (Forall_lookup_1 _ _ _ _ Hrows Hfx).
            by rewrite (Forall_lookup_1 _ _ _ _ Hrows Hfi0). }
        rewrite dominated_in_false in Hmin.
        rewrite (Hmin fi0 j fj) in Hd3 by assumption. discriminate.
    + exists i0. split; [by right|].
      rewrite dominated_in_false in Hmin, Hx |- *.
      intros fi j fj Hi Hj Hfj.
      apply elem_of_cons in Hj as [-> | Hj]; [|eauto].
      apply (Hx fi x fj); [assumption | by apply list_elem_of_singleton | assumption].
Qed.

Lemma peel_partition (F : matrix) (m fuel : nat) (remaining : list nat) :
  Forall (fun r => length r = m) F ->
  length remaining <= fuel ->
  concat (peel fuel F remaining) ≡ₚ remaining.
Proof.
  intros Hrows. revert remaining.
  induction fuel as [|fuel IH]; intros remaining Hlen.
  - destruct remaining; [reflexivity | cbn in Hlen; lia].
  - destruct remaining as [|x l]; [reflexivity|].
    cbn [peel concat]. set (remaining := x :: l) in *.
    assert (remaining <> []) as Hne by done.
    destruct (exists_non_dominated F m remaining Hrows Hne) as (i & Hi & Hnd).
    rewrite IH.
    + rewrite <- (filter_app_complement
                    (fun i => dominated_in F remaining i = false) remaining) at 3.
      assert (filter (fun i => dominated_in F remaining i = true) remaining
              = filter (fun i => ~ dominated_in F remaining i = false) remaining) as ->;
        [|reflexivity].
      apply list_filter_iff. intros j.
      destruct (dominated_in F remaining j); split; congruence.
    + assert (length (filter (fun i => dominated_in F remaining i = true) remaining)
              < length remaining); [|lia].
      apply (length_filter_lt _ _ i); [assumption | congruence].
Qed.

(** Every index of the pool is in exactly one front. *)
Lemma do_partition (F : matrix) (m : nat) :
  Forall (fun r => length r = m) F ->
  concat (do F) ≡ₚ seq 0 (length F).
Proof.
  intros Hrows. apply (peel_partition F m); [assumption|].
  by rewrite length_seq.
Qed.

Lemma elem_of_first_front (F : matrix) (i : nat) :
  i ∈ first_front F <->
  i < length F /\ dominated_in F (seq 0 (length F)) i = false.
Proof.
  unfold first_front. rewrite list_elem_of_filter, elem_of_seq. intuition lia.
Qed.

Lemma first_front_nonempty (F : matrix) (m : nat) :
  Forall (fun r => length r = m) F ->
  0 < length F -> 0 < length (first_front F).
Proof.
  intros Hrows Hpos.
  destruct (exists_non_dominated F m (seq 0 (length F)) Hrows) as (i & Hi & Hnd).
  { destruct F; [cbn in Hpos; lia | done]. }
  assert (i ∈ first_front F) as Hin.
  { apply elem_of_first_front. split; [|assumption].
    apply elem_of_seq in Hi. lia. }
  destruct (first_front F); [by apply elem_of_nil in Hin | cbn; lia].
Qed.

End NDS_facts.

(** ** MOPSO: the personal-best loop *)

Section MOPSO_pbest.
Context `{RandomState}.

Lemma update_pbest_Ok pop i pbest g p1 g1 :
  MOPSO.update_pbest pop i pbest g = Ok (p1, g1) ->
  g1 = g /\ length p1 = length pbest /\
  p1 !! i = Described.pbest_choice pop pbest i /\
  (forall k, k <> i -> p1 !! k = pbest !! k).
Proof.
  unfold MOPSO.update_pbest.
  intros (a & ga & [Ha ->]%getitem_Ok & (b & gb & [Hb ->]%getitem_Ok & Hif)%bind_Ok)%bind_Ok.
  unfold Described.pbest_choice. rewrite Hb. cbn. rewrite Ha. cbn.
  destruct (MOPSO.dominate a b).
  - rewrite setitem_lt in Hif by (by eapply lookup_lt_Some).
    injection Hif as <- <-. rewrite length_insert.
    repeat split; [| intros k Hk; by apply list_lookup_insert_ne].
    apply list_lookup_insert_eq. by eapply lookup_lt_Some.
  - injection Hif as <- <-. auto.
Qed.

Lemma pbest_loop_Ok pop m : forall s pbest g pbest' g',
  for_in (seq s m) (MOPSO.update_pbest pop) pbest g = Ok (pbest', g') ->
  g' = g /\ length pbest' = length pbest /\
  forall i, pbest' !! i =
            if decide (s <= i < s + m) then Described.pbest_choice pop pbest i
            else pbest !! i.
Proof.
  induction m as [|m IH]; intros s pbest g pbest' g'; cbn [seq for_in].
  - intros [= <- <-]. repeat split. intros i. rewrite decide_False by lia. reflexivity.
  - intros (p1 & g1 & Hstep & Hrest)%bind_Ok.
    apply update_pbest_Ok in Hstep as (-> & Hlen1 & Hs & Hother).
    apply IH in Hrest as (-> & Hlen & Hall).
    split; [reflexivity|]. split; [congruence|].
    intros i. rewrite Hall. destruct (decide (i = s)) as [->|Hne].
    + rewrite decide_False, decide_True by lia. exact Hs.
    + destruct (decide (S s <= i < S s + m)).
      * rewrite decide_True by lia. unfold Described.pbest_choice.
        by rewrite Hother.
      * rewrite decide_False by lia. by apply Hother.
Qed.

Lemma pbest_loop_total pop m : forall s pbest g,
  s + m <= length pop -> s + m <= length pbest ->
  exists pbest', for_in (seq s m) (MOPSO.update_pbest pop) pbest g = Ok (pbest', g).
Proof.
  induction m as [|m IH]; intros s pbest g Hpop Hpb; cbn [seq for_in].
  - eexists. reflexivity.
  - destruct (lookup_lt_is_Some_2 pop s) as [a Ha]; [lia|].
    destruct (lookup_lt_is_Some_2 pbest s) as [b Hb]; [lia|].
    assert (exists p1, MOPSO.update_pbest pop s pbest g = Ok (p1, g) /\
                       length p1 = length pbest) as (p1 & Hp1 & Hlen).
    { unfold MOPSO.update_pbest.
      rewrite (bind_step _ _ _ a g) by (by apply getitem_Some).
      rewrite (bind_step _ _ _ b g) by (by apply getitem_Some).
      destruct (MOPSO.dominate a b).
      - rewrite setitem_lt by lia. eexists. split; [reflexivity|].
        by rewrite length_insert.
      - eexists. split; reflexivity. }
    destruct (IH (S s) p1 g) as [pbest' Hrest]; [lia | lia |].
    exists pbest'. by rewrite (bind_step _ _ _ p1 g).
Qed.

End MOPSO_pbest.

(** ** MOPSO: one survival step *)

Section MOPSO_advance.
Context `{RandomState}.

Lemma non_dominated_Ok (pop : Population.t) (g : rng) :
  exists nd,
    MOPSO.non_dominated pop g = Ok (nd, g) /\
    Forall2 (fun i a => pop !! i = Some a)
            (NonDominatedSorting.first_front (Population.get_F pop)) nd.
Proof.
  unfold MOPSO.non_dominated. apply mapM_getitem.
  apply Forall_forall. intros i Hi.
  apply NDS_facts.elem_of_first_front in Hi as [Hi _].
  unfold Population.get_F in Hi. by rewrite length_fmap in Hi.
Qed.

(** What [_advance] computes, step by step. *)
Lemma advance_steps (self : MOPSO.t) (infills : Population.t) (g : rng) :
  MOPSO.pop_size self <= length infills ->
  MOPSO.pop_size self <= length (MOPSO.pbest self) ->
  exists pbest' nd,
    for_range (MOPSO.pop_size self) (MOPSO.update_pbest infills) (MOPSO.pbest self) g
      = Ok (pbest', g) /\
    MOPSO.non_dominated pbest' g = Ok (nd, g) /\
    Forall2 (fun i a => pbest' !! i = Some a)
            (NonDominatedSorting.first_front (Population.get_F pbest')) nd /\
    (length nd = 0 ->
     MOPSO._advance self infills g
       = Ok (MOPSO.set_pbest (MOPSO.set_pop self infills) pbest', g)) /\
    (0 < length nd ->
     exists gb, nd !! (randint (length nd) g).1 = Some gb /\
       MOPSO._advance self infills g
         = Ok (MOPSO.set_gbest (MOPSO.set_pbest (MOPSO.set_pop self infills) pbest') gb,
               (randint (length nd) g).2)).
Proof.
  intros Hpop Hpb.
  destruct (pbest_loop_total infills (MOPSO.pop_size self) 0 (MOPSO.pbest self) g)
    as [pbest' Hloop]; [lia | lia |].
  destruct (non_dominated_Ok pbest' g) as (nd & Hnd & HF).
  exists pbest', nd. split; [exact Hloop|]. split; [exact Hnd|]. split; [exact HF|].
  unfold MOPSO._advance.
  cbn [MOPSO.pop_size MOPSO.set_pop MOPSO.pop MOPSO.pbest MOPSO.set_pbest].
  rewrite (bind_step _ _ _ pbest' g) by exact Hloop.
  rewrite (bind_step _ _ _ nd g) by exact Hnd.
  split.
  - intros Hz. rewrite decide_False by lia. reflexivity.
  - intros Hp. rewrite decide_True by assumption.
    pose proof (randint_lt (length nd) g Hp) as Hj.
    destruct (lookup_lt_is_Some_2 nd _ Hj) as [gb Hgb].
    exists gb. split; [exact Hgb|].
    rewrite (bind_step _ _ _ (randint (length nd) g).1 (randint (length nd) g).2).
    + rewrite (bind_step _ _ _ gb _) by (by apply getitem_Some). reflexivity.
    + rewrite np_random_randint_pos by assumption. by destruct (randint _ _).
Qed.

End MOPSO_advance.

(** ** Element-wise array operations, coordinate by coordinate *)

Section Array_facts.

Lemma lookup2_zip_with (f : F64.float -> F64.float -> F64.float) (A B : matrix) i k :
  lookup2 (zip_with (zip_with f) A B) i k =
  a ← lookup2 A i k; b ← lookup2 B i k; Some (f a b).
Proof.
  unfold lookup2. rewrite lookup_zip_with.
  destruct (A !! i) as [ra|]; [|reflexivity]. cbn.
  destruct (B !! i) as [rb|]; cbn.
  - rewrite lookup_zip_with. reflexivity.
  - destruct (ra !! k); reflexivity.
Qed.

Lemma lookup2_fmap (f : F64.float -> F64.float) (A : matrix) i k :
  lookup2 (fmap (M := list) (fmap (M := list) f) A) i k = f <$> lookup2 A i k.
Proof.
  unfold lookup2. rewrite list_lookup_fmap.
  destruct (A !! i) as [ra|]; [|reflexivity]. cbn.
  apply list_lookup_fmap.
Qed.

Lemma lookup2_row_msub (v : vec) (X : matrix) i k :
  i < length X ->
  lookup2 (row_msub v X) i k =
  a ← v !! k; x ← lookup2 X i k; Some (F64.sub a x).
Proof.
  intros Hi. unfold lookup2, row_msub. rewrite list_lookup_fmap.
  destruct (lookup_lt_is_Some_2 X i Hi) as [row ->]. cbn.
  unfold vsub. rewrite lookup_zip_with. reflexivity.
Qed.

Lemma lookup_vclip (xl xu x : vec) k :
  vclip xl xu x !! k =
  xk ← x !! k; lo ← xl !! k; hi ← xu !! k; Some (F64.clip xk lo hi).
Proof.
  unfold vclip. rewrite lookup_zip_with.
  destruct (x !! k) as [xk|]; [|reflexivity]. cbn.
  rewrite lookup_zip_with.
  destruct (xl !! k) as [lo|]; [|reflexivity]. cbn.
  destruct (xu !! k) as [hi|]; reflexivity.
Qed.

Lemma lookup2_np_clip (X : matrix) (xl xu : vec) i k :
  lookup2 (np_clip X xl xu) i k =
  xk ← lookup2 X i k; lo ← xl !! k; hi ← xu !! k; Some (F64.clip xk lo hi).
Proof.
  unfold lookup2, np_clip. rewrite list_lookup_fmap.
  destruct (X !! i) as [row|]; [|reflexivity]. cbn.
  apply lookup_vclip.
Qed.

Lemma get_X_new (X : matrix) : Population.get_X (Population.new X) = X.
Proof.
  unfold Population.get_X, Population.new. rewrite <- list_fmap_compose.
  apply list_fmap_id.
Qed.

Lemma shape_lookup2 (rows cols : nat) (A : matrix) i k :
  shape rows cols A -> i < rows -> k < cols -> is_Some (lookup2 A i k).
Proof.
  intros [Hr Hc] Hi Hk. unfold lookup2.
  destruct (lookup_lt_is_Some_2 A i) as [row Hrow]; [lia|].
  rewrite Hrow. cbn. apply lookup_lt_is_Some_2.
  rewrite (Forall_lookup_1 _ _ _ _ Hc Hrow). exact Hk.
Qed.

Lemma shape_zip_with (f : F64.float -> F64.float -> F64.float) n d (A B : matrix) :
  shape n d A -> shape n d B -> shape n d (zip_with (zip_with f) A B).
Proof.
  intros [HA HAc] [HB HBc]. split.
  - rewrite length_zip_with. lia.
  - apply Forall_lookup. intros i row (ra & rb & -> & Ha & Hb)%lookup_zip_with_Some.
    rewrite length_zip_with.
    rewrite (Forall_lookup_1 _ _ _ _ HAc Ha), (Forall_lookup_1 _ _ _ _ HBc Hb). lia.
Qed.

Lemma shape_fmap (f : F64.float -> F64.float) n d (A : matrix) :
  shape n d A -> shape n d (fmap (M := list) (fmap (M := list) f) A).
Proof.
  intros [HA HAc]. split.
  - by rewrite length_fmap.
  - apply Forall_fmap. eapply Forall_impl; [exact HAc|].
    intros row Hrow. cbn in *. by rewrite length_fmap.
Qed.

Lemma shape_row_msub n d (v : vec) (X : matrix) :
  length v = d -> shape n d X -> shape n d (row_msub v X).
Proof.
  intros Hv [HX HXc]. split.
  - unfold row_msub. by rewrite length_fmap.
  - unfold row_msub. apply Forall_fmap. eapply Forall_impl; [exact HXc|].
    intros row Hrow. cbn in *. unfold vsub. rewrite length_zip_with. lia.
Qed.

Lemma shape_np_clip n d (xl xu : vec) (X : matrix) :
  length xl = d -> length xu = d -> shape n d X -> shape n d (np_clip X xl xu).
Proof.
  intros Hl Hu [HX HXc]. split.
  - unfold np_clip. by rewrite length_fmap.
  - unfold np_clip. apply Forall_fmap. eapply Forall_impl; [exact HXc|].
    intros row Hrow. cbn in *. unfold vclip. rewrite length_zip_with, length_zip. lia.
Qed.

End Array_facts.

(** ** Random arrays *)

Section Random_facts.
Context `{RandomState}.

Lemma random_vector_total n : forall g,
  exists r g', random_vector n g = Ok (r, g') /\ length r = n /\
               Forall (fun u => F64.in_unit u = true) r.
Proof.
  induction n as [|n IH]; intros g; cbn [random_vector].
  - exists [], g. repeat split. constructor.
  - destruct (IH (random_sample g).2) as (r & g' & Hr & Hlen & Hu).
    exists ((random_sample g).1 :: r), g'. split; [|split].
    + rewrite (bind_step _ _ _ (random_sample g).1 (random_sample g).2)
        by (unfold np_random_random; by destruct (random_sample g)).
      rewrite (bind_step _ _ _ r g') by exact Hr. reflexivity.
    + cbn. by rewrite Hlen.
    + constructor; [apply random_sample_unit | exact Hu].
Qed.

Lemma random_matrix_total rows cols : forall g,
  exists r g', random_matrix rows cols g = Ok (r, g') /\ shape rows cols r /\
               Forall (Forall (fun u => F64.in_unit u = true)) r.
Proof.
  induction rows as [|rows IH]; intros g; cbn [random_matrix].
  - exists [], g. repeat split; constructor.
  - destruct (random_vector_total cols g) as (r & g1 & Hr & Hlen & Hu).
    destruct (IH g1) as (rs & g' & Hrs & [Hrows Hcols] & Hus).
    exists (r :: rs), g'. split; [|split; [split|]].
    + rewrite (bind_step _ _ _ r g1) by exact Hr.
      rewrite (bind_step _ _ _ rs g') by exact Hrs. reflexivity.
    + cbn. by rewrite Hrows.
    + by constructor.
    + by constructor.
Qed.

Lemma in_unit_lookup2 (r : matrix) i k u :
  Forall (Forall (fun u => F64.in_unit u = true)) r ->
  lookup2 r i k = Some u -> F64.in_unit u = true.
Proof.
  intros Hall. unfold lookup2. destruct (r !! i) as [row|] eqn:Hrow; [|discriminate].
  cbn. intros Hk.
  apply (Forall_lookup_1 _ _ _ _ (Forall_lookup_1 _ _ _ _ Hall Hrow) Hk).
Qed.

End Random_facts.

(** ** MOPSO: the variation step *)

Section MOPSO_infill.
Context `{RandomState}.

(** [_infill] never raises: it draws two random matrices, one after the
    other, and returns the clamped moved positions. *)
Lemma MOPSO_infill_steps (self : MOPSO.t) (g : rng) :
  exists r1 r2 g1 g2 V',
    random_matrix (MOPSO.pop_size self) (Problem.n_var (MOPSO.problem self)) g
      = Ok (r1, g1) /\
    random_matrix (MOPSO.pop_size self) (Problem.n_var (MOPSO.problem self)) g1
      = Ok (r2, g2) /\
    shape (MOPSO.pop_size self) (Problem.n_var (MOPSO.problem self)) r1 /\
    shape (MOPSO.pop_size self) (Problem.n_var (MOPSO.problem self)) r2 /\
    Forall (Forall (fun u => F64.in_unit u = true)) r1 /\
    Forall (Forall (fun u => F64.in_unit u = true)) r2 /\
    V' = madd (madd (mscale (MOPSO.w self) (MOPSO.velocities self))
                    (mmul (mscale (MOPSO.c1 self) r1)
                          (msub (Population.get_X (MOPSO.pbest self))
                                (Population.get_X (MOPSO.pop self)))))
              (mmul (mscale (MOPSO.c2 self) r2)
                    (row_msub (Individual.X (MOPSO.gbest self))
                              (Population.get_X (MOPSO.pop self)))) /\
    MOPSO._infill self g =
      Ok ((MOPSO.set_velocities self V',
           Population.new
             (np_clip (madd (Population.get_X (MOPSO.pop self)) V')
                      (Problem.xl (MOPSO.problem self))
                      (Problem.xu (MOPSO.problem self)))), g2).
Proof.
  destruct (random_matrix_total (MOPSO.pop_size self)
              (Problem.n_var (MOPSO.problem self)) g) as (r1 & g1 & Hr1 & Hs1 & Hu1).
  destruct (random_matrix_total (MOPSO.pop_size self)
              (Problem.n_var (MOPSO.problem self)) g1) as (r2 & g2 & Hr2 & Hs2 & Hu2).
  exists r1, r2, g1, g2. eexists. repeat split; try eassumption; try apply Hs1; try apply Hs2.
  unfold MOPSO._infill.
  rewrite (bind_step _ _ _ r1 g1) by exact Hr1.
  rewrite (bind_step _ _ _ r2 g2) by exact Hr2.
  reflexivity.
Qed.

(** C3. In a MOPSO generation every coordinate [(i, k)] of the velocity
    becomes [w*velocity + c1*r1*(personal_best - position) +
    c2*r2*(global_best - position)], where [r1] and [r2] come from two
    successive [pop_size x n_var] blocks of [np.random.random] draws (one
    draw per coordinate and per factor, each in [0, 1)) and [w], [c1], [c2]
    are the object's scalars; the offspring position is
    [position + velocity] with the new velocity, clamped into
    [[xl[k], xu[k]]]. *)
Theorem MOPSO_infill_spec (self : MOPSO.t) (g : rng) :
  let n := MOPSO.pop_size self in
  let d := Problem.n_var (MOPSO.problem self) in
  shape n d (Population.get_X (MOPSO.pop self)) ->
  shape n d (MOPSO.velocities self) ->
  shape n d (Population.get_X (MOPSO.pbest self)) ->
  length (Individual.X (MOPSO.gbest self)) = d ->
  length (Problem.xl (MOPSO.problem self)) = d ->
  length (Problem.xu (MOPSO.problem self)) = d ->
  exists (r1 r2 : matrix) (g1 g2 : rng) (self' : MOPSO.t) (off : Population.t),
    random_matrix n d g = Ok (r1, g1) /\
    random_matrix n d g1 = Ok (r2, g2) /\
    MOPSO._infill self g = Ok ((self', off), g2) /\
    MOPSO.w self' = MOPSO.w self /\ MOPSO.c1 self' = MOPSO.c1 self /\
    MOPSO.c2 self' = MOPSO.c2 self /\
    MOPSO.pbest self' = MOPSO.pbest self /\ MOPSO.gbest self' = MOPSO.gbest self /\
    shape n d (MOPSO.velocities self') /\
    shape n d (Population.get_X off) /\
    forall i k, i < n -> k < d ->
      exists position velocity personal_best global_best u1 u2 lo hi,
        lookup2 (Population.get_X (MOPSO.pop self)) i k = Some position /\
        lookup2 (MOPSO.velocities self) i k = Some velocity /\
        lookup2 (Population.get_X (MOPSO.pbest self)) i k = Some personal_best /\
        Individual.X (MOPSO.gbest self) !! k = Some global_best /\
        lookup2 r1 i k = Some u1 /\ lookup2 r2 i k = Some u2 /\
        F64.in_unit u1 = true /\ F64.in_unit u2 = true /\
        Problem.xl (MOPSO.problem self) !! k = Some lo /\
        Problem.xu (MOPSO.problem self) !! k = Some hi /\
        lookup2 (MOPSO.velocities self') i k =
          Some (Described.velocity_update (MOPSO.w self) (MOPSO.c1 self) (MOPSO.c2 self)
                  velocity u1 u2 personal_best global_best position) /\
        lookup2 (Population.get_X off) i k =
          Some (Described.position_update position
                  (Described.velocity_update (MOPSO.w self) (MOPSO.c1 self) (MOPSO.c2 self)
                     velocity u1 u2 personal_best global_best position) lo hi).
Proof.
  intros n d HX HV HP Hg Hxl Hxu.
  destruct (MOPSO_infill_steps self g)
    as (r1 & r2 & g1 & g2 & V' & Hr1 & Hr2 & Hs1 & Hs2 & Hu1 & Hu2 & HV' & Hinf).
  fold n d in Hr1, Hr2, Hs1, Hs2.
  assert (forall i k, i < n -> k < d ->
    exists position velocity personal_best global_best u1 u2 lo hi,
      lookup2 (Population.get_X (MOPSO.pop self)) i k = Some position /\
      lookup2 (MOPSO.velocities self) i k = Some velocity /\
      lookup2 (Population.get_X (MOPSO.pbest self)) i k = Some personal_best /\
      Individual.X (MOPSO.gbest self) !! k = Some global_best /\
      lookup2 r1 i k = Some u1 /\ lookup2 r2 i k = Some u2 /\
      F64.in_unit u1 = true /\ F64.in_unit u2 = true /\
      Problem.xl (MOPSO.problem self) !! k = Some lo /\
      Problem.xu (MOPSO.problem self) !! k = Some hi /\
      lookup2 V' i k =
        Some (Described.velocity_update (MOPSO.w self) (MOPSO.c1 self) (MOPSO.c2 self)
                velocity u1 u2 personal_best global_best position) /\
      lookup2 (np_clip (madd (Population.get_X (MOPSO.pop self)) V')
                 (Problem.xl (MOPSO.problem self)) (Problem.xu (MOPSO.problem self))) i k =
        Some (Described.position_update position
                (Described.velocity_update (MOPSO.w self) (MOPSO.c1 self) (MOPSO.c2 self)
                   velocity u1 u2 personal_best global_best position) lo hi)) as Hpoint.
  { intros i k Hi Hk.
    destruct (shape_lookup2 n d _ i k HX Hi Hk) as [x Hx].
    destruct (shape_lookup2 n d _ i k HV Hi Hk) as [v Hv].
    destruct (shape_lookup2 n d _ i k HP Hi Hk) as [pb Hpb].
    destruct (shape_lookup2 n d _ i k Hs1 Hi Hk) as [u1 Hu1k].
    destruct (shape_lookup2 n d _ i k Hs2 Hi Hk) as [u2 Hu2k].
    destruct (lookup_lt_is_Some_2 (Individual.X (MOPSO.gbest self)) k) as [gb Hgb]; [lia|].
    destruct (lookup_lt_is_Some_2 (Problem.xl (MOPSO.problem self)) k) as [lo Hlo]; [lia|].
    destruct (lookup_lt_is_Some_2 (Problem.xu (MOPSO.problem self)) k) as [hi Hhi]; [lia|].
    exists x, v, pb, gb, u1, u2, lo, hi.
    assert (lookup2 V' i k =
            Some (Described.velocity_update (MOPSO.w self) (MOPSO.c1 self) (MOPSO.c2 self)
                    v u1 u2 pb gb x)) as HVk.
    { rewrite HV'. unfold madd, mmul, msub, mscale, vadd, vmul, vsub, vscale.
      rewrite !lookup2_zip_with, !lookup2_fmap, lookup2_row_msub
        by (destruct HX as [-> _]; exact Hi).
      rewrite Hv, Hu1k, Hpb, Hx, Hu2k, Hgb. reflexivity. }
    repeat split; try assumption.
    - apply (in_unit_lookup2 r1 i k); assumption.
    - apply (in_unit_lookup2 r2 i k); assumption.
    - rewrite lookup2_np_clip. unfold madd, vadd. rewrite lookup2_zip_with.
      rewrite Hx, HVk, Hlo, Hhi. reflexivity. }
  assert (shape n d V') as HsV.
  { rewrite HV'. unfold madd, mmul, msub, mscale, vadd, vmul, vsub, vscale.
    repeat first [ apply shape_zip_with | apply shape_fmap
                 | apply shape_row_msub | assumption ]. }
  exists r1, r2, g1, g2. eexists. eexists.
  split; [exact Hr1|]. split; [exact Hr2|]. split; [exact Hinf|].
  cbn [MOPSO.w MOPSO.c1 MOPSO.c2 MOPSO.pbest MOPSO.gbest MOPSO.velocities MOPSO.set_velocities].
  rewrite get_X_new.
  repeat (split; [reflexivity|]). split; [exact HsV|]. split; [|exact Hpoint].
  apply shape_np_clip; try assumption. by apply shape_zip_with.
Qed.

End MOPSO_infill.

(** ** MOPSO: personal bests never regress *)

Section MOPSO_pbest_monotone.
Context `{RandomState}.

Lemma advance_Ok_pbest (self : MOPSO.t) (infills : Population.t) g self' g' :
  MOPSO._advance self infills g = Ok (self', g') ->
  for_range (MOPSO.pop_size self) (MOPSO.update_pbest infills) (MOPSO.pbest self) g
    = Ok (MOPSO.pbest self', g) /\
  MOPSO.pop_size self' = MOPSO.pop_size self /\
  MOPSO.problem self' = MOPSO.problem self /\
  MOPSO.pop self' = infills.
Proof.
  unfold MOPSO._advance.
  cbn [MOPSO.pop_size MOPSO.set_pop MOPSO.pop MOPSO.pbest MOPSO.set_pbest].
  intros (pbest' & g1 & Hloop & (nd & g2 & Hnd & Hif)%bind_Ok)%bind_Ok.
  destruct (pbest_loop_Ok _ _ _ _ _ _ _ Hloop) as (-> & _ & _).
  destruct (decide (0 < length nd)).
  - apply bind_Ok in Hif as (j & g3 & _ & (gb & g4 & _ & [= <- <-])%bind_Ok).
    cbn. auto.
  - injection Hif as <- <-. cbn. auto.
Qed.

(** One generation: each personal best is kept, or replaced by the new
    candidate of the same index, which then dominates it. *)
Lemma advance_pbest_step (self : MOPSO.t) (infills : Population.t) g self' g' :
  MOPSO._advance self infills g = Ok (self', g') ->
  length (MOPSO.pbest self') = length (MOPSO.pbest self) /\
  forall i old p',
    MOPSO.pbest self !! i = Some old -> MOPSO.pbest self' !! i = Some p' ->
    p' = old \/ (infills !! i = Some p' /\ MOPSO.dominate p' old = true).
Proof.
  intros (Hloop & _)%advance_Ok_pbest.
  apply pbest_loop_Ok in Hloop as (_ & Hlen & Hall).
  split; [exact Hlen|]. intros i old p' Hold Hp'.
  rewrite Hall in Hp'. destruct (decide _); [|left; congruence].
  unfold Described.pbest_choice in Hp'. rewrite Hold in Hp'. cbn in Hp'.
  destruct (infills !! i) as [cand|]; [|discriminate]. cbn in Hp'.
  destruct (MOPSO.dominate cand old) eqn:Hd; injection Hp' as <-; auto.
Qed.

End MOPSO_pbest_monotone.

Section MOPSO_personal_best.
Context `{RandomState}.

Lemma advance_total (self : MOPSO.t) (infills : Population.t) (g : rng) :
  MOPSO.pop_size self <= length infills ->
  MOPSO.pop_size self <= length (MOPSO.pbest self) ->
  exists self' g', MOPSO._advance self infills g = Ok (self', g').
Proof.
  intros Hpop Hpb.
  destruct (advance_steps self infills g Hpop Hpb)
    as (pbest' & nd & _ & _ & _ & Hzero & Hpos).
  destruct (decide (0 < length nd)) as [Hp|Hz].
  - destruct (Hpos Hp) as (gb & _ & Hadv). eauto.
  - rewrite Hzero by lia. eauto.
Qed.

End MOPSO_personal_best.

Section MOPSO_gbest.
Context `{RandomState}.

Lemma pbest_loop_Forall (P : Individual.t -> Prop) pop m s pbest g pbest' g' :
  Forall P pop -> Forall P pbest ->
  for_in (seq s m) (MOPSO.update_pbest pop) pbest g = Ok (pbest', g') ->
  Forall P pbest'.
Proof.
  intros Hpop Hpb Hloop. apply pbest_loop_Ok in Hloop as (_ & _ & Hall).
  apply Forall_lookup. intros i p Hp. rewrite Hall in Hp.
  destruct (decide _); [|exact (Forall_lookup_1 _ _ _ _ Hpb Hp)].
  unfold Described.pbest_choice in Hp.
  destruct (pbest !! i) as [b|] eqn:Hb; [|discriminate]. cbn in Hp.
  destruct (pop !! i) as [c|] eqn:Hc; [|discriminate]. cbn in Hp.
  destruct (MOPSO.dominate c b); injection Hp as <-;
    [exact (Forall_lookup_1 _ _ _ _ Hpop Hc) | exact (Forall_lookup_1 _ _ _ _ Hpb Hb)].
Qed.

(** C4. In a MOPSO generation, once the personal bests are updated, the
    global best becomes the member of their non-dominated front whose
    position in the front is one [np.random.randint(len(front))] draw: a
    personal best that no personal best dominates, chosen by the
    generator and not by any fitness comparison. *)
Theorem MOPSO_advance_gbest (self : MOPSO.t) (infills : Population.t) (g : rng) (m : nat) :
  0 < MOPSO.pop_size self ->
  length infills = MOPSO.pop_size self ->
  length (MOPSO.pbest self) = MOPSO.pop_size self ->
  Forall (fun p => length (Individual.F p) = m) infills ->
  Forall (fun p => length (Individual.F p) = m) (MOPSO.pbest self) ->
  exists (pbest' : Population.t) (front : list nat) (j i : nat) (g' : rng)
         (gb : Individual.t) (self' : MOPSO.t),
    for_range (MOPSO.pop_size self) (MOPSO.update_pbest infills) (MOPSO.pbest self) g
      = Ok (pbest', g) /\
    front = NonDominatedSorting.first_front (Population.get_F pbest') /\
    0 < length front /\
    np_random_randint (length front) g = Ok (j, g') /\
    front !! j = Some i /\
    pbest' !! i = Some gb /\
    (forall p, p ∈ pbest' -> MOPSO.dominate p gb = false) /\
    MOPSO._advance self infills g = Ok (self', g') /\
    MOPSO.pbest self' = pbest' /\
    MOPSO.gbest self' = gb.
Proof.
  intros Hpos Hlen Hpb HFi HFp.
  destruct (advance_steps self infills g) as (pbest' & nd & Hloop & Hnd & HF2 & _ & Hadv);
    [lia | lia |].
  pose proof (pbest_loop_Forall _ _ _ _ _ _ _ _ HFi HFp Hloop) as HF'.
  destruct (pbest_loop_Ok _ _ _ _ _ _ _ Hloop) as (_ & Hlen' & _).
  set (front := NonDominatedSorting.first_front (Population.get_F pbest')) in *.
  assert (0 < length front) as Hfront.
  { apply (NDS_facts.first_front_nonempty _ m).
    - unfold Population.get_F. apply Forall_fmap. exact HF'.
    - unfold Population.get_F. rewrite length_fmap. lia. }
  pose proof (Forall2_length _ _ _ HF2) as Hndlen.
  destruct Hadv as (gb & Hgb & Hadv); [lia|].
  rewrite <- Hndlen in Hgb, Hadv.
  destruct (randint (length front) g) as [j g'] eqn:Hr. cbn [fst snd] in Hgb, Hadv.
  destruct (Forall2_lookup_r _ _ _ _ _ HF2 Hgb) as (i & Hi & Hpi).
  exists pbest', front, j, i, g', gb. eexists.
  split; [exact Hloop|]. split; [reflexivity|]. split; [exact Hfront|].
  split; [by apply np_random_randint_draw|]. split; [exact Hi|]. split; [exact Hpi|].
  split; [|split; [exact Hadv|split; reflexivity]].
  intros p [k Hk]%list_elem_of_lookup.
  assert (i ∈ front) as Hin by (apply list_elem_of_lookup; eauto).
  apply NDS_facts.elem_of_first_front in Hin as [_ Hnd'].
  rewrite NDS_facts.dominated_in_false in Hnd'.
  apply (Hnd' (Individual.F gb) k (Individual.F p)).
  - unfold Population.get_F. rewrite list_lookup_fmap, Hpi. reflexivity.
  - apply elem_of_seq. unfold Population.get_F. rewrite length_fmap.
    apply lookup_lt_Some in Hk. lia.
  - unfold Population.get_F. rewrite list_lookup_fmap, Hk. reflexivity.
Qed.

End MOPSO_gbest.

(** ** Sampling without replacement *)

Section Choice_facts.
Context `{RandomState}.

Lemma omap_lookup_Forall2 {A} (a : list A) (idx : list nat) :
  Forall (fun i => i < length a) idx ->
  Forall2 (fun i x => a !! i = Some x) idx (omap (fun i => a !! i) idx).
Proof.
  induction 1 as [|i idx Hi _ IH]; cbn; [constructor|].
  destruct (lookup_lt_is_Some_2 a i Hi) as [x Hx]. rewrite Hx.
  by constructor.
Qed.

Lemma omap_lookup_seq {A} (k l : list A) :
  omap (fun i => (k ++ l) !! i) (seq (length k) (length l)) = l.
Proof.
  revert k. induction l as [|x l IH]; intros k; [reflexivity|].
  cbn [length seq]. simpl omap. rewrite list_lookup_middle by reflexivity.
  f_equal. specialize (IH (k ++ [x])).
  rewrite <- app_assoc, length_app in IH. cbn [length app] in IH.
  rewrite Nat.add_1_r in IH. exact IH.
Qed.

(** Picking the entries of [l] at a permutation of all its positions
    gives a permutation of [l]. *)
Lemma lookup_all_Permutation {A} (l : list A) (idxs : list nat) (sel : list A) :
  Forall2 (fun i x => l !! i = Some x) idxs sel ->
  idxs ≡ₚ seq 0 (length l) ->
  sel ≡ₚ l.
Proof.
  intros HF.
  assert (sel = omap (fun i => l !! i) idxs) as ->.
  { induction HF as [|i x idxs sel Hx _ IH]; [reflexivity|].
    simpl omap. rewrite Hx. f_equal. exact IH. }
  intros ->. pose proof (omap_lookup_seq [] l) as E. cbn [app length] in E.
  by rewrite E.
Qed.

(** Entries of a duplicate-free list at distinct positions are distinct. *)
Lemma lookup_NoDup {A} (a : list A) (idx : list nat) (sel : list A) :
  NoDup a -> NoDup idx ->
  Forall2 (fun i x => a !! i = Some x) idx sel ->
  NoDup sel.
Proof.
  intros Ha Hidx HF. apply NoDup_alt. intros p q x Hp Hq.
  destruct (Forall2_lookup_r _ _ _ _ _ HF Hp) as (i & Hi & Hai).
  destruct (Forall2_lookup_r _ _ _ _ _ HF Hq) as (i' & Hi' & Hai').
  assert (i = i') as <- by exact (NoDup_lookup a i i' x Ha Hai Hai').
  exact (NoDup_lookup idx p q i Hidx Hi Hi').
Qed.

(** [np.random.choice(a, size, replace=False)] with [size <= len(a)]:
    [size] entries of [a], taken at pairwise distinct positions. *)
Lemma np_random_choice_spec (a : list nat) (size : nat) (g : rng) :
  size <= length a ->
  exists (idx sel : list nat) (g' : rng),
    np_random_choice a size g = Ok (sel, g') /\
    length sel = size /\
    NoDup idx /\
    Forall2 (fun i x => a !! i = Some x) idx sel /\
    (forall x, x ∈ sel -> x ∈ a) /\
    (NoDup a -> NoDup sel).
Proof.
  intros Hsize. unfold np_random_choice. rewrite decide_True by assumption.
  pose proof (permutation_perm (length a) g) as Hperm.
  destruct (permutation (length a) g) as [perm g'] eqn:Hp. cbn [fst] in Hperm.
  assert (NoDup (take size perm)) as Hnd.
  { apply (sublist_NoDup _ perm); [|apply sublist_take].
    rewrite Hperm. apply NoDup_seq. }
  assert (Forall (fun i => i < length a) (take size perm)) as Hlt.
  { apply Forall_take. rewrite Hperm. apply Forall_forall.
    intros i Hi%elem_of_seq. lia. }
  pose proof (omap_lookup_Forall2 a _ Hlt) as HF.
  exists (take size perm), (omap (fun i => a !! i) (take size perm)), g'.
  split; [reflexivity|]. split; [|split; [exact Hnd|split; [exact HF|split]]].
  - rewrite <- (Forall2_length _ _ _ HF), length_take.
    rewrite (Permutation_length Hperm), length_seq. lia.
  - intros x [p Hp']%list_elem_of_lookup.
    destruct (Forall2_lookup_r _ _ _ _ _ HF Hp') as (i & _ & Hai).
    apply list_elem_of_lookup. eauto.
  - intros Ha. by apply (lookup_NoDup a (take size perm)).
Qed.

End Choice_facts.

(** ** MODE: survival selection *)

Section MODE_advance.
Context `{RandomState}.

(** The front loop admits a prefix of the ranking whole and, if a front
    overflows, fills up from that front by one draw without replacement. *)
Lemma select_fronts_spec (pop_size : nat) (fronts : list (list nat)) :
  forall (next_pop : list nat) (g : rng),
  length next_pop <= pop_size ->
  exists (m : nat) (selected : list nat) (g' : rng),
    MODE.select_fronts pop_size fronts next_pop g
      = Ok (next_pop ++ concat (take m fronts) ++ selected, g') /\
    length (next_pop ++ concat (take m fronts)) <= pop_size /\
    ((m = length fronts /\ selected = [] /\ g' = g) \/
     (exists front,
        fronts !! m = Some front /\
        pop_size < length (next_pop ++ concat (take m fronts)) + length front /\
        np_random_choice front
          (pop_size - length (next_pop ++ concat (take m fronts))) g
          = Ok (selected, g'))).
Proof.
  induction fronts as [|front fronts IH]; intros next_pop g Hinv; cbn [MODE.select_fronts].
  - exists 0, [], g. cbn. rewrite !app_nil_r.
    split; [reflexivity|]. split; [assumption|]. left. auto.
  - destruct (decide (length next_pop + length front <= pop_size)) as [Hfit|Hover].
    + destruct (IH (next_pop ++ front) g) as (m & selected & g' & Hsel & Hlen & Hcase).
      { rewrite length_app. lia. }
      exists (S m), selected, g'. cbn [take concat lookup list_lookup length].
      rewrite <- !app_assoc in *. rewrite !app_assoc in Hlen, Hcase.
      rewrite <- !(app_assoc next_pop) in Hlen, Hcase.
      split; [exact Hsel|]. split; [exact Hlen|].
      destruct Hcase as [(-> & -> & ->) | Hcase]; [left; auto | right; exact Hcase].
    + rewrite decide_True by assumption.
      destruct (np_random_choice_spec front (pop_size - length next_pop) g)
        as (idx & selected & g' & Hch & _); [lia|].
      exists 0, selected, g'. cbn [take concat app]. rewrite !app_nil_r.
      split.
      * rewrite (bind_step _ _ _ selected g') by exact Hch. reflexivity.
      * split; [exact Hinv|]. right. exists front. split; [reflexivity|]. split; [lia|exact Hch].
Qed.

Lemma advance_of_selection (self : MODE.t) (infills : Population.t) g next_pop g' :
  MODE.select_fronts (MODE.pop_size self)
    (NonDominatedSorting.do (Population.get_F (Population.merge (MODE.pop self) infills)))
    [] g = Ok (next_pop, g') ->
  Forall (fun i => i < length (Population.merge (MODE.pop self) infills)) next_pop ->
  exists pop',
    MODE._advance self infills g = Ok (MODE.set_pop self pop', g') /\
    Forall2 (fun i p => Population.merge (MODE.pop self) infills !! i = Some p) next_pop pop'.
Proof.
  intros Hsel Hlt. destruct (mapM_getitem _ next_pop g' Hlt) as (pop' & Hmap & HF).
  exists pop'. split; [|exact HF]. unfold MODE._advance.
  rewrite (bind_step _ _ _ next_pop g') by exact Hsel.
  rewrite (bind_step _ _ _ pop' g') by exact Hmap. reflexivity.
Qed.

Lemma concat_take_drop {A} (m : nat) (ls : list (list A)) :
  concat ls = concat (take m ls) ++ concat (drop m ls).
Proof. by rewrite <- concat_app, take_drop. Qed.

(** C1. For a merged pool of at least [pop_size] candidates, survival
    selection returns exactly [pop_size] of them: the fronts of the
    ranking are admitted whole, in rank order, as long as the total stays
    at or below [pop_size]; the first front that would overflow supplies
    exactly the missing number by one [np.random.choice(front, remaining,
    replace=False)] draw; no index is selected twice. *)
Theorem MODE_advance_size (self : MODE.t) (infills : Population.t) (g : rng) (n_obj : nat) :
  let pool := Population.merge (MODE.pop self) infills in
  let fronts := NonDominatedSorting.do (Population.get_F pool) in
  Forall (fun p => length (Individual.F p) = n_obj) pool ->
  MODE.pop_size self <= length pool ->
  exists (m : nat) (selected : list nat) (g' : rng) (self' : MODE.t),
    MODE._advance self infills g = Ok (self', g') /\
    length (MODE.pop self') = MODE.pop_size self /\
    Forall2 (fun i p => pool !! i = Some p)
            (concat (take m fronts) ++ selected) (MODE.pop self') /\
    NoDup (concat (take m fronts) ++ selected) /\
    length (concat (take m fronts)) <= MODE.pop_size self /\
    length selected = MODE.pop_size self - length (concat (take m fronts)) /\
    ((m = length fronts /\ selected = [] /\ g' = g) \/
     (exists front,
        fronts !! m = Some front /\
        MODE.pop_size self < length (concat (take m fronts)) + length front /\
        np_random_choice front
          (MODE.pop_size self - length (concat (take m fronts))) g = Ok (selected, g') /\
        NoDup selected /\
        (forall x, x ∈ selected -> x ∈ front))).
Proof.
  intros pool fronts HF Hsize.
  assert (concat fronts ≡ₚ seq 0 (length pool)) as Hpart.
  { unfold fronts. rewrite (NDS_facts.do_partition _ n_obj).
    - unfold Population.get_F. by rewrite length_fmap.
    - unfold Population.get_F. by apply Forall_fmap. }
  assert (NoDup (concat fronts)) as Hnd by (rewrite Hpart; apply NoDup_seq).
  assert (forall x, x ∈ concat fronts -> x < length pool) as Hrange.
  { intros x Hx. rewrite Hpart in Hx. apply elem_of_seq in Hx. lia. }
  destruct (select_fronts_spec (MODE.pop_size self) fronts [] g)
    as (m & selected & g' & Hsel & Hlen & Hcase); [cbn; lia|].
  cbn [app] in Hsel, Hlen, Hcase.
  rewrite (concat_take_drop m fronts) in Hnd, Hrange, Hpart.
  apply NoDup_app in Hnd as (Hnd1 & Hdisj & Hnd2).
  assert (length selected = MODE.pop_size self - length (concat (take m fronts)) /\
          NoDup selected /\ (forall x, x ∈ selected -> x ∈ concat (drop m fronts)) /\
          ((m = length fronts /\ selected = [] /\ g' = g) \/
           (exists front,
              fronts !! m = Some front /\
              MODE.pop_size self < length (concat (take m fronts)) + length front /\
              np_random_choice front
                (MODE.pop_size self - length (concat (take m fronts))) g
                = Ok (selected, g') /\
              NoDup selected /\
              (forall x, x ∈ selected -> x ∈ front))))
    as (Hsl & Hsnd & Hsin & Hcase').
  { destruct Hcase as [(-> & -> & ->) | (front & Hfront & Hover & Hch)].
    - split; [|split; [constructor|split; [intros x Hx; by apply elem_of_nil in Hx|left; auto]]].
      rewrite drop_all in Hpart.  cbn [concat] in Hpart. rewrite app_nil_r in Hpart.
      apply Permutation_length in Hpart. rewrite length_seq in Hpart. cbn. lia.
    - rewrite (drop_S _ _ _ Hfront) in Hnd2 |- *. cbn [concat] in Hnd2 |- *.
      apply NoDup_app in Hnd2 as (Hndf & _ & _).
      destruct (np_random_choice_spec front
                  (MODE.pop_size self - length (concat (take m fronts))) g)
        as (idx & sel & g2 & Hch2 & Hl2 & _ & _ & Hin2 & Hnd2'); [lia|].
      rewrite Hch in Hch2. injection Hch2 as <- <-.
      split; [exact Hl2|]. split; [by apply Hnd2'|].
      split; [intros x Hx; apply elem_of_app; left; by apply Hin2|].
      right. exists front. repeat split; try assumption. by apply Hnd2'. }
  assert (Forall (fun i => i < length pool) (concat (take m fronts) ++ selected)) as Hlt.
  { apply Forall_forall. intros x Hx. apply Hrange.
    apply elem_of_app in Hx as [Hx|Hx]; apply elem_of_app; auto. }
  destruct (advance_of_selection self infills g _ g' Hsel Hlt) as (pop' & Hadv & HF2).
  exists m, selected, g', (MODE.set_pop self pop').
  split; [exact Hadv|]. cbn [MODE.pop MODE.set_pop].
  split; [|split; [exact HF2|split; [|split; [exact Hlen|split; [exact Hsl|exact Hcase']]]]].
  - rewrite <- (Forall2_length _ _ _ HF2), length_app, Hsl. lia.
  - apply NoDup_app. split; [exact Hnd1|]. split; [|exact Hsnd].
    intros x Hx Hx'. apply (Hdisj x Hx). by apply Hsin.
Qed.

(** C7, as the code has it.  When the merged pool is smaller than
    [pop_size], every front is admitted: the new population is the whole
    pool, each member exactly once, nothing is padded and no random number
    is consumed.  The call comes back as any successful call does: it
    returns [None] and only the [pop] field of the object changes. *)
Theorem MODE_advance_underfilled (self : MODE.t) (infills : Population.t) (g : rng)
    (n_obj : nat) :
  let pool := Population.merge (MODE.pop self) infills in
  Forall (fun p => length (Individual.F p) = n_obj) pool ->
  length pool < MODE.pop_size self ->
  exists pop' : Population.t,
    MODE._advance self infills g = Ok (MODE.set_pop self pop', g) /\
    pop' ≡ₚ pool /\
    length pop' < MODE.pop_size self /\
    outcome_of (MODE._advance self infills g) = Returns_None.
Proof.
  intros pool HF Hsmall.
  set (fronts := NonDominatedSorting.do (Population.get_F pool)).
  assert (concat fronts ≡ₚ seq 0 (length pool)) as Hpart.
  { unfold fronts. rewrite (NDS_facts.do_partition _ n_obj).
    - unfold Population.get_F. by rewrite length_fmap.
    - unfold Population.get_F. by apply Forall_fmap. }
  destruct (select_fronts_spec (MODE.pop_size self) fronts [] g)
    as (m & selected & g' & Hsel & Hlen & Hcase); [cbn; lia|].
  cbn [app] in Hsel, Hlen, Hcase.
  destruct Hcase as [(-> & -> & ->) | (front & Hfront & Hover & _)].
  - rewrite firstn_all, app_nil_r in Hsel.
    assert (Forall (fun i => i < length pool) (concat fronts)) as Hlt.
    { rewrite Hpart. apply Forall_forall. intros i Hi%elem_of_seq. lia. }
    destruct (advance_of_selection self infills g _ g Hsel Hlt) as (pop' & Hadv & HF2).
    exists pop'. split; [exact Hadv|].
    assert (pop' ≡ₚ pool) as Hperm by (by apply (lookup_all_Permutation pool (concat fronts))).
    split; [exact Hperm|]. split; [by rewrite Hperm|].
    by rewrite Hadv.
  - exfalso. pose proof (Permutation_length Hpart) as Hl.
    rewrite (concat_take_drop m fronts), (drop_S _ _ _ Hfront) in Hl.
    cbn [concat] in Hl. rewrite !length_app, length_seq in Hl. lia.
Qed.

End MODE_advance.

(** ** MODE: the variation step *)

Section MODE_infill.
Context `{RandomState}.

Lemma insert_take_drop {A} (l rest : list A) (i m : nat) (x : A) :
  i < length l ->
  take (S i) (<[i := x]> l) ++ rest ++ drop (S i + m) (<[i := x]> l)
  = take i l ++ (x :: rest) ++ drop (i + S m) l.
Proof.
  intros Hi.
  rewrite (take_S_r _ _ x) by (by apply list_lookup_insert_eq).
  rewrite take_insert_ge by lia.
  rewrite drop_insert_lt by lia.
  rewrite <- app_assoc. cbn. do 3 f_equal. by rewrite Nat.add_succ_r.
Qed.

Lemma length_binomial_crossover CR j : forall k0 x v rs d,
  length x = d -> length v = d -> length rs = d ->
  length (Described.binomial_crossover CR j k0 x v rs) = d.
Proof.
  intros k0 x. revert k0. induction x as [|xk x IH]; intros k0 [|vk v] [|r rs] d; cbn;
    try (intros; lia).
  intros Hx Hv Hr. destruct d; [lia|]. f_equal. apply IH; lia.
Qed.

Lemma lookup_binomial_crossover CR j : forall k0 x v rs k,
  Described.binomial_crossover CR j k0 x v rs !! k =
  xk ← x !! k; vk ← v !! k; r ← rs !! k;
  Some (if F64.ltb r CR || bool_decide (k0 + k = j) then vk else xk).
Proof.
  intros k0 x. revert k0. induction x as [|xk x IH]; intros k0 v rs k; [reflexivity|].
  destruct v as [|vk v]; [cbn; by destruct ((xk :: x) !! k)|].
  destruct rs as [|r rs].
  { cbn. destruct ((xk :: x) !! k); cbn; [|reflexivity].
    by destruct ((vk :: v) !! k). }
  destruct k as [|k]; cbn.
  - by rewrite Nat.add_0_r.
  - rewrite IH. by rewrite Nat.add_succ_r.
Qed.

Lemma setitem2_Ok (off : matrix) (i k : nat) (x : F64.float) (row : vec) g :
  off !! i = Some row -> k < length row ->
  MODE.setitem2 off i k x g = Ok (<[i := <[k := x]> row]> off, g).
Proof.
  intros Hrow Hk. unfold MODE.setitem2.
  rewrite (bind_step _ _ _ row g) by (by apply getitem_Some).
  rewrite (bind_step _ _ _ (<[k := x]> row) g) by (by apply setitem_lt).
  apply setitem_lt. by eapply lookup_lt_Some.
Qed.

(** The [for k] loop fills row [i] of [off] with the crossover of
    [X[i]] and the trial vector, one fresh draw per dimension. *)
Lemma crossover_loop (self : MODE.t) (X : matrix) (v xi : vec) (i j d : nat) (m : nat) :
  X !! i = Some xi -> length xi = d -> length v = d ->
  forall (k0 : nat) (row : vec) (off : matrix) (g : rng),
  off !! i = Some row -> length row = d -> k0 + m <= d ->
  exists rs g',
    random_vector m g = Ok (rs, g') /\ length rs = m /\
    for_in (seq k0 m) (MODE.crossover self X v i j) off g
    = Ok (<[i := take k0 row
                ++ Described.binomial_crossover (MODE.CR self) j k0
                     (drop k0 xi) (drop k0 v) rs
                ++ drop (k0 + m) row]> off, g').
Proof.
  intros HXi Hxi Hv. induction m as [|m IH]; intros k0 row off g Hrow Hlen Hk;
    cbn [seq for_in random_vector].
  - exists [], g. split; [reflexivity|]. split; [reflexivity|].
    assert (Described.binomial_crossover (MODE.CR self) j k0 (drop k0 xi) (drop k0 v) [] = [])
      as -> by (destruct (drop k0 xi), (drop k0 v); reflexivity).
    rewrite Nat.add_0_r. cbn [app]. rewrite take_drop.
    by rewrite list_insert_id.
  - destruct (random_sample g) as [r g1] eqn:Hr.
    destruct (lookup_lt_is_Some_2 v k0) as [vk Hvk]; [lia|].
    destruct (lookup_lt_is_Some_2 xi k0) as [xk Hxk]; [lia|].
    set (c := if F64.ltb r (MODE.CR self) || bool_decide (k0 = j) then vk else xk).
    assert (MODE.crossover self X v i j k0 off g
            = Ok (<[i := <[k0 := c]> row]> off, g1)) as Hstep.
    { unfold MODE.crossover.
      rewrite (bind_step _ _ _ r g1) by (unfold np_random_random; by rewrite Hr).
      unfold c. destruct (F64.ltb r (MODE.CR self) || bool_decide (k0 = j)).
      - rewrite (bind_step _ _ _ vk g1) by (by apply getitem_Some).
        apply (setitem2_Ok _ _ _ _ row); [assumption | lia].
      - rewrite (bind_step _ _ _ xk g1).
        + apply (setitem2_Ok _ _ _ _ row); [assumption | lia].
        + unfold MODE.getitem2.
          rewrite (bind_step _ _ _ xi g1) by (by apply getitem_Some).
          by apply getitem_Some. }
    destruct (IH (S k0) (<[k0 := c]> row) (<[i := <[k0 := c]> row]> off) g1)
      as (rs & g' & Hrs & Hrl & Hloop).
    { apply list_lookup_insert_eq. by eapply lookup_lt_Some. }
    { by rewrite length_insert. }
    { lia. }
    exists (r :: rs), g'. split; [|split].
    + rewrite (bind_step _ _ _ r g1) by (unfold np_random_random; by rewrite Hr).
      rewrite (bind_step _ _ _ rs g') by exact Hrs. reflexivity.
    + cbn. by rewrite Hrl.
    + rewrite (bind_step _ _ _ _ _ Hstep), Hloop.
      rewrite list_insert_insert_eq. do 2 f_equal.
      rewrite (insert_take_drop row _ k0 m c) by lia.
      rewrite (drop_S xi xk k0 Hxk), (drop_S v vk k0 Hvk). reflexivity.
Qed.

(** The donors are three pairwise distinct indices of the population;
    nothing relates them to the target index. *)
Lemma choose_donors_Ok (self : MODE.t) (g : rng) (a b c : nat) (g' : rng) :
  MODE.choose_donors self g = Ok ((a, b, c), g') ->
  np_random_choice (seq 0 (MODE.pop_size self)) 3 g = Ok ([a; b; c], g') /\
  a < MODE.pop_size self /\ b < MODE.pop_size self /\ c < MODE.pop_size self /\
  a <> b /\ a <> c /\ b <> c.
Proof.
  unfold MODE.choose_donors. intros (abc & g1 & Hch & Hm)%bind_Ok.
  destruct abc as [|a' [|b' [|c' [|? ?]]]]; try discriminate.
  injection Hm as <- <- <- <-. split; [exact Hch|].
  assert (3 <= length (seq 0 (MODE.pop_size self))) as Hsize.
  { unfold np_random_choice in Hch. destruct (decide _); [assumption|discriminate]. }
  destruct (np_random_choice_spec _ 3 g Hsize) as (idx & sel & g2 & Hch2 & _ & _ & _ & Hin & Hnd).
  rewrite Hch in Hch2. injection Hch2 as <- <-.
  specialize (Hnd (NoDup_seq _ _)).
  apply NoDup_cons in Hnd as [Ha Hnd]. apply NoDup_cons in Hnd as [Hb _].
  rewrite !elem_of_cons in Ha, Hb.
  pose proof (Hin a' ltac:(rewrite !elem_of_cons; auto)) as Ha'%elem_of_seq.
  pose proof (Hin b' ltac:(rewrite !elem_of_cons; auto)) as Hb'%elem_of_seq.
  pose proof (Hin c' ltac:(rewrite !elem_of_cons; auto)) as Hc'%elem_of_seq.
  split; [lia|]. split; [lia|]. split; [lia|]. split; [|split].
  - intros ->. apply Ha. by left.
  - intros ->. apply Ha. right. by apply list_elem_of_singleton.
  - intros ->. apply Hb. by left.
Qed.

Lemma choose_donors_total (self : MODE.t) (g : rng) :
  3 <= MODE.pop_size self ->
  exists a b c g', MODE.choose_donors self g = Ok ((a, b, c), g').
Proof.
  intros Hn. unfold MODE.choose_donors.
  destruct (np_random_choice_spec (seq 0 (MODE.pop_size self)) 3 g)
    as (idx & sel & g' & Hch & Hlen & _); [by rewrite length_seq|].
  destruct sel as [|a [|b [|c [|? ?]]]]; try discriminate.
  exists a, b, c, g'. by rewrite (bind_step _ _ _ _ _ Hch).
Qed.

(** One pass of the [for i] loop writes the unclamped offspring of
    target [i] into row [i]. *)
Lemma mutate_step (self : MODE.t) (X off : matrix) (i : nat) (g : rng) :
  let n := MODE.pop_size self in
  let d := Problem.n_var (MODE.problem self) in
  shape n d X -> shape n d off -> 3 <= n -> 0 < d -> i < n ->
  exists row g',
    Described.de_offspring self X i g = Ok (row, g') /\ length row = d /\
    MODE.mutate self X i off g = Ok (<[i := row]> off, g').
Proof.
  intros n d [HXn HXd] [Hon Hod] Hn Hd Hi.
  destruct (choose_donors_total self g Hn) as (a & b & c & g1 & Hch).
  destruct (choose_donors_Ok _ _ _ _ _ _ Hch) as (_ & Ha & Hb & Hc & _).
  destruct (lookup_lt_is_Some_2 X a) as [xa Hxa]; [lia|].
  destruct (lookup_lt_is_Some_2 X b) as [xb Hxb]; [lia|].
  destruct (lookup_lt_is_Some_2 X c) as [xc Hxc]; [lia|].
  destruct (lookup_lt_is_Some_2 X i) as [xi Hxi]; [lia|].
  destruct (lookup_lt_is_Some_2 off i) as [row Hrow]; [lia|].
  pose proof (Forall_lookup_1 _ _ _ _ HXd Hxa) as Hla.
  pose proof (Forall_lookup_1 _ _ _ _ HXd Hxb) as Hlb.
  pose proof (Forall_lookup_1 _ _ _ _ HXd Hxc) as Hlc.
  pose proof (Forall_lookup_1 _ _ _ _ HXd Hxi) as Hli.
  pose proof (Forall_lookup_1 _ _ _ _ Hod Hrow) as Hlr.
  cbn beta in Hla, Hlb, Hlc, Hli, Hlr.
  set (v := Described.trial_vector (MODE.F self) xa xb xc).
  assert (length v = d) as Hlv.
  { unfold v, Described.trial_vector, vadd, vscale, vsub.
    rewrite length_zip_with, length_fmap, length_zip_with. lia. }
  destruct (randint d g1) as [j g2] eqn:Hj.
  destruct (crossover_loop self X v xi i j d d Hxi Hli Hlv 0 row off g2 Hrow Hlr)
    as (rs & g' & Hrs & Hrl & Hloop); [lia|].
  rewrite !drop_0, Nat.add_0_l in Hloop. cbn [take app] in Hloop.
  rewrite <- Hlr in Hloop at 2. rewrite drop_all, app_nil_r in Hloop.
  exists (Described.binomial_crossover (MODE.CR self) j 0 xi v rs), g'.
  split; [|split].
  - unfold Described.de_offspring.
    rewrite (bind_step _ _ _ _ _ Hch). cbn beta iota.
    rewrite (bind_step _ _ _ xa g1) by (by apply getitem_Some).
    rewrite (bind_step _ _ _ xb g1) by (by apply getitem_Some).
    rewrite (bind_step _ _ _ xc g1) by (by apply getitem_Some).
    rewrite (bind_step _ _ _ xi g1) by (by apply getitem_Some).
    rewrite (bind_step _ _ _ j g2) by (by apply np_random_randint_draw).
    rewrite (bind_step _ _ _ rs g') by exact Hrs.
    reflexivity.
  - by apply length_binomial_crossover.
  - unfold MODE.mutate.
    rewrite (bind_step _ _ _ _ _ Hch). cbn beta iota.
    rewrite (bind_step _ _ _ xa g1) by (by apply getitem_Some).
    rewrite (bind_step _ _ _ xb g1) by (by apply getitem_Some).
    rewrite (bind_step _ _ _ xc g1) by (by apply getitem_Some).
    rewrite (bind_step _ _ _ j g2) by (by apply np_random_randint_draw).
    exact Hloop.
Qed.

Lemma shape_insert n d (off : matrix) (i : nat) (row : vec) :
  shape n d off -> length row = d -> shape n d (<[i := row]> off).
Proof.
  intros [Hn Hd] Hrow. split; [by rewrite length_insert|].
  by apply Forall_insert.
Qed.

Lemma mutate_loop (self : MODE.t) (X : matrix) (m : nat) :
  let n := MODE.pop_size self in
  let d := Problem.n_var (MODE.problem self) in
  shape n d X -> 3 <= n -> 0 < d ->
  forall (i0 : nat) (off : matrix) (g : rng),
  shape n d off -> i0 + m <= n ->
  exists rows g',
    mapM (Described.de_offspring self X) (seq i0 m) g = Ok (rows, g') /\
    shape m d rows /\
    for_in (seq i0 m) (MODE.mutate self X) off g
    = Ok (take i0 off ++ rows ++ drop (i0 + m) off, g').
Proof.
  intros n d HX Hn Hd. induction m as [|m IH]; intros i0 off g Hoff Hi;
    cbn [seq for_in].
  - exists [], g. split; [reflexivity|]. split; [split; [reflexivity|constructor]|].
    rewrite Nat.add_0_r. cbn [app]. by rewrite take_drop.
  - destruct (mutate_step self X off i0 g HX Hoff Hn Hd) as (row & g1 & Hrow & Hlr & Hstep);
      [lia|].
    destruct (IH (S i0) (<[i0 := row]> off) g1) as (rows & g' & Hrows & [Hlen Hcols] & Hloop).
    { by apply shape_insert. }
    { lia. }
    exists (row :: rows), g'. split; [|split].
    + cbn [mapM]. rewrite (bind_step _ _ _ _ _ Hrow).
      rewrite (bind_step _ _ _ _ _ Hrows). reflexivity.
    + split; [cbn; by rewrite Hlen | by constructor].
    + rewrite (bind_step _ _ _ _ _ Hstep), Hloop. do 2 f_equal.
      apply insert_take_drop. destruct Hoff as [-> _]. lia.
Qed.

Lemma shape_np_full n d (X : matrix) c : shape n d X -> shape n d (np_full X c).
Proof.
  intros [Hn Hd]. split; [unfold np_full; by rewrite length_fmap|].
  unfold np_full. apply Forall_fmap. eapply Forall_impl; [exact Hd|].
  intros row Hrow. cbn in *. by rewrite length_fmap.
Qed.

(** What one described offspring is made of. *)
Lemma de_offspring_Ok (self : MODE.t) (X : matrix) (i : nat) (g : rng) row g' :
  Described.de_offspring self X i g = Ok (row, g') ->
  exists a b c j rs xa xb xc xi g1 g2,
    MODE.choose_donors self g = Ok ((a, b, c), g1) /\
    X !! a = Some xa /\ X !! b = Some xb /\ X !! c = Some xc /\ X !! i = Some xi /\
    np_random_randint (Problem.n_var (MODE.problem self)) g1 = Ok (j, g2) /\
    j < Problem.n_var (MODE.problem self) /\
    random_vector (Problem.n_var (MODE.problem self)) g2 = Ok (rs, g') /\
    length rs = Problem.n_var (MODE.problem self) /\
    Forall (fun u => F64.in_unit u = true) rs /\
    row = Described.binomial_crossover (MODE.CR self) j 0 xi
            (Described.trial_vector (MODE.F self) xa xb xc) rs.
Proof.
  unfold Described.de_offspring.
  intros ([[a b] c] & g1 & Hch & Hrest)%bind_Ok.
  apply bind_Ok in Hrest as (xa & ? & [Hxa ->]%getitem_Ok & Hrest).
  apply bind_Ok in Hrest as (xb & ? & [Hxb ->]%getitem_Ok & Hrest).
  apply bind_Ok in Hrest as (xc & ? & [Hxc ->]%getitem_Ok & Hrest).
  apply bind_Ok in Hrest as (xi & ? & [Hxi ->]%getitem_Ok & Hrest).
  apply bind_Ok in Hrest as (j & g2 & Hj & Hrest).
  apply bind_Ok in Hrest as (rs & g3 & Hrs & [= <- <-]).
  exists a, b, c, j, rs, xa, xb, xc, xi, g1, g2.
  destruct (random_vector_total (Problem.n_var (MODE.problem self)) g2)
    as (rs' & g3' & Hrs' & Hlen & Hunit).
  rewrite Hrs in Hrs'. injection Hrs' as <- <-.
  repeat split; try assumption.
  unfold np_random_randint in Hj. destruct (decide _) as [Hpos|]; [|discriminate].
  injection Hj as Hj. pose proof (randint_lt _ g1 Hpos) as Hlt.
  rewrite Hj in Hlt. exact Hlt.
Qed.

(** [_infill] is the described variation step, and it does not raise on
    a well-formed population. *)
Lemma MODE_infill_refines (self : MODE.t) (g : rng) :
  let n := MODE.pop_size self in
  let d := Problem.n_var (MODE.problem self) in
  shape n d (Population.get_X (MODE.pop self)) -> 3 <= n -> 0 < d ->
  exists rows g',
    mapM (Described.de_offspring self (Population.get_X (MODE.pop self))) (seq 0 n) g
      = Ok (rows, g') /\
    shape n d rows /\
    MODE._infill self g
      = Ok (Population.new (np_clip rows (Problem.xl (MODE.problem self))
                                         (Problem.xu (MODE.problem self))), g') /\
    Described.de_infill self g = MODE._infill self g.
Proof.
  intros n d HX Hn Hd.
  destruct (mutate_loop self _ n HX Hn Hd 0 (np_full (Population.get_X (MODE.pop self)) F64.inf) g)
    as (rows & g' & Hrows & Hshape & Hloop); [by apply shape_np_full | lia |].
  cbn [take app] in Hloop. rewrite Nat.add_0_l in Hloop.
  assert (length (np_full (Population.get_X (MODE.pop self)) F64.inf) = n) as Hlen
    by exact (proj1 (shape_np_full n d _ F64.inf HX)).
  fold n in Hlen. rewrite <- Hlen in Hloop at 2. rewrite drop_all, app_nil_r in Hloop.
  exists rows, g'. split; [exact Hrows|]. split; [exact Hshape|].
  assert (MODE._infill self g
          = Ok (Population.new (np_clip rows (Problem.xl (MODE.problem self))
                                             (Problem.xu (MODE.problem self))), g')) as Hinf.
  { unfold MODE._infill, for_range. by rewrite (bind_step _ _ _ _ _ Hloop). }
  split; [exact Hinf|]. rewrite Hinf.
  unfold Described.de_infill. by rewrite (bind_step _ _ _ _ _ Hrows).
Qed.

(** C2. On a population of [pop_size >= 3] vectors of [n_var >= 1]
    coordinates, with bounds of [n_var] entries each, [MODE._infill] is
    the described DE step: for each target
    index [i] in order it draws three pairwise distinct indices [a, b, c]
    by one [np.random.choice(pop_size, 3, replace=False)] (all of
    [0 .. pop_size - 1] is eligible, [i] included), forms
    [v = X[a] + F * (X[b] - X[c])], draws the guaranteed dimension [j] by
    [np.random.randint(n_var)] and one [np.random.random()] per dimension;
    dimension [k] of the offspring is [v[k]] if that draw is below [CR] or
    [k = j], and [X[i][k]] otherwise; the whole offspring matrix is then
    clamped into the bounds. *)
Theorem MODE_infill_spec (self : MODE.t) (g : rng) :
  let n := MODE.pop_size self in
  let d := Problem.n_var (MODE.problem self) in
  shape n d (Population.get_X (MODE.pop self)) -> 3 <= n -> 0 < d ->
  length (Problem.xl (MODE.problem self)) = d ->
  length (Problem.xu (MODE.problem self)) = d ->
  (exists rows g',
     mapM (Described.de_offspring self (Population.get_X (MODE.pop self))) (seq 0 n) g
       = Ok (rows, g') /\
     shape n d rows /\
     MODE._infill self g
       = Ok (Population.new (np_clip rows (Problem.xl (MODE.problem self))
                                          (Problem.xu (MODE.problem self))), g') /\
     shape n d (np_clip rows (Problem.xl (MODE.problem self))
                             (Problem.xu (MODE.problem self))) /\
     Described.de_infill self g = MODE._infill self g) /\
  (forall (X : matrix) i g0 row g3,
     Described.de_offspring self X i g0 = Ok (row, g3) ->
     exists a b c j rs xa xb xc xi g1 g2,
       MODE.choose_donors self g0 = Ok ((a, b, c), g1) /\
       X !! a = Some xa /\ X !! b = Some xb /\ X !! c = Some xc /\ X !! i = Some xi /\
       np_random_randint d g1 = Ok (j, g2) /\ j < d /\
       random_vector d g2 = Ok (rs, g3) /\ length rs = d /\
       Forall (fun u => F64.in_unit u = true) rs /\
       row = Described.binomial_crossover (MODE.CR self) j 0 xi
               (Described.trial_vector (MODE.F self) xa xb xc) rs) /\
  (forall g0 a b c g1,
     MODE.choose_donors self g0 = Ok ((a, b, c), g1) ->
     np_random_choice (seq 0 n) 3 g0 = Ok ([a; b; c], g1) /\
     a < n /\ b < n /\ c < n /\ a <> b /\ a <> c /\ b <> c) /\
  (forall (xa xb xc : vec) k va vb vc,
     xa !! k = Some va -> xb !! k = Some vb -> xc !! k = Some vc ->
     Described.trial_vector (MODE.F self) xa xb xc !! k
     = Some (F64.add va (F64.mul (MODE.F self) (F64.sub vb vc)))) /\
  (forall j (x v rs : vec) k xk vk r,
     x !! k = Some xk -> v !! k = Some vk -> rs !! k = Some r ->
     Described.binomial_crossover (MODE.CR self) j 0 x v rs !! k
     = Some (if F64.ltb r (MODE.CR self) || bool_decide (k = j) then vk else xk)).
Proof.
  intros n d HX Hn Hd Hxl Hxu. split; [|split; [|split; [|split]]].
  - destruct (MODE_infill_refines self g HX Hn Hd)
      as (rows & g' & Hmap & Hrows & Hinf & Heq).
    exists rows, g'. split; [exact Hmap|]. split; [exact Hrows|]. split; [exact Hinf|].
    split; [|exact Heq]. by apply shape_np_clip.
  - intros X i g0 row g3. apply de_offspring_Ok.
  - intros g0 a b c g1. apply choose_donors_Ok.
  - intros xa xb xc k va vb vc Ha Hb Hc.
    unfold Described.trial_vector, vadd, vscale, vsub.
    rewrite lookup_zip_with, Ha. cbn.
    rewrite list_lookup_fmap, lookup_zip_with, Hb. cbn. rewrite Hc. reflexivity.
  - intros j x v rs k xk vk r Hx Hv Hr.
    rewrite lookup_binomial_crossover, Hx. cbn. rewrite Hv. cbn. rewrite Hr. reflexivity.
Qed.

End MODE_infill.

(** ** Clamping after variation *)

Section Clamping.
Context `{RandomState}.

Lemma clip_cases (raw lo hi : F64.float) :
  F64.leb lo hi = true ->
  (F64.is_nan raw = false -> F64.within lo hi (F64.clip raw lo hi) = true) /\
  (F64.is_nan raw = true -> F64.clip raw lo hi = F64.nan).
Proof.
  intros Hle. split.
  - intros Hraw. by apply F64_facts.clip_within.
  - destruct raw; try discriminate. reflexivity.
Qed.

Lemma MOPSO_velocity_shape (self : MOPSO.t) (r1 r2 : matrix) :
  let n := MOPSO.pop_size self in
  let d := Problem.n_var (MOPSO.problem self) in
  shape n d (Population.get_X (MOPSO.pop self)) ->
  shape n d (MOPSO.velocities self) ->
  shape n d (Population.get_X (MOPSO.pbest self)) ->
  length (Individual.X (MOPSO.gbest self)) = d ->
  shape n d r1 -> shape n d r2 ->
  shape n d
    (madd (madd (mscale (MOPSO.w self) (MOPSO.velocities self))
                (mmul (mscale (MOPSO.c1 self) r1)
                      (msub (Population.get_X (MOPSO.pbest self))
                            (Population.get_X (MOPSO.pop self)))))
          (mmul (mscale (MOPSO.c2 self) r2)
                (row_msub (Individual.X (MOPSO.gbest self))
                          (Population.get_X (MOPSO.pop self))))).
Proof.
  intros n d HX HV HP Hg Hr1 Hr2.
  unfold madd, mmul, msub, mscale, vadd, vmul, vsub, vscale.
  apply shape_zip_with; [apply shape_zip_with|].
  - by apply shape_fmap.
  - apply shape_zip_with; [by apply shape_fmap|by apply shape_zip_with].
  - apply shape_zip_with; [by apply shape_fmap|by apply shape_row_msub].
Qed.

(** C6, as the code has it.  With ordered bounds of [n_var] entries and
    arrays of the shape [(pop_size, n_var)], a variation step does not
    raise and every coordinate of every offspring is the clamp of the
    unclamped value into [[xl[k], xu[k]]]: for MOPSO the unclamped value
    is the old position plus the new velocity, for MODE it is the entry
    of the crossover row.  The coordinate lies within the bounds
    whenever the unclamped value is a number, and is NaN when the
    unclamped value is NaN. *)
Theorem variation_clamped (p : Problem.t) :
  length (Problem.xl p) = Problem.n_var p ->
  length (Problem.xu p) = Problem.n_var p ->
  Forall2 (fun lo hi => F64.leb lo hi = true) (Problem.xl p) (Problem.xu p) ->
  (forall (self : MOPSO.t) (g : rng),
     let n := MOPSO.pop_size self in
     let d := Problem.n_var p in
     MOPSO.problem self = p ->
     shape n d (Population.get_X (MOPSO.pop self)) ->
     shape n d (MOPSO.velocities self) ->
     shape n d (Population.get_X (MOPSO.pbest self)) ->
     length (Individual.X (MOPSO.gbest self)) = d ->
     exists r1 r2 g1 self' off g',
       random_matrix n d g = Ok (r1, g1) /\
       random_matrix n d g1 = Ok (r2, g') /\
       MOPSO._infill self g = Ok ((self', off), g') /\
       MOPSO.velocities self' =
         madd (madd (mscale (MOPSO.w self) (MOPSO.velocities self))
                    (mmul (mscale (MOPSO.c1 self) r1)
                          (msub (Population.get_X (MOPSO.pbest self))
                                (Population.get_X (MOPSO.pop self)))))
              (mmul (mscale (MOPSO.c2 self) r2)
                    (row_msub (Individual.X (MOPSO.gbest self))
                              (Population.get_X (MOPSO.pop self)))) /\
       shape n d (Population.get_X off) /\
       forall i k, i < n -> k < d ->
         exists position velocity lo hi,
           lookup2 (Population.get_X (MOPSO.pop self)) i k = Some position /\
           lookup2 (MOPSO.velocities self') i k = Some velocity /\
           Problem.xl p !! k = Some lo /\ Problem.xu p !! k = Some hi /\
           lookup2 (Population.get_X off) i k
             = Some (F64.clip (F64.add position velocity) lo hi) /\
           (F64.is_nan (F64.add position velocity) = false ->
            F64.within lo hi (F64.clip (F64.add position velocity) lo hi) = true) /\
           (F64.is_nan (F64.add position velocity) = true ->
            F64.clip (F64.add position velocity) lo hi = F64.nan)) /\
  (forall (self : MODE.t) (g : rng),
     let n := MODE.pop_size self in
     let d := Problem.n_var p in
     MODE.problem self = p ->
     shape n d (Population.get_X (MODE.pop self)) ->
     3 <= n -> 0 < d ->
     exists rows off g',
       mapM (Described.de_offspring self (Population.get_X (MODE.pop self))) (seq 0 n) g
         = Ok (rows, g') /\
       shape n d rows /\
       MODE._infill self g = Ok (off, g') /\
       shape n d (Population.get_X off) /\
       forall i k, i < n -> k < d ->
         exists raw lo hi,
           lookup2 rows i k = Some raw /\
           Problem.xl p !! k = Some lo /\ Problem.xu p !! k = Some hi /\
           lookup2 (Population.get_X off) i k = Some (F64.clip raw lo hi) /\
           (F64.is_nan raw = false -> F64.within lo hi (F64.clip raw lo hi) = true) /\
           (F64.is_nan raw = true -> F64.clip raw lo hi = F64.nan)).
Proof.
  intros Hxl Hxu Hbounds.
  assert (forall k, k < Problem.n_var p ->
            exists lo hi, Problem.xl p !! k = Some lo /\ Problem.xu p !! k = Some hi /\
                          F64.leb lo hi = true) as Hbound.
  { intros k Hk.
    destruct (lookup_lt_is_Some_2 (Problem.xl p) k) as [lo Hlo]; [lia|].
    destruct (Forall2_lookup_l _ _ _ _ _ Hbounds Hlo) as (hi & Hhi & Hle).
    by exists lo, hi. }
  split.
  - intros self g n d <- HX HV HP Hg.
    destruct (MOPSO_infill_steps self g)
      as (r1 & r2 & g1 & g2 & V' & Hr1 & Hr2 & Hs1 & Hs2 & _ & _ & HV' & Hinf).
    fold n d in Hr1, Hr2, Hs1, Hs2.
    pose proof (MOPSO_velocity_shape self r1 r2 HX HV HP Hg Hs1 Hs2) as HsV.
    rewrite <- HV' in HsV. fold n d in HsV.
    assert (shape n d (madd (Population.get_X (MOPSO.pop self)) V')) as Hsum
      by (unfold madd, vadd; by apply shape_zip_with).
    exists r1, r2, g1. eexists. eexists. exists g2.
    split; [exact Hr1|]. split; [exact Hr2|]. split; [exact Hinf|].
    cbn [MOPSO.velocities MOPSO.set_velocities]. split; [exact HV'|].
    rewrite get_X_new. split; [by apply shape_np_clip|].
    intros i k Hi Hk.
    destruct (shape_lookup2 n d _ i k HX Hi Hk) as [position Hpos].
    destruct (shape_lookup2 n d _ i k HsV Hi Hk) as [velocity Hvel].
    destruct (Hbound k Hk) as (lo & hi & Hlo & Hhi & Hle).
    exists position, velocity, lo, hi.
    split; [exact Hpos|]. split; [exact Hvel|]. split; [exact Hlo|]. split; [exact Hhi|].
    split; [|by apply clip_cases].
    rewrite lookup2_np_clip. unfold madd, vadd.
    rewrite lookup2_zip_with, Hpos. cbn. rewrite Hvel. cbn. rewrite Hlo. cbn.
    by rewrite Hhi.
  - intros self g n d <- HX Hn Hd.
    destruct (MODE_infill_refines self g HX Hn Hd) as (rows & g' & Hmap & Hrows & Hinf & _).
    fold n d in Hrows.
    exists rows. eexists. exists g'.
    split; [exact Hmap|]. split; [exact Hrows|]. split; [exact Hinf|].
    rewrite get_X_new. split; [by apply shape_np_clip|].
    intros i k Hi Hk.
    destruct (shape_lookup2 n d _ i k Hrows Hi Hk) as [raw Hraw].
    destruct (Hbound k Hk) as (lo & hi & Hlo & Hhi & Hle).
    exists raw, lo, hi.
    split; [exact Hraw|]. split; [exact Hlo|]. split; [exact Hhi|].
    split; [|by apply clip_cases].
    rewrite lookup2_np_clip, Hraw. cbn. rewrite Hlo. cbn. by rewrite Hhi.
Qed.

End Clamping.

(** ** Non-finite objective values *)

Section Non_finite.

Lemma all_inf_dominated (a b : Individual.t) :
  Individual.F a <> [] ->
  length (Individual.F a) = length (Individual.F b) ->
  Forall (fun x => F64.is_finite x = true) (Individual.F a) ->
  Forall (fun y => y = F64.inf) (Individual.F b) ->
  MOPSO.dominate a b = true.
Proof.
  intros Hne Hlen Hfin Hinf. apply dominate_spec. split.
  - intros k x y Hx Hy.
    rewrite (Forall_lookup_1 _ _ _ _ Hinf Hy).
    pose proof (Forall_lookup_1 _ _ _ _ Hfin Hx) as Hf. cbn in Hf.
    apply F64_facts.leb_inf. by destruct x.
  - destruct (Individual.F a) as [|x fa] eqn:Ea; [done|].
    destruct (Individual.F b) as [|y fb] eqn:Eb; [discriminate|].
    exists 0, x, y. repeat split.
    apply Forall_cons in Hinf as [-> _]. apply Forall_cons in Hfin as [Hf _].
    by apply F64_facts.ltb_finite_inf.
Qed.


End Non_finite.

(** ** Reproducible runs

    Every random number of a run comes out of the generator interface.
    The lemmas below follow the methods call by call and show that two
    runs whose generators deliver the same draws do the same thing. *)

Section Same_draws.
Variables R1 R2 : RandomState.
Variable sim : @rng R1 -> @rng R2 -> Prop.
Hypothesis Hsame : same_draws R1 R2 sim.

Lemma agree_without_rng {A} (r1 : result (A * @rng R1)) (r2 : result (A * @rng R2)) :
  agree sim r1 r2 -> without_rng r1 = without_rng r2.
Proof.
  destruct r1 as [[a1 g1]|e1], r2 as [[a2 g2]|e2]; cbn; try done.
  - by intros [-> _].
  - by intros ->.
Qed.

Lemma agreeM_ret {A} (a : A) : agreeM sim (@M_ret R1 A a) (@M_ret R2 A a).
Proof. intros g1 g2 Hg. by split. Qed.

Lemma agreeM_raise {A} (e : exn) : agreeM sim (@raise R1 A e) (@raise R2 A e).
Proof. by intros g1 g2 Hg. Qed.

Lemma agreeM_bind {A B} (m1 : @M R1 A) (m2 : @M R2 A) (f1 : A -> @M R1 B)
    (f2 : A -> @M R2 B) :
  agreeM sim m1 m2 -> (forall a, agreeM sim (f1 a) (f2 a)) ->
  agreeM sim (@M_bind R1 A B f1 m1) (@M_bind R2 A B f2 m2).
Proof.
  intros Hm Hf g1 g2 Hg. specialize (Hm g1 g2 Hg). unfold M_bind.
  destruct (m1 g1) as [[a1 g1']|e1], (m2 g2) as [[a2 g2']|e2]; cbn in Hm; try done.
  destruct Hm as [-> Hg']. by apply Hf.
Qed.

Lemma agreeM_getitem {A} (l : list A) (i : nat) :
  agreeM sim (@getitem R1 A l i) (@getitem R2 A l i).
Proof.
  unfold getitem. destruct (l !! i); [apply agreeM_ret | apply agreeM_raise].
Qed.

Lemma agreeM_setitem {A} (l : list A) (i : nat) (x : A) :
  agreeM sim (@setitem R1 A l i x) (@setitem R2 A l i x).
Proof.
  unfold setitem. destruct (decide (i < length l)); [apply agreeM_ret | apply agreeM_raise].
Qed.

Lemma agreeM_for_in {A} (body1 : nat -> A -> @M R1 A) (body2 : nat -> A -> @M R2 A)
    (idxs : list nat) :
  (forall i acc, agreeM sim (body1 i acc) (body2 i acc)) ->
  forall acc, agreeM sim (for_in idxs body1 acc) (for_in idxs body2 acc).
Proof.
  intros Hbody. induction idxs as [|i idxs IH]; intros acc; cbn [for_in].
  - apply agreeM_ret.
  - apply agreeM_bind; [apply Hbody | exact IH].
Qed.

Lemma agreeM_mapM {A B} (f1 : A -> @M R1 B) (f2 : A -> @M R2 B) (l : list A) :
  (forall a, agreeM sim (f1 a) (f2 a)) ->
  agreeM sim (mapM f1 l) (mapM f2 l).
Proof.
  intros Hf. induction l as [|a l IH]; cbn [mapM].
  - apply agreeM_ret.
  - apply agreeM_bind; [apply Hf|]. intros b.
    apply agreeM_bind; [exact IH|]. intros bs. apply agreeM_ret.
Qed.

(** *** The draws *)

Lemma agreeM_random : agreeM sim (@np_random_random R1) (@np_random_random R2).
Proof using Hsame.
  destruct Hsame as (_ & Hsample & _). intros g1 g2 Hg. unfold np_random_random.
  destruct (Hsample g1 g2 Hg) as [Hv Hg'].
  destruct (@random_sample R1 g1), (@random_sample R2 g2). by split.
Qed.

Lemma agreeM_randint (n : nat) :
  agreeM sim (@np_random_randint R1 n) (@np_random_randint R2 n).
Proof using Hsame.
  destruct Hsame as (_ & _ & Hint & _). unfold np_random_randint.
  destruct (decide (0 < n)) as [Hn|Hn]; [|apply agreeM_raise].
  intros g1 g2 Hg. destruct (Hint n g1 g2 Hn Hg) as [Hv Hg'].
  destruct (@randint R1 n g1), (@randint R2 n g2). by split.
Qed.

Lemma agreeM_choice (a : list nat) (size : nat) :
  agreeM sim (@np_random_choice R1 a size) (@np_random_choice R2 a size).
Proof using Hsame.
  destruct Hsame as (_ & _ & _ & Hperm). unfold np_random_choice.
  destruct (decide (size <= length a)); [|apply agreeM_raise].
  intros g1 g2 Hg. destruct (Hperm (length a) g1 g2 Hg) as [Hv Hg'].
  destruct (@permutation R1 (length a) g1), (@permutation R2 (length a) g2).
  cbn in Hv, Hg'. subst. by split.
Qed.

Lemma agreeM_random_vector (n : nat) :
  agreeM sim (@random_vector R1 n) (@random_vector R2 n).
Proof using Hsame.
  induction n as [|n IH]; cbn [random_vector].
  - apply agreeM_ret.
  - apply agreeM_bind; [apply agreeM_random|]. intros r.
    apply agreeM_bind; [exact IH|]. intros rs. apply agreeM_ret.
Qed.

Lemma agreeM_random_matrix (rows cols : nat) :
  agreeM sim (@random_matrix R1 rows cols) (@random_matrix R2 rows cols).
Proof using Hsame.
  induction rows as [|rows IH]; cbn [random_matrix].
  - apply agreeM_ret.
  - apply agreeM_bind; [apply agreeM_random_vector|]. intros r.
    apply agreeM_bind; [exact IH|]. intros rs. apply agreeM_ret.
Qed.

Lemma agreeM_uniform (low high : vec) (rows cols : nat) :
  agreeM sim (@np_random_uniform R1 low high rows cols)
             (@np_random_uniform R2 low high rows cols).
Proof using Hsame.
  unfold np_random_uniform.
  destruct (decide _); [|apply agreeM_raise].
  destruct (forallb _ _); [|apply agreeM_raise].
  apply agreeM_bind; [apply agreeM_random_matrix|]. intros us. apply agreeM_ret.
Qed.


(** *** The methods *)

Ltac agree_steps lemmas :=
  repeat first
    [ apply agreeM_ret | apply agreeM_raise | apply agreeM_getitem | apply agreeM_setitem
    | lemmas
    | apply agreeM_bind; [|intros ?]
    | apply agreeM_for_in; intros ? ?
    | apply agreeM_mapM; intros ?
    | match goal with
      | |- agreeM _ (if ?c then _ else _) _ => destruct c
      | |- agreeM _ (match ?x with _ => _ end) _ => destruct x
      end ].

Ltac agree_draws :=
  first [ apply agreeM_random | apply agreeM_randint | apply agreeM_choice
        | apply agreeM_random_vector | apply agreeM_random_matrix | apply agreeM_uniform ].

Lemma agreeM_MOPSO_initialize_infill (self : MOPSO.t) :
  agreeM sim (@MOPSO._initialize_infill R1 self) (@MOPSO._initialize_infill R2 self).
Proof using Hsame. unfold MOPSO._initialize_infill. agree_steps agree_draws. Qed.

Lemma agreeM_MOPSO_initialize_advance (self : MOPSO.t) (infills : Population.t) :
  agreeM sim (@MOPSO._initialize_advance R1 self infills)
             (@MOPSO._initialize_advance R2 self infills).
Proof using Hsame. unfold MOPSO._initialize_advance. agree_steps agree_draws. Qed.

Lemma agreeM_MOPSO_infill (self : MOPSO.t) :
  agreeM sim (@MOPSO._infill R1 self) (@MOPSO._infill R2 self).
Proof using Hsame. unfold MOPSO._infill. agree_steps agree_draws. Qed.

Lemma agreeM_MOPSO_advance (self : MOPSO.t) (infills : Population.t) :
  agreeM sim (@MOPSO._advance R1 self infills) (@MOPSO._advance R2 self infills).
Proof using Hsame.
  unfold MOPSO._advance, MOPSO.non_dominated, MOPSO.update_pbest, for_range.
  agree_steps agree_draws.
Qed.

Lemma agreeM_MODE_initialize_infill (self : MODE.t) :
  agreeM sim (@MODE._initialize_infill R1 self) (@MODE._initialize_infill R2 self).
Proof using Hsame. unfold MODE._initialize_infill. agree_steps agree_draws. Qed.

Lemma agreeM_MODE_infill (self : MODE.t) :
  agreeM sim (@MODE._infill R1 self) (@MODE._infill R2 self).
Proof using Hsame.
  unfold MODE._infill, MODE.mutate, MODE.choose_donors, MODE.crossover, MODE.setitem2,
    MODE.getitem2, for_range.
  agree_steps agree_draws.
Qed.

Lemma agreeM_select_fronts (pop_size : nat) (fronts : list (list nat)) :
  forall next_pop,
  agreeM sim (@MODE.select_fronts R1 pop_size fronts next_pop)
             (@MODE.select_fronts R2 pop_size fronts next_pop).
Proof using Hsame.
  induction fronts as [|front fronts IH]; intros next_pop; cbn [MODE.select_fronts].
  - apply agreeM_ret.
  - destruct (decide _); [apply IH|]. agree_steps agree_draws.
Qed.

Lemma agreeM_MODE_advance (self : MODE.t) (infills : Population.t) :
  agreeM sim (@MODE._advance R1 self infills) (@MODE._advance R2 self infills).
Proof using Hsame.
  unfold MODE._advance. agree_steps ltac:(apply agreeM_select_fronts).
Qed.

(** *** The driver *)

Lemma agreeM_MOPSO_next (algorithm : MOPSO.t) :
  agreeM sim (@Driver.next R1 MOPSO.t (@MOPSO_Algorithm R1) algorithm)
             (@Driver.next R2 MOPSO.t (@MOPSO_Algorithm R2) algorithm).
Proof using Hsame.
  unfold Driver.next. cbn [infill advance get_problem MOPSO_Algorithm].
  agree_steps ltac:(first [apply agreeM_MOPSO_infill | apply agreeM_MOPSO_advance]).
Qed.

Lemma agreeM_MODE_next (algorithm : MODE.t) :
  agreeM sim (@Driver.next R1 MODE.t (@MODE_Algorithm R1) algorithm)
             (@Driver.next R2 MODE.t (@MODE_Algorithm R2) algorithm).
Proof using Hsame.
  unfold Driver.next. cbn [infill advance get_problem MODE_Algorithm].
  agree_steps ltac:(first [apply agreeM_MODE_infill | apply agreeM_MODE_advance]).
Qed.

Lemma agreeM_MOPSO_generations (n : nat) : forall algorithm : MOPSO.t,
  agreeM sim (@Driver.generations R1 MOPSO.t (@MOPSO_Algorithm R1) n algorithm)
             (@Driver.generations R2 MOPSO.t (@MOPSO_Algorithm R2) n algorithm).
Proof using Hsame.
  induction n as [|n IH]; intros algorithm; cbn [Driver.generations].
  - apply agreeM_ret.
  - apply agreeM_bind; [apply agreeM_MOPSO_next | exact IH].
Qed.

Lemma agreeM_MODE_generations (n : nat) : forall algorithm : MODE.t,
  agreeM sim (@Driver.generations R1 MODE.t (@MODE_Algorithm R1) n algorithm)
             (@Driver.generations R2 MODE.t (@MODE_Algorithm R2) n algorithm).
Proof using Hsame.
  induction n as [|n IH]; intros algorithm; cbn [Driver.generations].
  - apply agreeM_ret.
  - apply agreeM_bind; [apply agreeM_MODE_next | exact IH].
Qed.

Lemma agreeM_MOPSO_initialize (algorithm : MOPSO.t) :
  agreeM sim (@Driver.initialize R1 MOPSO.t (@MOPSO_Algorithm R1) algorithm)
             (@Driver.initialize R2 MOPSO.t (@MOPSO_Algorithm R2) algorithm).
Proof using Hsame.
  unfold Driver.initialize.
  cbn [initialize_infill initialize_advance get_problem MOPSO_Algorithm].
  agree_steps ltac:(first [apply agreeM_MOPSO_initialize_infill
                          | apply agreeM_MOPSO_initialize_advance]).
Qed.

Lemma agreeM_MODE_initialize (algorithm : MODE.t) :
  agreeM sim (@Driver.initialize R1 MODE.t (@MODE_Algorithm R1) algorithm)
             (@Driver.initialize R2 MODE.t (@MODE_Algorithm R2) algorithm).
Proof using Hsame.
  unfold Driver.initialize.
  cbn [initialize_infill initialize_advance get_problem MODE_Algorithm].
  agree_steps ltac:(apply agreeM_MODE_initialize_infill).
Qed.


End Same_draws.

(** * The properties at concrete inputs *)

Section Concrete.
Import Scenario.

Lemma MOPSO_infill_witness :
  exists self' off g2,
    MOPSO._infill (H := CounterRng.counter_rng) swarm1 (0 : nat) = Ok ((self', off), g2) /\
    shape 2 1 (MOPSO.velocities self') /\
    shape 2 1 (Population.get_X off).
Proof.
  destruct (MOPSO_infill_spec (H := CounterRng.counter_rng) swarm1 (0 : nat))
    as (r1 & r2 & g1 & g2 & self' & off & _ & _ & Hinf & _ & _ & _ & _ & _ & Hv & Hx & _).
  - split; [reflexivity | repeat constructor].
  - split; [reflexivity | repeat constructor].
  - split; [reflexivity | repeat constructor].
  - reflexivity.
  - reflexivity.
  - reflexivity.
  - exists self', off, g2. auto.
Defined.

Lemma MOPSO_advance_gbest_witness :
  exists self' g' gb,
    MOPSO._advance (H := CounterRng.counter_rng) swarm1 infills1 (0 : nat) = Ok (self', g') /\
    MOPSO.gbest self' = gb /\
    gb ∈ MOPSO.pbest self' /\
    forall p, p ∈ MOPSO.pbest self' -> MOPSO.dominate p gb = false.
Proof.
  destruct (MOPSO_advance_gbest (H := CounterRng.counter_rng) swarm1 infills1 (0 : nat) 2)
    as (pbest' & front & j & i & g' & gb & self' & _ & _ & _ & _ & _ & Hi & Hnd & Hadv & Hp & Hg).
  - cbn. lia.
  - reflexivity.
  - reflexivity.
  - repeat constructor.
  - repeat constructor.
  - exists self', g', gb. rewrite Hp. repeat split; try assumption.
    apply list_elem_of_lookup. eauto.
Defined.

Lemma MODE_advance_size_witness :
  exists self' g',
    MODE._advance (H := CounterRng.counter_rng) de_sel infills_dom (0 : nat) = Ok (self', g') /\
    length (MODE.pop self') = 4.
Proof.
  destruct (MODE_advance_size (H := CounterRng.counter_rng) de_sel infills_dom (0 : nat) 2)
    as (m & selected & g' & self' & Hadv & Hlen & _).
  - repeat constructor.
  - cbn. lia.
  - exists self', g'. auto.
Defined.

Lemma MODE_advance_underfilled_witness :
  exists pop',
    MODE._advance (H := CounterRng.counter_rng) de_sel [] (0 : nat)
      = Ok (MODE.set_pop de_sel pop', (0 : nat)) /\
    pop' ≡ₚ MODE.pop de_sel ++ [].
Proof.
  destruct (MODE_advance_underfilled (H := CounterRng.counter_rng) de_sel [] (0 : nat) 2)
    as (pop' & Hadv & Hperm & _).
  - repeat constructor.
  - cbn. lia.
  - exists pop'. auto.
Defined.

Lemma MODE_infill_witness :
  exists off g',
    MODE._infill (H := CounterRng.counter_rng) de_var (0 : nat) = Ok (off, g') /\
    Described.de_infill (H := CounterRng.counter_rng) de_var (0 : nat) = Ok (off, g') /\
    length off = 3.
Proof.
  destruct (MODE_infill_spec (H := CounterRng.counter_rng) de_var (0 : nat))
    as [(rows & g' & _ & [Hlen _] & Hinf & _ & Heq) _].
  - split; [reflexivity | repeat constructor].
  - cbn. lia.
  - cbn. lia.
  - reflexivity.
  - reflexivity.
  - eexists. exists g'. split; [exact Hinf|]. split; [by rewrite Heq|].
    unfold Population.new, np_clip. rewrite !length_fmap. exact Hlen.
Defined.

Lemma variation_clamped_witness :
  exists self' off g',
    MOPSO._infill (H := CounterRng.counter_rng) swarm1 (0 : nat) = Ok ((self', off), g') /\
    forall i k, i < 2 -> k < 1 ->
      exists position velocity lo hi,
        lookup2 (Population.get_X (MOPSO.pop swarm1)) i k = Some position /\
        lookup2 (MOPSO.velocities self') i k = Some velocity /\
        Problem.xl line !! k = Some lo /\ Problem.xu line !! k = Some hi /\
        lookup2 (Population.get_X off) i k
          = Some (F64.clip (F64.add position velocity) lo hi) /\
        (F64.is_nan (F64.add position velocity) = false ->
         F64.within lo hi (F64.clip (F64.add position velocity) lo hi) = true) /\
        (F64.is_nan (F64.add position velocity) = true ->
         F64.clip (F64.add position velocity) lo hi = F64.nan).
Proof.
  destruct (variation_clamped (H := CounterRng.counter_rng) line) as [Hpso _].
  - reflexivity.
  - reflexivity.
  - repeat constructor.
  - destruct (Hpso swarm1 (0 : nat) eq_refl)
      as (r1 & r2 & g1 & self' & off & g' & _ & _ & Hinf & _ & _ & Hall).
    + split; [reflexivity | repeat constructor].
    + split; [reflexivity | repeat constructor].
    + split; [reflexivity | repeat constructor].
    + reflexivity.
    + exists self', off, g'. split; [exact Hinf | exact Hall].
Defined.


(** The counter and the tagged counter deliver the same draws. *)
Lemma tagged_same_draws :
  same_draws CounterRng.counter_rng TaggedRng.tagged_rng (fun g1 g2 => g1 = g2.1).
Proof.
  split; [|split; [|split]].
  - intros s. reflexivity.
  - intros g1 g2 ->. by split.
  - intros n g1 g2 _ ->. by split.
  - intros n g1 g2 ->. by split.
Qed.


(** The state [swarm_gen1] is what initialisation and one generation
    from seed 2 produce. *)
Example run_reaches_swarm_gen1 :
  (_ ← np_random_seed (H := CounterRng.counter_rng) 2;
   algorithm ← Driver.initialize (H := CounterRng.counter_rng)
                 (setup (H := CounterRng.counter_rng) line swarm_huge);
   Driver.generations (H := CounterRng.counter_rng) 1 algorithm) (0 : nat)
  = Ok (swarm_gen1, (13 : nat)).
Proof. vm_compute. reflexivity. Qed.

(** C6 fails for NaN.  In [swarm_gen1] the second member has position
    -5, velocity [-inf], personal best 2.5; its draw is 0.5.  The inertia
    term is [-inf], the pull [2^1023 * 0.5 * 7.5] overflows to [+inf],
    their sum is NaN, and [np.clip] returns NaN, which is not within
    [[-5, 5]]. *)
Lemma variation_nan_counterexample :
  Forall2 (fun lo hi => F64.leb lo hi = true)
          (Problem.xl (MOPSO.problem swarm_gen1))
          (Problem.xu (MOPSO.problem swarm_gen1)) /\
  (exists self' off g',
     MOPSO._infill (H := CounterRng.counter_rng) swarm_gen1 (13 : nat)
       = Ok ((self', off), g') /\
     Population.get_X off = [[fl (-5)]; [F64.nan]; [fl 5]]) /\
  F64.within (fl (-5)) (fl 5) F64.nan = false.
Proof.
  split; [repeat constructor|]. split; [|reflexivity].
  destruct (MOPSO_infill_steps (H := CounterRng.counter_rng) swarm_gen1 (13 : nat))
    as (r1 & r2 & g1 & g2 & V' & Hr1 & Hr2 & _ & _ & _ & _ & HV' & Hinf).
  vm_compute in Hr1. injection Hr1 as <- <-.
  vm_compute in Hr2. injection Hr2 as <- <-.
  eexists. eexists. eexists. split; [exact Hinf|].
  rewrite get_X_new, HV'. vm_compute. reflexivity.
Qed.

(** The whole run of three generations from seed 2 ends with that NaN
    coordinate in the population. *)
Example run_reaches_nan :
  exists pop g',
    Driver.minimize (H := CounterRng.counter_rng) line swarm_huge 3 2 (0 : nat)
      = Ok (pop, g') /\
    Population.get_X pop = [[fl (-5)]; [F64.nan]; [fl 5]].
Proof.
  eexists. eexists. split; [vm_compute; reflexivity | reflexivity].
Qed.

(** C7 fails on the signal.  With target size 4, a pool of three is
    underfilled and a pool of six is not; both calls return [None] and
    both leave an object that differs from the old one in [pop] only. *)
Lemma underfilled_unsignalled_counterexample :
  length (Population.merge (MODE.pop de_sel) []) < MODE.pop_size de_sel /\
  MODE.pop_size de_sel <= length (Population.merge (MODE.pop de_sel) infills_dom) /\
  outcome_of (MODE._advance (H := CounterRng.counter_rng) de_sel [] (0 : nat))
  = outcome_of (MODE._advance (H := CounterRng.counter_rng) de_sel infills_dom (0 : nat)) /\
  MODE._advance (H := CounterRng.counter_rng) de_sel [] (0 : nat)
  = Ok (MODE.set_pop de_sel [ind 0 0 2; ind 1 1 1; ind 2 2 0], (0 : nat)) /\
  MODE._advance (H := CounterRng.counter_rng) de_sel infills_dom (0 : nat)
  = Ok (MODE.set_pop de_sel [ind 0 0 2; ind 1 1 1; ind 2 2 0; ind 3 3 5], (1 : nat)).
Proof.
  split; [cbn; lia|]. split; [cbn; lia|].
  split; [vm_compute; reflexivity|]. split; vm_compute; reflexivity.
Qed.


(** The donor draw does not avoid the target: for target 0, from the
    fresh generator, the first donor is index 0 itself. *)
Example donors_may_include_target :
  MODE.choose_donors (H := CounterRng.counter_rng) de_var (0 : nat) = Ok ((0, 1, 2), (1 : nat)).
Proof. reflexivity. Qed.

(** The selection scenario of the specification: of six candidates,
    three non-dominated and three dominated, with target size 4, all of
    the first front and exactly one of the others survive. *)
Example selection_scenario :
  NonDominatedSorting.do (Population.get_F (MODE.pop de_sel ++ infills_dom))
  = [[0; 1; 2]; [3; 4; 5]] /\
  MODE.select_fronts (H := CounterRng.counter_rng) 4 [[0; 1; 2]; [3; 4; 5]] [] (0 : nat)
  = Ok ([0; 1; 2; 3], (1 : nat)).
Proof. split; vm_compute; reflexivity. Qed.

End Concrete.

(** * Further properties of the notebook's code *)

(** ** Minimal elements of a strict order on a list *)

Section Strict_order.
Context {A : Type} (R : A -> A -> bool).

Lemma exists_minimal (l : list A) :
  (forall x, x ∈ l -> R x x = false) ->
  (forall x y z, x ∈ l -> y ∈ l -> z ∈ l ->
     R x y = true -> R y z = true -> R x z = true) ->
  l <> [] ->
  exists m, m ∈ l /\ forall y, y ∈ l -> R y m = false.
Proof.
  induction l as [|x l IH]; intros Hirr Htr Hne; [done|].
  destruct l as [|x' l'].
  - exists x. split; [by left|]. intros y ->%list_elem_of_singleton. apply Hirr. by left.
  - destruct IH as (m & Hm & Hmin); [| |done|].
    { intros y Hy. apply Hirr. by right. }
    { intros a b c Ha Hb Hc. apply Htr; by right. }
    destruct (R x m) eqn:Hxm.
    + exists x. split; [by left|]. intros y [->|Hy]%elem_of_cons.
      * apply Hirr. by left.
      * apply not_true_iff_false. intros Hyx.
        assert (R y m = true) as Hym
          by (apply (Htr y x m); [by right | by left | by right | done | done]).
        rewrite (Hmin y Hy) in Hym. discriminate.
    + exists m. split; [by right|]. intros y [->|Hy]%elem_of_cons; [exact Hxm | by apply Hmin].
Qed.

Lemma minimal_below (l : list A) (x : A) :
  (forall x, x ∈ l -> R x x = false) ->
  (forall x y z, x ∈ l -> y ∈ l -> z ∈ l ->
     R x y = true -> R y z = true -> R x z = true) ->
  x ∈ l ->
  (exists y, y ∈ l /\ R y x = true) ->
  exists m, m ∈ l /\ R m x = true /\ forall y, y ∈ l -> R y m = false.
Proof.
  intros Hirr Htr Hx (y0 & Hy0 & Hy0x).
  destruct (exists_minimal (filter (fun y => R y x = true) l)) as (m & Hm & Hmin).
  - intros y [_ Hy]%list_elem_of_filter. by apply Hirr.
  - intros a b c [_ Ha]%list_elem_of_filter [_ Hb]%list_elem_of_filter
      [_ Hc]%list_elem_of_filter. by apply Htr.
  - intros E. assert (y0 ∈ filter (fun y => R y x = true) l) as Hin
      by (by apply list_elem_of_filter).
    rewrite E in Hin. by apply elem_of_nil in Hin.
  - apply list_elem_of_filter in Hm as [Hmx Hm].
    exists m. split; [exact Hm|]. split; [exact Hmx|].
    intros y Hy. apply not_true_iff_false. intros Hym.
    assert (R y x = true) as Hyx by (by apply (Htr y m x)).
    assert (y ∈ filter (fun y => R y x = true) l) as Hin
      by (by apply list_elem_of_filter).
    rewrite (Hmin y Hin) in Hym. discriminate.
Qed.

End Strict_order.

(** ** [MOPSO.dominate] is a strict order *)

Section Dominate_order.

Lemma dominate_asym (a b : Individual.t) :
  MOPSO.dominate a b = true -> MOPSO.dominate b a = false.
Proof.
  intros [_ (k & x & y & Hx & Hy & Hlt)]%dominate_spec.
  apply not_true_iff_false. intros [Hle _]%dominate_spec.
  specialize (Hle k y x Hy Hx).
  pose proof (F64_facts.ltb_leb_trans _ _ _ Hlt Hle) as Hxx.
  rewrite F64_facts.ltb_irrefl in Hxx. discriminate.
Qed.

(** X1. Domination as [MOPSO.dominate] computes it is a strict partial
    order on candidates with objective vectors of one length: if [a]
    dominates [b] and [b] dominates [c] then [a] dominates [c], [b] does
    not dominate [a], and candidates with equal objective vectors do not
    dominate each other. *)
Theorem dominate_strict_order (a b c : Individual.t) :
  length (Individual.F a) = length (Individual.F b) ->
  length (Individual.F b) = length (Individual.F c) ->
  MOPSO.dominate a b = true ->
  MOPSO.dominate b a = false /\
  MOPSO.dominate a a = false /\
  (Individual.F c = Individual.F b -> MOPSO.dominate b c = false /\ MOPSO.dominate c b = false) /\
  (MOPSO.dominate b c = true -> MOPSO.dominate a c = true).
Proof.
  intros Hab Hbc Hd. split; [by apply dominate_asym|]. split; [apply dominate_irrefl|].
  split.
  - intros E. unfold MOPSO.dominate. rewrite E.
    split; apply (dominate_irrefl b).
  - intros Hd'. by apply (dominate_trans a b c).
Qed.

End Dominate_order.

(** Three candidates on a chain: the first dominates the second, the
    second the third. *)
Lemma dominate_strict_order_witness :
  MOPSO.dominate (Scenario.ind 0 1 1) (Scenario.ind 0 0 0) = false /\
  MOPSO.dominate (Scenario.ind 0 0 0) (Scenario.ind 0 2 2) = true.
Proof.
  destruct (dominate_strict_order (Scenario.ind 0 0 0) (Scenario.ind 0 1 1)
              (Scenario.ind 0 2 2) eq_refl eq_refl eq_refl)
    as (Hasym & _ & _ & Htrans).
  split; [exact Hasym | apply Htrans; reflexivity].
Defined.

(** ** The non-dominated members of a population *)

Section Optimum.
Context `{RandomState}.

Lemma Forall2_lookup_elem_of {A} (l : list A) (idxs : list nat) (sel : list A) (a : A) :
  Forall2 (fun i x => l !! i = Some x) idxs sel ->
  a ∈ sel <-> exists i, i ∈ idxs /\ l !! i = Some a.
Proof.
  intros HF. split.
  - intros [k Hk]%list_elem_of_lookup.
    destruct (Forall2_lookup_r _ _ _ _ _ HF Hk) as (i & Hi & Hl).
    exists i. split; [by eapply list_elem_of_lookup_2 | exact Hl].
  - intros (i & [k Hk]%list_elem_of_lookup & Hl).
    destruct (Forall2_lookup_l _ _ _ _ _ HF Hk) as (x & Hx & Hl').
    rewrite Hl in Hl'. injection Hl' as <-. by eapply list_elem_of_lookup_2.
Qed.

Lemma non_dominated_members (pop : Population.t) (g : rng) :
  exists nd,
    MOPSO.non_dominated pop g = Ok (nd, g) /\
    forall p, p ∈ nd <->
              p ∈ pop /\ forall q, q ∈ pop -> MOPSO.dominate q p = false.
Proof.
  destruct (non_dominated_Ok pop g) as (nd & Hnd & HF).
  exists nd. split; [exact Hnd|]. intros p.
  rewrite (Forall2_lookup_elem_of _ _ _ p HF). split.
  - intros (i & [Hi Hdom]%NDS_facts.elem_of_first_front & Hp).
    split; [by eapply list_elem_of_lookup_2|].
    intros q [j Hj]%list_elem_of_lookup.
    rewrite <- dominates_dominate.
    apply (proj1 (NDS_facts.dominated_in_false _ _ _) Hdom _ j).
    + unfold Population.get_F. by rewrite list_lookup_fmap, Hp.
    + apply elem_of_seq. apply lookup_lt_Some in Hj.
      unfold Population.get_F. rewrite length_fmap. lia.
    + unfold Population.get_F. by rewrite list_lookup_fmap, Hj.
  - intros [[i Hi]%list_elem_of_lookup Hmin]. exists i. split; [|exact Hi].
    apply NDS_facts.elem_of_first_front.
    unfold Population.get_F. rewrite length_fmap.
    split; [by eapply lookup_lt_Some|].
    apply NDS_facts.dominated_in_false. intros fi j fj Hfi _ Hfj.
    rewrite list_lookup_fmap in Hfi, Hfj.
    rewrite Hi in Hfi. injection Hfi as <-.
    destruct (pop !! j) as [q|] eqn:Hq; [|discriminate]. injection Hfj as <-.
    rewrite dominates_dominate. apply Hmin. by eapply list_elem_of_lookup_2.
Qed.

Lemma non_dominated_covers (pop : Population.t) (m : nat) (p : Individual.t) :
  Forall (fun p => length (Individual.F p) = m) pop ->
  p ∈ pop ->
  (forall q, q ∈ pop -> MOPSO.dominate q p = false) \/
  exists q, q ∈ pop /\ MOPSO.dominate q p = true /\
            forall r, r ∈ pop -> MOPSO.dominate r q = false.
Proof.
  intros HF Hp.
  destruct (existsb (fun q => MOPSO.dominate q p) pop) eqn:Hex.
  - right. apply existsb_exists in Hex as (q0 & Hq0 & Hd). apply list_elem_of_In in Hq0.
    apply (minimal_below MOPSO.dominate pop p); [| |exact Hp|by exists q0].
    + intros x _. apply dominate_irrefl.
    + intros x y z Hx Hy Hz. apply dominate_trans.
      * by rewrite (proj1 (Forall_forall _ _) HF x Hx), (proj1 (Forall_forall _ _) HF y Hy).
      * by rewrite (proj1 (Forall_forall _ _) HF y Hy), (proj1 (Forall_forall _ _) HF z Hz).
  - left. intros q Hq. apply not_true_iff_false. intros Hd.
    assert (existsb (fun q => MOPSO.dominate q p) pop = true) as Hex'.
    { apply existsb_exists. exists q. split; [by apply list_elem_of_In|exact Hd]. }
    rewrite Hex in Hex'. discriminate.
Qed.

Lemma non_dominated_spec (pop : Population.t) (m : nat) (g : rng) :
  Forall (fun p => length (Individual.F p) = m) pop ->
  exists nd,
    MOPSO.non_dominated pop g = Ok (nd, g) /\
    (forall p, p ∈ nd <->
               p ∈ pop /\ forall q, q ∈ pop -> MOPSO.dominate q p = false) /\
    (forall p, p ∈ pop -> p ∈ nd \/ exists q, q ∈ nd /\ MOPSO.dominate q p = true) /\
    (pop <> [] -> nd <> []).
Proof.
  intros HF. destruct (non_dominated_members pop g) as (nd & Hnd & Hmem).
  exists nd. split; [exact Hnd|]. split; [exact Hmem|].
  assert (forall p, p ∈ pop -> p ∈ nd \/ exists q, q ∈ nd /\ MOPSO.dominate q p = true)
    as Hcov.
  { intros p Hp.
    destruct (non_dominated_covers pop m p HF Hp) as [Hmin | (q & Hq & Hd & Hmin)].
    - left. apply Hmem. by split.
    - right. exists q. split; [|exact Hd]. apply Hmem. by split. }
  split; [exact Hcov|].
  intros Hne Hnil. destruct pop as [|p pop]; [done|].
  destruct (Hcov p) as [Hin | (q & Hin & _)]; [by left| |];
    rewrite Hnil in Hin; by apply elem_of_nil in Hin.
Qed.


End Optimum.


(** ** Shapes are kept from one generation to the next *)

Section Consistency.
Context `{RandomState}.

Lemma well_formed_n_obj (p : Problem.t) (ind : Individual.t) :
  well_formed p -> evaluated p ind ->
  length (Individual.F ind) = Problem.n_obj p.
Proof. intros (_ & _ & _ & Hev) [HX ->]. by apply Hev. Qed.

Lemma evaluated_shape (p : Problem.t) (pop : Population.t) (n : nat) :
  length pop = n -> Forall (evaluated p) pop ->
  shape n (Problem.n_var p) (Population.get_X pop).
Proof.
  intros Hlen HF. split.
  - unfold Population.get_X. by rewrite length_fmap.
  - unfold Population.get_X. apply Forall_fmap.
    eapply Forall_impl; [exact HF|]. by intros ind [HX _].
Qed.

Lemma evaluated_n_obj (p : Problem.t) (pop : Population.t) :
  well_formed p -> Forall (evaluated p) pop ->
  Forall (fun ind => length (Individual.F ind) = Problem.n_obj p) pop.
Proof.
  intros Hwf HF. eapply Forall_impl; [exact HF|].
  intros ind. by apply well_formed_n_obj.
Qed.

Lemma evaluate_new (p : Problem.t) (n : nat) (X : matrix) :
  shape n (Problem.n_var p) X ->
  length (Population.evaluate p (Population.new X)) = n /\
  Forall (evaluated p) (Population.evaluate p (Population.new X)).
Proof.
  intros [Hlen HF]. unfold Population.evaluate, Population.new. split.
  - by rewrite !length_fmap.
  - apply Forall_fmap, Forall_fmap.
    eapply Forall_impl; [exact HF|]. intros x Hx. by split.
Qed.

Lemma length_uniform_row (low high us : vec) (d : nat) :
  length low = d -> length high = d -> length us = d ->
  length (uniform_row low high us) = d.
Proof.
  intros Hl Hh Hu. unfold uniform_row.
  rewrite length_zip_with, length_zip. lia.
Qed.

Lemma np_random_uniform_total (p : Problem.t) (rows : nat) (g : rng) :
  well_formed p ->
  exists X g',
    np_random_uniform (Problem.xl p) (Problem.xu p) rows (Problem.n_var p) g
      = Ok (X, g') /\
    shape rows (Problem.n_var p) X.
Proof.
  intros (Hxl & Hxu & Hfin & _). unfold np_random_uniform.
  rewrite decide_True by done. rewrite Hfin.
  destruct (random_matrix_total rows (Problem.n_var p) g) as (us & g' & Hus & [Hl HF] & _).
  exists (uniform_row (Problem.xl p) (Problem.xu p) <$> us), g'.
  split.
  - by rewrite (bind_step _ _ _ us g').
  - split; [by rewrite length_fmap|].
    apply Forall_fmap. eapply Forall_impl; [exact HF|].
    intros u Hu. by apply length_uniform_row.
Qed.

(** *** Particle swarm *)

Lemma MOPSO_generation_consistent (self : MOPSO.t) (g : rng) :
  MOPSO_consistent self ->
  exists V' off g1 self' g',
    MOPSO._infill self g = Ok ((MOPSO.set_velocities self V', off), g1) /\
    MOPSO._advance (MOPSO.set_velocities self V')
      (Population.evaluate (MOPSO.problem self) off) g1 = Ok (self', g') /\
    MOPSO_consistent self' /\
    shape (MOPSO.pop_size self) (Problem.n_var (MOPSO.problem self))
          (Population.get_X off) /\
    MOPSO.pop self' = Population.evaluate (MOPSO.problem self) off /\
    MOPSO.pop_size self' = MOPSO.pop_size self /\
    MOPSO.problem self' = MOPSO.problem self /\
    MOPSO.w self' = MOPSO.w self /\
    MOPSO.c1 self' = MOPSO.c1 self /\
    MOPSO.c2 self' = MOPSO.c2 self.
Proof.
  intros (Hpos & Hwf & Hlen & Hpop & Hvel & Hlb & Hpb & Hgb).
  pose proof Hwf as (Hxl & Hxu & _ & _).
  set (n := MOPSO.pop_size self) in *.
  set (d := Problem.n_var (MOPSO.problem self)) in *.
  destruct (MOPSO_infill_steps self g)
    as (r1 & r2 & g1 & g2 & V' & _ & _ & Hr1 & Hr2 & _ & _ & HV & Hinf).
  fold n d in Hr1, Hr2.
  pose proof (evaluated_shape _ _ n Hlen Hpop) as HX. fold d in HX.
  pose proof (evaluated_shape _ _ n Hlb Hpb) as HP. fold d in HP.
  assert (length (Individual.X (MOPSO.gbest self)) = d) as Hg.
  { by destruct (proj1 (Forall_forall _ _) Hpb _ Hgb). }
  assert (shape n d V') as HV'.
  { subst V'. unfold madd, mmul, msub, mscale, vadd, vmul, vsub, vscale.
    apply shape_zip_with; [apply shape_zip_with|].
    - by apply shape_fmap.
    - apply shape_zip_with; [by apply shape_fmap|by apply shape_zip_with].
    - apply shape_zip_with; [by apply shape_fmap|by apply shape_row_msub]. }
  set (Xoff := np_clip (madd (Population.get_X (MOPSO.pop self)) V')
                 (Problem.xl (MOPSO.problem self)) (Problem.xu (MOPSO.problem self)))
    in *.
  assert (shape n d Xoff) as Hoff.
  { unfold Xoff. apply shape_np_clip; [done|done|].
    unfold madd, vadd. by apply shape_zip_with. }
  destruct (evaluate_new (MOPSO.problem self) n Xoff Hoff) as [Hil Hie].
  set (infills := Population.evaluate (MOPSO.problem self) (Population.new Xoff)) in *.
  destruct (advance_steps (MOPSO.set_velocities self V') infills g2)
    as (pbest' & nd & Hloop & Hnd & HF2 & _ & Hsome).
  { cbn. fold n. lia. }
  { cbn. fold n. lia. }
  cbn [MOPSO.set_velocities MOPSO.pop_size MOPSO.pbest] in Hloop.
  unfold for_range in Hloop.
  destruct (pbest_loop_Ok _ _ _ _ _ _ _ Hloop) as (_ & Hlb' & _).
  pose proof (pbest_loop_Forall _ _ _ _ _ _ _ _ Hie Hpb Hloop) as Hpb'.
  assert (0 < length nd) as Hndpos.
  { rewrite <- (Forall2_length _ _ _ HF2).
    apply (NDS_facts.first_front_nonempty _ (Problem.n_obj (MOPSO.problem self))).
    - unfold Population.get_F. apply Forall_fmap.
      by apply evaluated_n_obj.
    - unfold Population.get_F. rewrite length_fmap. fold n in Hlb'. lia. }
  destruct (Hsome Hndpos) as (gb & Hgbl & Hadv).
  exists V', (Population.new Xoff), g2. eexists. eexists.
  split; [exact Hinf|]. split; [exact Hadv|].
  split.
  - unfold MOPSO_consistent. cbn. fold n d.
    split; [exact Hpos|]. split; [exact Hwf|]. split; [exact Hil|].
    split; [exact Hie|]. split; [exact HV'|]. split; [lia|].
    split; [exact Hpb'|].
    destruct (Forall2_lookup_r _ _ _ _ _ HF2 Hgbl) as (i & Hi & Hl).
    by eapply list_elem_of_lookup_2.
  - cbn. rewrite get_X_new. split; [exact Hoff|]. by repeat split.
Qed.

Lemma MOPSO_initialize_consistent (p : Problem.t) (self : MOPSO.t) (g : rng) :
  well_formed p -> 0 < MOPSO.pop_size self ->
  exists self' g',
    Driver.initialize (setup p self) g = Ok (self', g') /\
    MOPSO_consistent self' /\
    MOPSO.pop_size self' = MOPSO.pop_size self /\
    MOPSO.problem self' = p.
Proof.
  intros Hwf Hpos.
  destruct (np_random_uniform_total p (MOPSO.pop_size self) g Hwf) as (X & g1 & HX & Hsh).
  destruct (evaluate_new p _ X Hsh) as [Hil Hie].
  pose proof (randint_lt (MOPSO.pop_size self) g1 Hpos) as Hj.
  destruct (randint (MOPSO.pop_size self) g1) as [j g2] eqn:Hr. cbn in Hj.
  destruct (lookup_lt_is_Some_2 (Population.evaluate p (Population.new X)) j)
    as [gb Hgb]; [lia|].
  eexists. exists g2. split.
  - unfold Driver.initialize. cbn.
    unfold MOPSO._initialize_infill. cbn.
    rewrite (bind_step _ _ _ (Population.new X) g1)
      by (by rewrite (bind_step _ _ _ X g1) by exact HX).
    unfold MOPSO._initialize_advance. cbn.
    rewrite (bind_step _ _ _ j g2) by (by apply np_random_randint_draw).
    rewrite (bind_step _ _ _ gb g2) by (by apply getitem_Some).
    reflexivity.
  - cbn. split; [|done]. unfold MOPSO_consistent. cbn.
    split; [exact Hpos|]. split; [exact Hwf|]. split; [exact Hil|].
    split; [exact Hie|]. split.
    { split; [by rewrite length_replicate|].
      apply Forall_replicate. by rewrite length_replicate. }
    split; [exact Hil|]. split; [exact Hie|].
    by eapply list_elem_of_lookup_2.
Qed.

Lemma MOPSO_generations_consistent (n : nat) : forall (self : MOPSO.t) (g : rng),
  MOPSO_consistent self ->
  exists self' g',
    Driver.generations n self g = Ok (self', g') /\
    MOPSO_consistent self' /\
    MOPSO.pop_size self' = MOPSO.pop_size self /\
    MOPSO.problem self' = MOPSO.problem self.
Proof.
  induction n as [|n IH]; intros self g Hc.
  - exists self, g. split; [reflexivity|]. split; [exact Hc|]. by split.
  - destruct (MOPSO_generation_consistent self g Hc)
      as (V' & off & g1 & self1 & g2 & Hinf & Hadv & Hc1 & _ & _ & Hn1 & Hp1 & _).
    destruct (IH self1 g2 Hc1) as (self' & g' & Hgen & Hc' & Hn' & Hp').
    exists self', g'. split.
    + cbn [Driver.generations]. unfold Driver.next at 1. cbn [infill MOPSO_Algorithm].
      rewrite (bind_step _ _ _ self1 g2); [exact Hgen|].
      rewrite (bind_step _ _ _ (MOPSO.set_velocities self V', off) g1) by exact Hinf.
      exact Hadv.
    + split; [exact Hc'|]. split; congruence.
Qed.

Lemma MOPSO_minimize_total (p : Problem.t) (algorithm : MOPSO.t) (n_gen : nat) (s : N)
    (g : rng) :
  well_formed p -> 0 < MOPSO.pop_size algorithm ->
  exists pop g',
    Driver.minimize p algorithm n_gen s g = Ok (pop, g') /\
    length pop = MOPSO.pop_size algorithm /\
    Forall (evaluated p) pop.
Proof.
  intros Hwf Hpos.
  destruct (MOPSO_initialize_consistent p algorithm (seed s) Hwf Hpos)
    as (self1 & g1 & Hinit & Hc1 & Hn1 & Hp1).
  destruct (MOPSO_generations_consistent (n_gen - 1) self1 g1 Hc1)
    as (self2 & g2 & Hgen & Hc2 & Hn2 & Hp2).
  exists (MOPSO.pop self2), g2. split.
  - unfold Driver.minimize.
    rewrite (bind_step _ _ _ tt (seed s)) by reflexivity.
    rewrite (bind_step _ _ _ self1 g1) by exact Hinit.
    rewrite (bind_step _ _ _ self2 g2) by exact Hgen.
    reflexivity.
  - destruct Hc2 as (_ & _ & Hlen & Hev & _). split; [congruence|].
    by rewrite <- Hp1, <- Hp2.
Qed.

End Consistency.

(** *** Differential evolution: survival selection in general *)

Section Selection.
Context `{RandomState}.

Lemma do_head (F : matrix) :
  F <> [] ->
  exists rest, NonDominatedSorting.do F = NonDominatedSorting.first_front F :: rest.
Proof.
  intros HF. unfold NonDominatedSorting.do, NonDominatedSorting.first_front.
  destruct F as [|f F]; [done|].
  cbn [length seq NonDominatedSorting.peel]. eauto.
Qed.

(** The survivors of [_advance], whatever the size of the pool: whole
    fronts in rank order, then a random part of the first front that
    does not fit. *)
Lemma MODE_advance_selection (self : MODE.t) (infills : Population.t) (g : rng)
    (n_obj : nat) :
  let pool := Population.merge (MODE.pop self) infills in
  let fronts := NonDominatedSorting.do (Population.get_F pool) in
  Forall (fun p => length (Individual.F p) = n_obj) pool ->
  exists (m : nat) (selected : list nat) (g' : rng) (pop' : Population.t),
    MODE._advance self infills g = Ok (MODE.set_pop self pop', g') /\
    Forall2 (fun i p => pool !! i = Some p) (concat (take m fronts) ++ selected) pop' /\
    length (concat (take m fronts)) <= MODE.pop_size self /\
    length pop' = MODE.pop_size self `min` length pool /\
    ((m = length fronts /\ selected = []) \/
     (exists front,
        fronts !! m = Some front /\
        MODE.pop_size self < length (concat (take m fronts)) + length front /\
        length selected = MODE.pop_size self - length (concat (take m fronts)) /\
        forall x, x ∈ selected -> x ∈ front)).
Proof.
  intros pool fronts HF.
  assert (concat fronts ≡ₚ seq 0 (length pool)) as Hpart.
  { unfold fronts. rewrite (NDS_facts.do_partition _ n_obj).
    - unfold Population.get_F. by rewrite length_fmap.
    - unfold Population.get_F. by apply Forall_fmap. }
  assert (forall x, x ∈ concat fronts -> x < length pool) as Hrange.
  { intros x Hx. rewrite Hpart in Hx. apply elem_of_seq in Hx. lia. }
  destruct (select_fronts_spec (MODE.pop_size self) fronts [] g)
    as (m & selected & g' & Hsel & Hlen & Hcase); [cbn; lia|].
  cbn [app] in Hsel, Hlen, Hcase.
  pose proof (Permutation_length Hpart) as Hl. rewrite length_seq in Hl.
  rewrite (concat_take_drop m fronts) in Hrange, Hl. rewrite length_app in Hl.
  assert (length selected = MODE.pop_size self `min` length pool
                            - length (concat (take m fronts)) /\
          (forall x, x ∈ selected -> x ∈ concat (drop m fronts)) /\
          ((m = length fronts /\ selected = []) \/
           (exists front,
              fronts !! m = Some front /\
              MODE.pop_size self < length (concat (take m fronts)) + length front /\
              length selected = MODE.pop_size self - length (concat (take m fronts)) /\
              forall x, x ∈ selected -> x ∈ front)))
    as (Hsl & Hsin & Hcase').
  { destruct Hcase as [(-> & -> & ->) | (front & Hfront & Hover & Hch)].
    - split; [|split; [intros x Hx; by apply elem_of_nil in Hx|left; auto]].
      rewrite drop_all in Hl. cbn in Hl |- *. lia.
    - rewrite (drop_S _ _ _ Hfront) in Hl |- *. cbn [concat] in Hl |- *.
      rewrite length_app in Hl.
      destruct (np_random_choice_spec front
                  (MODE.pop_size self - length (concat (take m fronts))) g)
        as (idx & sel & g2 & Hch2 & Hl2 & _ & _ & Hin2 & _); [lia|].
      rewrite Hch in Hch2. injection Hch2 as <- <-.
      split; [lia|].
      split; [intros x Hx; apply elem_of_app; left; by apply Hin2|].
      right. exists front. by repeat split. }
  assert (Forall (fun i => i < length pool) (concat (take m fronts) ++ selected)) as Hlt.
  { apply Forall_forall. intros x Hx. apply Hrange.
    apply elem_of_app in Hx as [Hx|Hx]; apply elem_of_app; auto. }
  destruct (advance_of_selection self infills g _ g' Hsel Hlt) as (pop' & Hadv & HF2).
  exists m, selected, g', pop'.
  split; [exact Hadv|]. split; [exact HF2|]. split; [exact Hlen|].
  split; [|exact Hcase'].
  rewrite <- (Forall2_length _ _ _ HF2), length_app, Hsl. lia.
Qed.


End Selection.


(** *** Differential evolution *)

Section MODE_consistency.
Context `{RandomState}.

Lemma MODE_generation_consistent (self : MODE.t) (g : rng) :
  MODE_consistent self ->
  exists off g1 self' g',
    MODE._infill self g = Ok (off, g1) /\
    MODE._advance self (Population.evaluate (MODE.problem self) off) g1
      = Ok (self', g') /\
    MODE_consistent self' /\
    shape (MODE.pop_size self) (Problem.n_var (MODE.problem self))
          (Population.get_X off) /\
    (forall p, p ∈ MODE.pop self' ->
               p ∈ MODE.pop self \/
               p ∈ Population.evaluate (MODE.problem self) off) /\
    MODE.pop_size self' = MODE.pop_size self /\
    MODE.problem self' = MODE.problem self /\
    MODE.F self' = MODE.F self /\
    MODE.CR self' = MODE.CR self.
Proof.
  intros (Hn & Hd & Hwf & Hlen & Hpop).
  pose proof Hwf as (Hxl & Hxu & _ & _).
  pose proof (evaluated_shape _ _ _ Hlen Hpop) as HX.
  destruct (MODE_infill_refines self g HX Hn Hd) as (rows & g1 & _ & Hrows & Hinf & _).
  set (Xoff := np_clip rows (Problem.xl (MODE.problem self))
                 (Problem.xu (MODE.problem self))) in *.
  assert (shape (MODE.pop_size self) (Problem.n_var (MODE.problem self)) Xoff) as Hoff
    by (by apply shape_np_clip).
  destruct (evaluate_new (MODE.problem self) _ Xoff Hoff) as [Hil Hie].
  set (infills := Population.evaluate (MODE.problem self) (Population.new Xoff)) in *.
  assert (Forall (evaluated (MODE.problem self))
            (Population.merge (MODE.pop self) infills)) as Hpool
    by (by apply Forall_app).
  destruct (MODE_advance_selection self infills g1 (Problem.n_obj (MODE.problem self)))
    as (m & selected & g' & pop' & Hadv & HF2 & _ & Hsize & _).
  { by apply evaluated_n_obj. }
  assert (forall p, p ∈ pop' -> p ∈ Population.merge (MODE.pop self) infills) as Hsub.
  { intros p (i & _ & Hi)%(Forall2_lookup_elem_of _ _ _ p HF2).
    by eapply list_elem_of_lookup_2. }
  exists (Population.new Xoff), g1, (MODE.set_pop self pop'), g'.
  split; [exact Hinf|]. split; [exact Hadv|].
  split.
  - unfold MODE_consistent. cbn.
    split; [exact Hn|]. split; [exact Hd|]. split; [exact Hwf|].
    split.
    + rewrite Hsize. unfold Population.merge. rewrite length_app. lia.
    + apply Forall_forall. intros p Hp.
      exact (proj1 (Forall_forall _ _) Hpool p (Hsub p Hp)).
  - rewrite get_X_new. split; [exact Hoff|].
    split; [|by repeat split].
    intros p Hp. cbn in Hp. apply Hsub in Hp. by apply elem_of_app in Hp.
Qed.

Lemma MODE_initialize_consistent (p : Problem.t) (self : MODE.t) (g : rng) :
  well_formed p -> 3 <= MODE.pop_size self -> 0 < Problem.n_var p ->
  exists self' g',
    Driver.initialize (setup p self) g = Ok (self', g') /\
    MODE_consistent self' /\
    MODE.pop_size self' = MODE.pop_size self /\
    MODE.problem self' = p.
Proof.
  intros Hwf Hn Hd.
  destruct (np_random_uniform_total p (MODE.pop_size self) g Hwf) as (X & g1 & HX & Hsh).
  destruct (evaluate_new p _ X Hsh) as [Hil Hie].
  eexists. exists g1. split.
  - unfold Driver.initialize. cbn.
    unfold MODE._initialize_infill. cbn.
    rewrite (bind_step _ _ _ (Population.new X) g1)
      by (by rewrite (bind_step _ _ _ X g1) by exact HX).
    reflexivity.
  - cbn. split; [|done]. unfold MODE_consistent. cbn. done.
Qed.

Lemma MODE_generations_consistent (n : nat) : forall (self : MODE.t) (g : rng),
  MODE_consistent self ->
  exists self' g',
    Driver.generations n self g = Ok (self', g') /\
    MODE_consistent self' /\
    MODE.pop_size self' = MODE.pop_size self /\
    MODE.problem self' = MODE.problem self.
Proof.
  induction n as [|n IH]; intros self g Hc.
  - exists self, g. split; [reflexivity|]. split; [exact Hc|]. by split.
  - destruct (MODE_generation_consistent self g Hc)
      as (off & g1 & self1 & g2 & Hinf & Hadv & Hc1 & _ & _ & Hn1 & Hp1 & _).
    destruct (IH self1 g2 Hc1) as (self' & g' & Hgen & Hc' & Hn' & Hp').
    exists self', g'. split.
    + cbn [Driver.generations]. unfold Driver.next at 1. cbn [infill MODE_Algorithm].
      rewrite (bind_step _ _ _ self1 g2); [exact Hgen|].
      rewrite (bind_step _ _ _ (self, off) g1)
        by (by rewrite (bind_step _ _ _ off g1) by exact Hinf).
      exact Hadv.
    + split; [exact Hc'|]. split; congruence.
Qed.

Lemma MODE_minimize_total (p : Problem.t) (algorithm : MODE.t) (n_gen : nat) (s : N)
    (g : rng) :
  well_formed p -> 3 <= MODE.pop_size algorithm -> 0 < Problem.n_var p ->
  exists pop g',
    Driver.minimize p algorithm n_gen s g = Ok (pop, g') /\
    length pop = MODE.pop_size algorithm /\
    Forall (evaluated p) pop.
Proof.
  intros Hwf Hn Hd.
  destruct (MODE_initialize_consistent p algorithm (seed s) Hwf Hn Hd)
    as (self1 & g1 & Hinit & Hc1 & Hn1 & Hp1).
  destruct (MODE_generations_consistent (n_gen - 1) self1 g1 Hc1)
    as (self2 & g2 & Hgen & Hc2 & Hn2 & Hp2).
  exists (MODE.pop self2), g2. split.
  - unfold Driver.minimize.
    rewrite (bind_step _ _ _ tt (seed s)) by reflexivity.
    rewrite (bind_step _ _ _ self1 g1) by exact Hinit.
    rewrite (bind_step _ _ _ self2 g2) by exact Hgen.
    reflexivity.
  - destruct Hc2 as (_ & _ & _ & Hlen & Hev). split; [congruence|].
    by rewrite <- Hp1, <- Hp2.
Qed.

End MODE_consistency.

(** ** Generations and whole runs *)

Section Runs.
Context `{RandomState}.

(** X4. One MOPSO generation on a consistent swarm never raises and
    leaves a consistent swarm: [_infill] returns [pop_size] offspring of
    [n_var] coordinates, and after their evaluation [_advance] stores
    them as the population, keeps [pop_size] personal bests that all
    carry their own objective values, and takes the global best among
    them; the velocities keep the shape [(pop_size, n_var)], so that no
    element-wise operation ever meets operands of different shapes. *)
Theorem MOPSO_generation_consistency (self : MOPSO.t) (g : rng) :
  MOPSO_consistent self ->
  exists self1 off g1 self' g',
    MOPSO._infill self g = Ok ((self1, off), g1) /\
    shape (MOPSO.pop_size self) (Problem.n_var (MOPSO.problem self))
          (Population.get_X off) /\
    MOPSO._advance self1 (Population.evaluate (MOPSO.problem self) off) g1
      = Ok (self', g') /\
    MOPSO_consistent self' /\
    MOPSO.pop self' = Population.evaluate (MOPSO.problem self) off /\
    MOPSO.pop_size self' = MOPSO.pop_size self /\
    MOPSO.problem self' = MOPSO.problem self /\
    MOPSO.w self' = MOPSO.w self /\
    MOPSO.c1 self' = MOPSO.c1 self /\
    MOPSO.c2 self' = MOPSO.c2 self.
Proof.
  intros Hc.
  destruct (MOPSO_generation_consistent self g Hc)
    as (V' & off & g1 & self' & g' & Hinf & Hadv & Hc' & Hsh & Hrest).
  exists (MOPSO.set_velocities self V'), off, g1, self', g'.
  split; [exact Hinf|]. split; [exact Hsh|]. split; [exact Hadv|].
  split; [exact Hc'|]. exact Hrest.
Qed.

(** X5. A MOPSO run on a well-formed problem with a positive swarm size
    completes, for every seed, number of generations and generator: with
    the driver of the specification, [minimize] returns a population of
    [pop_size] members that all carry the objective values of their own
    position, and the non-dominated set that [_set_optimum] extracts from
    it is not empty. *)
Theorem MOPSO_minimize_completes (p : Problem.t) (algorithm : MOPSO.t) (n_gen : nat)
    (s : N) (g : rng) :
  well_formed p -> 0 < MOPSO.pop_size algorithm ->
  exists pop g' opt,
    Driver.minimize p algorithm n_gen s g = Ok (pop, g') /\
    length pop = MOPSO.pop_size algorithm /\
    Forall (evaluated p) pop /\
    MOPSO.non_dominated pop g' = Ok (opt, g') /\
    opt <> [].
Proof.
  intros Hwf Hpos.
  destruct (MOPSO_minimize_total p algorithm n_gen s g Hwf Hpos)
    as (pop & g' & Hrun & Hlen & Hev).
  destruct (non_dominated_spec pop (Problem.n_obj p) g')
    as (opt & Hopt & _ & _ & Hne); [by apply evaluated_n_obj|].
  exists pop, g', opt. split; [exact Hrun|]. split; [exact Hlen|].
  split; [exact Hev|]. split; [exact Hopt|].
  apply Hne. intros ->. cbn in Hlen. lia.
Qed.

(** X6. One MODE generation on a consistent population of at least three
    members never raises and leaves a consistent population: [_infill]
    returns [pop_size] offspring of [n_var] coordinates, and survival
    selection over parents and evaluated offspring keeps exactly
    [pop_size] of them. *)
Theorem MODE_generation_consistency (self : MODE.t) (g : rng) :
  MODE_consistent self ->
  exists off g1 self' g',
    MODE._infill self g = Ok (off, g1) /\
    shape (MODE.pop_size self) (Problem.n_var (MODE.problem self))
          (Population.get_X off) /\
    MODE._advance self (Population.evaluate (MODE.problem self) off) g1
      = Ok (self', g') /\
    MODE_consistent self' /\
    (forall p, p ∈ MODE.pop self' ->
               p ∈ MODE.pop self \/
               p ∈ Population.evaluate (MODE.problem self) off) /\
    MODE.pop_size self' = MODE.pop_size self /\
    MODE.problem self' = MODE.problem self /\
    MODE.F self' = MODE.F self /\
    MODE.CR self' = MODE.CR self.
Proof.
  intros Hc.
  destruct (MODE_generation_consistent self g Hc)
    as (off & g1 & self' & g' & Hinf & Hadv & Hc' & Hsh & Hrest).
  exists off, g1, self', g'.
  split; [exact Hinf|]. split; [exact Hsh|]. split; [exact Hadv|].
  split; [exact Hc'|]. exact Hrest.
Qed.

(** X7. A MODE run on a well-formed problem with at least one variable
    and a population of at least three completes, for every seed, number
    of generations and generator: with the driver of the specification,
    [minimize] returns exactly [pop_size] members that all carry the
    objective values of their own position, and the non-dominated set
    that [_set_optimum] extracts from it is not empty. *)
Theorem MODE_minimize_completes (p : Problem.t) (algorithm : MODE.t) (n_gen : nat)
    (s : N) (g : rng) :
  well_formed p -> 3 <= MODE.pop_size algorithm -> 0 < Problem.n_var p ->
  exists pop g' opt,
    Driver.minimize p algorithm n_gen s g = Ok (pop, g') /\
    length pop = MODE.pop_size algorithm /\
    Forall (evaluated p) pop /\
    MODE._set_optimum (MODE.set_pop algorithm pop) g' = Ok (opt, g') /\
    opt <> [].
Proof.
  intros Hwf Hn Hd.
  destruct (MODE_minimize_total p algorithm n_gen s g Hwf Hn Hd)
    as (pop & g' & Hrun & Hlen & Hev).
  destruct (non_dominated_spec pop (Problem.n_obj p) g')
    as (opt & Hopt & _ & _ & Hne); [by apply evaluated_n_obj|].
  exists pop, g', opt. split; [exact Hrun|]. split; [exact Hlen|].
  split; [exact Hev|]. split; [exact Hopt|].
  apply Hne. intros ->. cbn in Hlen. lia.
Qed.

End Runs.

Lemma line_well_formed : well_formed Scenario.line.
Proof.
  split; [reflexivity|]. split; [reflexivity|]. split; [reflexivity|].
  intros [|x0 [|x1 x]]; try discriminate. reflexivity.
Qed.

Lemma swarm_consistent : MOPSO_consistent Cases.swarm.
Proof.
  split; [cbn; lia|]. split; [exact line_well_formed|].
  split; [reflexivity|]. split; [by repeat constructor|].
  split; [by repeat constructor|].
  split; [reflexivity|]. split; [by repeat constructor|].
  by left.
Qed.

Lemma de_consistent : MODE_consistent Cases.de.
Proof.
  split; [cbn; lia|]. split; [cbn; lia|]. split; [exact line_well_formed|].
  split; [reflexivity|]. by repeat constructor.
Qed.

(** ** MOPSO: personal bests over a generation and over a run *)

Section MOPSO_personal_best_run.
Context `{RandomState}.

Lemma pbest_monotone_generations (n : nat) : forall (self : MOPSO.t) (g : rng),
  MOPSO_consistent self ->
  exists self_n g_n,
    Driver.generations n self g = Ok (self_n, g_n) /\
    MOPSO_consistent self_n /\
    MOPSO.problem self_n = MOPSO.problem self /\
    length (MOPSO.pbest self_n) = length (MOPSO.pbest self) /\
    forall i p0 pn,
      MOPSO.pbest self !! i = Some p0 -> MOPSO.pbest self_n !! i = Some pn ->
      pn = p0 \/ MOPSO.dominate pn p0 = true.
Proof.
  induction n as [|n IH]; intros self g Hc.
  - exists self, g. split; [reflexivity|]. split; [exact Hc|].
    split; [reflexivity|]. split; [reflexivity|].
    intros i p0 pn H0 Hn. left. congruence.
  - destruct (MOPSO_generation_consistent self g Hc)
      as (V' & off & g1 & self1 & g2 & Hinf & Hadv & Hc1 & _ & _ & _ & Hp1 & _).
    destruct (advance_pbest_step _ _ _ _ _ Hadv) as (Hlen & Hstep).
    cbn [MOPSO.pbest MOPSO.set_velocities] in Hlen, Hstep.
    destruct (IH self1 g2 Hc1) as (self_n & g_n & Hgen & Hcn & Hpn & Hlenn & Hrun).
    exists self_n, g_n. split.
    { cbn [Driver.generations]. unfold Driver.next at 1. cbn [infill MOPSO_Algorithm].
      rewrite (bind_step _ _ _ self1 g2); [exact Hgen|].
      rewrite (bind_step _ _ _ (MOPSO.set_velocities self V', off) g1) by exact Hinf.
      exact Hadv. }
    split; [exact Hcn|]. split; [congruence|]. split; [congruence|].
    intros i p0 pn H0 Hn.
    destruct (lookup_lt_is_Some_2 (MOPSO.pbest self1) i) as [p1 H1].
    { rewrite Hlen. by eapply lookup_lt_Some. }
    destruct (Hrun i p1 pn H1 Hn) as [-> | Hd];
      destruct (Hstep i p0 p1 H0 H1) as [-> | [_ Hd1]]; auto.
    right.
    pose proof Hc as (_ & Hwf & _ & _ & _ & _ & Hpb & _).
    pose proof Hc1 as (_ & Hwf1 & _ & _ & _ & _ & Hpb1 & _).
    pose proof Hcn as (_ & Hwfn & _ & _ & _ & _ & Hpbn & _).
    pose proof (Forall_lookup_1 _ _ _ _ (evaluated_n_obj _ _ Hwf Hpb) H0) as Hl0.
    pose proof (Forall_lookup_1 _ _ _ _ (evaluated_n_obj _ _ Hwf1 Hpb1) H1) as Hl1.
    pose proof (Forall_lookup_1 _ _ _ _ (evaluated_n_obj _ _ Hwfn Hpbn) Hn) as Hln.
    cbn beta in Hl0, Hl1, Hln. rewrite Hpn, Hp1 in Hln. rewrite Hp1 in Hl1.
    apply (dominate_trans pn p1 p0); congruence.
Qed.

(** C5. In a MOPSO generation on candidates and personal bests whose
    objective vectors have one length, the personal best of member [i]
    becomes the newly evaluated candidate [i] exactly when that
    candidate dominates the old personal best, and stays otherwise;
    [dominate] is strict Pareto domination (no objective larger, one
    strictly smaller).  Over any number of generations of a run from a
    consistent swarm, every generation succeeds and a personal best is
    its initial value or a candidate that dominates it. *)
Theorem MOPSO_pbest_update (self : MOPSO.t) (m : nat) :
  length (MOPSO.pbest self) = MOPSO.pop_size self ->
  Forall (fun p => length (Individual.F p) = m) (MOPSO.pbest self) ->
  (forall (infills : Population.t) (g : rng),
     length infills = MOPSO.pop_size self ->
     Forall (fun p => length (Individual.F p) = m) infills ->
     exists self' g',
       MOPSO._advance self infills g = Ok (self', g') /\
       length (MOPSO.pbest self') = MOPSO.pop_size self /\
       Forall (fun p => length (Individual.F p) = m) (MOPSO.pbest self') /\
       forall i new old,
         infills !! i = Some new -> MOPSO.pbest self !! i = Some old ->
         length (Individual.F new) = length (Individual.F old) /\
         MOPSO.pbest self' !! i = Some (if MOPSO.dominate new old then new else old) /\
         (MOPSO.dominate new old = true <->
          (forall k x y, Individual.F new !! k = Some x -> Individual.F old !! k = Some y ->
                         F64.leb x y = true) /\
          (exists k x y, Individual.F new !! k = Some x /\ Individual.F old !! k = Some y /\
                         F64.ltb x y = true))) /\
  (forall (n : nat) (g : rng),
     MOPSO_consistent self ->
     exists self_n g_n,
       Driver.generations n self g = Ok (self_n, g_n) /\
       MOPSO_consistent self_n /\
       length (MOPSO.pbest self_n) = MOPSO.pop_size self /\
       forall i p0 pn,
         MOPSO.pbest self !! i = Some p0 -> MOPSO.pbest self_n !! i = Some pn ->
         pn = p0 \/ MOPSO.dominate pn p0 = true).
Proof.
  intros Hpb HFpb. split.
  - intros infills g Hlen HFin.
    destruct (advance_total self infills g) as (self' & g' & Hadv); [lia | lia |].
    exists self', g'. split; [exact Hadv|].
    destruct (advance_Ok_pbest _ _ _ _ _ Hadv) as (Hloop & _).
    pose proof (pbest_loop_Forall _ _ _ _ _ _ _ _ HFin HFpb Hloop) as HF'.
    apply pbest_loop_Ok in Hloop as (_ & Hlen' & Hall).
    split; [congruence|]. split; [exact HF'|].
    intros i new old Hnew Hold.
    split.
    { rewrite (Forall_lookup_1 _ _ _ _ HFin Hnew).
      by rewrite (Forall_lookup_1 _ _ _ _ HFpb Hold). }
    split; [|apply dominate_spec].
    rewrite Hall. rewrite decide_True.
    + unfold Described.pbest_choice. rewrite Hold. cbn. rewrite Hnew. reflexivity.
    + apply lookup_lt_Some in Hold. lia.
  - intros n g Hc.
    destruct (pbest_monotone_generations n self g Hc)
      as (self_n & g_n & Hgen & Hcn & _ & Hlen & Hrun).
    exists self_n, g_n. split; [exact Hgen|]. split; [exact Hcn|].
    split; [congruence | exact Hrun].
Qed.

End MOPSO_personal_best_run.

(** In one generation the first candidate replaces the personal best it
    dominates and the second does not; and a run of two generations
    from a consistent swarm keeps or improves every personal best. *)
Lemma MOPSO_pbest_update_witness :
  (exists self' g',
     MOPSO._advance (H := CounterRng.counter_rng) Scenario.swarm1 Scenario.infills1
       (0 : nat) = Ok (self', g') /\
     MOPSO.pbest self' !! 0 = Some (Scenario.ind 0 0 0) /\
     MOPSO.pbest self' !! 1 = Some (Scenario.ind 1 2 2)) /\
  (exists self_n g_n,
     Driver.generations (H := CounterRng.counter_rng) 2 Cases.swarm (0 : nat)
       = Ok (self_n, g_n) /\
     forall i p0 pn,
       MOPSO.pbest Cases.swarm !! i = Some p0 -> MOPSO.pbest self_n !! i = Some pn ->
       pn = p0 \/ MOPSO.dominate pn p0 = true).
Proof.
  split.
  - destruct (MOPSO_pbest_update (H := CounterRng.counter_rng) Scenario.swarm1 2)
      as [Hstep _]; [reflexivity | repeat constructor |].
    destruct (Hstep Scenario.infills1 (0 : nat)) as (self' & g' & Hadv & _ & _ & Hall);
      [reflexivity | repeat constructor |].
    exists self', g'. split; [exact Hadv|]. split.
    + destruct (Hall 0 (Scenario.ind 0 0 0) (Scenario.ind 0 1 1)) as (_ & -> & _);
        reflexivity.
    + destruct (Hall 1 (Scenario.ind 1 3 3) (Scenario.ind 1 2 2)) as (_ & -> & _);
        reflexivity.
  - destruct (MOPSO_pbest_update (H := CounterRng.counter_rng) Cases.swarm 2)
      as [_ Hrun]; [reflexivity | repeat constructor |].
    destruct (Hrun 2 (0 : nat) swarm_consistent) as (self_n & g_n & Hgen & _ & _ & Hmono).
    exists self_n, g_n. split; [exact Hgen | exact Hmono].
Defined.

Lemma MOPSO_generation_consistency_witness :
  exists self1 off g1 self' g',
    MOPSO._infill (H := CounterRng.counter_rng) Cases.swarm (0 : nat)
      = Ok ((self1, off), g1) /\
    MOPSO._advance (H := CounterRng.counter_rng) self1
      (Population.evaluate Scenario.line off) g1 = Ok (self', g') /\
    MOPSO_consistent self'.
Proof.
  destruct (MOPSO_generation_consistency (H := CounterRng.counter_rng)
              Cases.swarm (0 : nat) swarm_consistent)
    as (self1 & off & g1 & self' & g' & Hinf & _ & Hadv & Hc & _).
  exists self1, off, g1, self', g'.
  split; [exact Hinf|]. split; [exact Hadv | exact Hc].
Defined.

Lemma MOPSO_minimize_completes_witness :
  exists pop g',
    Driver.minimize (H := CounterRng.counter_rng) Scenario.line Scenario.swarm0 5 1
      (0 : nat) = Ok (pop, g') /\
    length pop = 2.
Proof.
  destruct (MOPSO_minimize_completes (H := CounterRng.counter_rng)
              Scenario.line Scenario.swarm0 5 1 (0 : nat) line_well_formed)
    as (pop & g' & opt & Hrun & Hlen & _).
  - cbn. lia.
  - exists pop, g'. split; [exact Hrun | exact Hlen].
Defined.

Lemma MODE_generation_consistency_witness :
  exists off g1 self' g',
    MODE._infill (H := CounterRng.counter_rng) Cases.de (0 : nat) = Ok (off, g1) /\
    MODE._advance (H := CounterRng.counter_rng) Cases.de
      (Population.evaluate Scenario.line off) g1 = Ok (self', g') /\
    length (MODE.pop self') = 3.
Proof.
  destruct (MODE_generation_consistency (H := CounterRng.counter_rng)
              Cases.de (0 : nat) de_consistent)
    as (off & g1 & self' & g' & Hinf & _ & Hadv & Hc & _ & Hn & _).
  exists off, g1, self', g'. split; [exact Hinf|]. split; [exact Hadv|].
  destruct Hc as (_ & _ & _ & Hlen & _). by rewrite Hlen, Hn.
Defined.

Lemma MODE_minimize_completes_witness :
  exists pop g',
    Driver.minimize (H := CounterRng.counter_rng) Scenario.line Scenario.de_var 5 1
      (0 : nat) = Ok (pop, g') /\
    length pop = 3.
Proof.
  destruct (MODE_minimize_completes (H := CounterRng.counter_rng)
              Scenario.line Scenario.de_var 5 1 (0 : nat) line_well_formed)
    as (pop & g' & opt & Hrun & Hlen & _).
  - cbn. lia.
  - cbn. lia.
  - exists pop, g'. split; [exact Hrun | exact Hlen].
Defined.

(** ** The problems of the notebook *)

Section Problems.
Context `{RandomState}.

Lemma ThreeDProblem_evaluate_Ok (x : vec) :
  3 <= length x ->
  exists f1 f2 f3, ThreeDProblem._evaluate x = Ok [f1; f2; f3].
Proof.
  destruct x as [|a [|b [|c x]]]; cbn [length]; try lia. intros _.
  do 3 eexists. reflexivity.
Qed.

Lemma ThreeDProblem_well_formed : well_formed ThreeDProblem.__init__.
Proof.
  split; [reflexivity|]. split; [reflexivity|]. split; [reflexivity|].
  intros x Hx. destruct (ThreeDProblem_evaluate_Ok x) as (f1 & f2 & f3 & Hf).
  - cbn in Hx. lia.
  - cbn [Problem._evaluate ThreeDProblem.__init__]. by rewrite Hf.
Qed.

Lemma ThreeDProblem_evaluated (ind : Individual.t) :
  evaluated ThreeDProblem.__init__ ind ->
  length (Individual.X ind) = 3 /\ length (Individual.F ind) = 3 /\
  ThreeDProblem._evaluate (Individual.X ind) = Ok (Individual.F ind).
Proof.
  intros [HX HF]. cbn in HX. split; [exact HX|].
  destruct (ThreeDProblem_evaluate_Ok (Individual.X ind)) as (f1 & f2 & f3 & Hf); [lia|].
  cbn [Problem._evaluate ThreeDProblem.__init__] in HF. rewrite Hf in HF.
  rewrite HF. split; [reflexivity | exact Hf].
Qed.

(** X8. The three copies of the objective functions agree:
    [ThreeDProblem._evaluate], [MyProblem.evaluate] and the objective
    part of [FranceBudgetProblem._evaluate] raise [IndexError] on a
    vector of fewer than three coordinates and return the same three
    values otherwise, which depend on the first three coordinates only. *)
Theorem objective_copies_agree (x : vec) :
  MyProblem.evaluate x = ThreeDProblem._evaluate x /\
  match FranceBudgetProblem._evaluate x with
  | Ok fg => Ok fg.1
  | Raise e => Raise e
  end = ThreeDProblem._evaluate x /\
  (length x < 3 -> ThreeDProblem._evaluate x = Raise IndexError) /\
  (3 <= length x ->
   (exists f1 f2 f3, ThreeDProblem._evaluate x = Ok [f1; f2; f3]) /\
   ThreeDProblem._evaluate (take 3 x) = ThreeDProblem._evaluate x).
Proof.
  split; [reflexivity|].
  destruct x as [|a [|b [|c x]]]; cbn [length].
  - split; [reflexivity|]. split; [reflexivity|lia].
  - split; [reflexivity|]. split; [reflexivity|lia].
  - split; [reflexivity|]. split; [reflexivity|lia].
  - split; [reflexivity|]. split; [lia|]. intros _.
    split; [|reflexivity]. do 3 eexists. reflexivity.
Qed.

(** X9. The two optimisation cells of the notebook complete:
    [minimize(ThreeDProblem(), MOPSO(pop_size=100), ('n_gen', 100), seed=1)]
    and the same call with [MODE(pop_size=100)] raise no exception,
    whatever numbers the generator delivers, and end with 100 members of
    three coordinates whose stored objectives are the three values that
    [_evaluate] returns for their position. *)
Theorem notebook_runs_complete (g : rng) :
  (exists pop g',
     Driver.minimize ThreeDProblem.__init__ Notebook.mopso 100 1 g = Ok (pop, g') /\
     length pop = 100 /\
     Forall (fun ind => length (Individual.X ind) = 3 /\ length (Individual.F ind) = 3 /\
                        ThreeDProblem._evaluate (Individual.X ind) = Ok (Individual.F ind))
            pop) /\
  (exists pop g',
     Driver.minimize ThreeDProblem.__init__ Notebook.mode 100 1 g = Ok (pop, g') /\
     length pop = 100 /\
     Forall (fun ind => length (Individual.X ind) = 3 /\ length (Individual.F ind) = 3 /\
                        ThreeDProblem._evaluate (Individual.X ind) = Ok (Individual.F ind))
            pop).
Proof.
  split.
  - destruct (MOPSO_minimize_total ThreeDProblem.__init__ Notebook.mopso 100 1 g)
      as (pop & g' & Hrun & Hlen & Hev).
    + exact ThreeDProblem_well_formed.
    + cbn. lia.
    + exists pop, g'. split; [exact Hrun|]. split; [exact Hlen|].
      eapply Forall_impl; [exact Hev|]. exact ThreeDProblem_evaluated.
  - destruct (MODE_minimize_total ThreeDProblem.__init__ Notebook.mode 100 1 g)
      as (pop & g' & Hrun & Hlen & Hev).
    + exact ThreeDProblem_well_formed.
    + cbn. lia.
    + cbn. lia.
    + exists pop, g'. split; [exact Hrun|]. split; [exact Hlen|].
      eapply Forall_impl; [exact Hev|]. exact ThreeDProblem_evaluated.
Qed.

End Problems.

(** ** When the methods raise *)

Section Errors.
Context `{RandomState}.

Lemma getitem_None {A} (l : list A) (i : nat) (g : rng) :
  l !! i = None -> getitem l i g = Raise IndexError.
Proof. unfold getitem. by intros ->. Qed.

Lemma update_pbest_raises (pop pbest : Population.t) (i : nat) (g : rng) :
  length pop <= i \/ length pbest <= i ->
  MOPSO.update_pbest pop i pbest g = Raise IndexError.
Proof.
  intros Hout. unfold MOPSO.update_pbest.
  destruct (pop !! i) as [a|] eqn:Ha.
  - rewrite (bind_step _ _ _ a g) by (by apply getitem_Some).
    apply bind_Raise, getitem_None, lookup_ge_None.
    apply lookup_lt_Some in Ha. lia.
  - by apply bind_Raise, getitem_None.
Qed.

Lemma pbest_loop_raises (pop : Population.t) (m : nat) :
  forall (s : nat) (pbest : Population.t) (g : rng),
  s <= length pop -> s <= length pbest ->
  length pop < s + m \/ length pbest < s + m ->
  for_in (seq s m) (MOPSO.update_pbest pop) pbest g = Raise IndexError.
Proof.
  induction m as [|m IH]; intros s pbest g Hs1 Hs2 Hout; [lia|].
  cbn [seq for_in].
  destruct (decide (s < length pop /\ s < length pbest)) as [[H1 H2]|Hnot].
  - destruct (pbest_loop_total pop 1 s pbest g) as (p1 & Hp1); [lia|lia|].
    cbn [seq for_in] in Hp1.
    apply bind_Ok in Hp1 as (p1' & g1 & Hstep & Hret).
    injection Hret as <- <-.
    destruct (update_pbest_Ok _ _ _ _ _ _ Hstep) as (_ & Hl & _).
    rewrite (bind_step _ _ _ p1' g1) by exact Hstep.
    apply IH; lia.
  - apply bind_Raise, update_pbest_raises. lia.
Qed.

(** X10. On offspring and personal bests whose objective vectors have
    one length, [MOPSO._advance] succeeds exactly when both have at
    least [pop_size] members; otherwise the personal-best loop runs out
    of one of them and the call raises [IndexError]. *)
Theorem MOPSO_advance_outcome (self : MOPSO.t) (infills : Population.t) (g : rng)
    (m : nat) :
  Forall (fun p => length (Individual.F p) = m) infills ->
  Forall (fun p => length (Individual.F p) = m) (MOPSO.pbest self) ->
  (MOPSO.pop_size self <= length infills ->
   MOPSO.pop_size self <= length (MOPSO.pbest self) ->
   exists self' g', MOPSO._advance self infills g = Ok (self', g')) /\
  (length infills < MOPSO.pop_size self \/
   length (MOPSO.pbest self) < MOPSO.pop_size self ->
   MOPSO._advance self infills g = Raise IndexError).
Proof.
  intros _ _. split.
  - intros H1 H2. by apply advance_total.
  - intros Hout. unfold MOPSO._advance.
    cbn [MOPSO.set_pop MOPSO.pop_size MOPSO.pop MOPSO.pbest].
    apply bind_Raise. unfold for_range. apply pbest_loop_raises; lia.
Qed.

(** X11. [MOPSO._initialize_advance] draws the index of the first global
    best with [np.random.randint(pop_size)]: with [pop_size = 0] the
    call raises [ValueError]; with a positive [pop_size] it succeeds when
    the drawn index is below [len(infills)], which is certain when there
    are at least [pop_size] candidates, and raises [IndexError]
    otherwise. *)
Theorem MOPSO_initialize_advance_outcome (self : MOPSO.t) (infills : Population.t)
    (g : rng) :
  (MOPSO.pop_size self = 0 ->
   MOPSO._initialize_advance self infills g = Raise ValueError) /\
  (0 < MOPSO.pop_size self -> MOPSO.pop_size self <= length infills ->
   exists self' g', MOPSO._initialize_advance self infills g = Ok (self', g')) /\
  (0 < MOPSO.pop_size self ->
   length infills <= (randint (MOPSO.pop_size self) g).1 ->
   MOPSO._initialize_advance self infills g = Raise IndexError).
Proof.
  unfold MOPSO._initialize_advance.
  cbn [MOPSO.set_pop MOPSO.set_velocities MOPSO.set_pbest MOPSO.pop_size MOPSO.pop].
  split; [|split].
  - intros Hz. apply bind_Raise. unfold np_random_randint. by rewrite Hz.
  - intros Hpos Hlen.
    pose proof (randint_lt (MOPSO.pop_size self) g Hpos) as Hj.
    destruct (randint (MOPSO.pop_size self) g) as [j g'] eqn:Hr. cbn in Hj.
    destruct (lookup_lt_is_Some_2 infills j) as [gb Hgb]; [lia|].
    eexists. exists g'.
    rewrite (bind_step _ _ _ j g') by (by apply np_random_randint_draw).
    rewrite (bind_step _ _ _ gb g') by (by apply getitem_Some).
    reflexivity.
  - intros Hpos Hout.
    destruct (randint (MOPSO.pop_size self) g) as [j g'] eqn:Hr. cbn in Hout.
    rewrite (bind_step _ _ _ j g') by (by apply np_random_randint_draw).
    by apply bind_Raise, getitem_None, lookup_ge_None.
Qed.

Lemma choose_donors_raises (self : MODE.t) (g : rng) :
  MODE.pop_size self < 3 -> MODE.choose_donors self g = Raise ValueError.
Proof.
  intros Hn. unfold MODE.choose_donors. apply bind_Raise.
  unfold np_random_choice. rewrite decide_False; [reflexivity|].
  rewrite length_seq. lia.
Qed.

(** X12. [MODE._infill] cannot work on fewer than three members or
    without a variable: with [0 < pop_size < 3] the first
    [np.random.choice(pop_size, 3, replace=False)] raises [ValueError],
    whatever the population holds; with [pop_size >= 3] stored members
    and [n_var = 0] the first [np.random.randint(n_var)] raises
    [ValueError]. *)
Theorem MODE_infill_raises (self : MODE.t) (g : rng) :
  (0 < MODE.pop_size self < 3 -> MODE._infill self g = Raise ValueError) /\
  (3 <= MODE.pop_size self -> MODE.pop_size self <= length (MODE.pop self) ->
   Problem.n_var (MODE.problem self) = 0 ->
   MODE._infill self g = Raise ValueError).
Proof.
  unfold MODE._infill, for_range. split.
  - intros [Hpos Hlt]. apply bind_Raise.
    destruct (MODE.pop_size self) as [|n] eqn:Hn; [lia|].
    cbn [seq for_in]. apply bind_Raise.
    unfold MODE.mutate. apply bind_Raise, choose_donors_raises. lia.
  - intros Hn Hlen Hd. apply bind_Raise.
    destruct (MODE.pop_size self) as [|n] eqn:Hn'; [lia|].
    cbn [seq for_in]. apply bind_Raise.
    unfold MODE.mutate.
    destruct (choose_donors_total self g) as (a & b & c & g1 & Hch); [lia|].
    destruct (choose_donors_Ok _ _ _ _ _ _ Hch) as (_ & Ha & Hb & Hc & _).
    rewrite (bind_step _ _ _ (a, b, c) g1) by exact Hch.
    assert (forall k, k < MODE.pop_size self ->
              is_Some (Population.get_X (MODE.pop self) !! k)) as Hrow.
    { intros k Hk. apply lookup_lt_is_Some_2.
      unfold Population.get_X. rewrite length_fmap. lia. }
    destruct (Hrow a Ha) as [xa Hxa], (Hrow b Hb) as [xb Hxb], (Hrow c Hc) as [xc Hxc].
    rewrite (bind_step _ _ _ xa g1) by (by apply getitem_Some).
    rewrite (bind_step _ _ _ xb g1) by (by apply getitem_Some).
    rewrite (bind_step _ _ _ xc g1) by (by apply getitem_Some).
    apply bind_Raise. unfold np_random_randint. by rewrite Hd.
Qed.

End Errors.

(** No offspring for a swarm of two: the loop fails at its first index. *)
Lemma MOPSO_advance_outcome_witness :
  MOPSO._advance (H := CounterRng.counter_rng) Scenario.swarm1 [] (0 : nat)
  = Raise IndexError.
Proof.
  apply (proj2 (MOPSO_advance_outcome (H := CounterRng.counter_rng)
                  Scenario.swarm1 [] (0 : nat) 2 (Forall_nil_2 _)
                  ltac:(repeat constructor))).
  left. cbn. lia.
Defined.

(** No candidate to draw the first global best from. *)
Lemma MOPSO_initialize_advance_outcome_witness :
  MOPSO._initialize_advance (H := CounterRng.counter_rng) Scenario.swarm0 [] (0 : nat)
  = Raise IndexError.
Proof.
  apply (proj2 (proj2 (MOPSO_initialize_advance_outcome (H := CounterRng.counter_rng)
                         Scenario.swarm0 [] (0 : nat)))).
  - cbn. lia.
  - cbn. lia.
Defined.

(** A population of one cannot provide three donors. *)
Lemma MODE_infill_raises_witness :
  MODE._infill (H := CounterRng.counter_rng) Scenario.de_one (0 : nat) = Raise ValueError.
Proof.
  apply (proj1 (MODE_infill_raises (H := CounterRng.counter_rng)
                  Scenario.de_one (0 : nat))).
  cbn. lia.
Defined.

(** ** MODE: the crossover rate at its extremes *)

Section Crossover_rate.
Context `{RandomState}.

Lemma mapM_Ok_lookup {A B} (f : A -> M B) (l : list A) :
  forall (g : rng) (rows : list B) (g' : rng),
  mapM f l g = Ok (rows, g') ->
  forall i row, rows !! i = Some row ->
  exists a g0 g1, l !! i = Some a /\ f a g0 = Ok (row, g1).
Proof.
  induction l as [|a l IH]; intros g rows g' Hm i row Hi.
  - cbn in Hm. injection Hm as <- <-. by rewrite lookup_nil in Hi.
  - cbn in Hm. apply bind_Ok in Hm as (y & g1 & Hy & Hm).
    apply bind_Ok in Hm as (k & g2 & Hk & Hm). injection Hm as <- <-.
    destruct i as [|i].
    + cbn in Hi. injection Hi as <-. exists a, g, g1. by split.
    + cbn in Hi. destruct (IH _ _ _ Hk i row Hi) as (a' & g0 & g3 & Ha' & Hf).
      exists a', g0, g3. by split.
Qed.

Lemma unit_below_rate (CR r : F64.float) :
  F64.in_unit r = true -> F64.leb F64.one CR = true -> F64.ltb r CR = true.
Proof.
  intros [_ Hr]%andb_prop Hone. by apply (F64_facts.ltb_leb_trans r F64.one CR).
Qed.

Lemma unit_above_rate (CR r : F64.float) :
  F64.in_unit r = true -> F64.ltb F64.zero CR = false -> F64.ltb r CR = false.
Proof.
  intros [Hr _]%andb_prop Hzero. apply not_true_iff_false. intros Hlt.
  rewrite (F64_facts.leb_ltb_trans F64.zero r CR Hr Hlt) in Hzero. discriminate.
Qed.

Lemma length_trial_vector (F : F64.float) (xa xb xc : vec) (d : nat) :
  length xa = d -> length xb = d -> length xc = d ->
  length (Described.trial_vector F xa xb xc) = d.
Proof.
  intros Ha Hb Hc. unfold Described.trial_vector, vadd, vscale, vsub.
  rewrite length_zip_with, length_fmap, length_zip_with. lia.
Qed.

(** X13. The crossover rate of [MODE._infill] at its extremes, on a
    population of at least three members of [n_var >= 1] coordinates
    and bounds of [n_var] entries each.
    With [CR >= 1] every offspring, before clamping, is the whole trial
    vector [X[a] + F * (X[b] - X[c])] of three distinct members.  With
    [CR <= 0] or [CR] not a number, every offspring before clamping is
    its target [X[i]] except in the one guaranteed coordinate [j], which
    comes from the trial vector. *)
Theorem MODE_crossover_rate_extremes (self : MODE.t) (g : rng) :
  let n := MODE.pop_size self in
  let d := Problem.n_var (MODE.problem self) in
  let X := Population.get_X (MODE.pop self) in
  shape n d X -> 3 <= n -> 0 < d ->
  length (Problem.xl (MODE.problem self)) = d ->
  length (Problem.xu (MODE.problem self)) = d ->
  exists rows g',
    MODE._infill self g
      = Ok (Population.new (np_clip rows (Problem.xl (MODE.problem self))
                                         (Problem.xu (MODE.problem self))), g') /\
    shape n d rows /\
    shape n d (np_clip rows (Problem.xl (MODE.problem self))
                            (Problem.xu (MODE.problem self))) /\
    forall i row, rows !! i = Some row ->
    exists a b c j xa xb xc xi,
      a < n /\ b < n /\ c < n /\ a <> b /\ a <> c /\ b <> c /\ j < d /\
      X !! a = Some xa /\ X !! b = Some xb /\ X !! c = Some xc /\ X !! i = Some xi /\
      (F64.leb F64.one (MODE.CR self) = true ->
       row = Described.trial_vector (MODE.F self) xa xb xc) /\
      (F64.ltb F64.zero (MODE.CR self) = false ->
       row !! j = Described.trial_vector (MODE.F self) xa xb xc !! j /\
       forall k, k <> j -> row !! k = xi !! k).
Proof.
  intros n d X HX Hn Hd Hxl Hxu.
  destruct (MODE_infill_refines self g HX Hn Hd) as (rows & g' & Hmap & Hrows & Hinf & _).
  exists rows, g'. split; [exact Hinf|]. split; [exact Hrows|].
  split; [by apply shape_np_clip|].
  intros i row Hi.
  destruct (mapM_Ok_lookup _ _ _ _ _ Hmap i row Hi) as (i' & g0 & g1 & Hi' & Hoff).
  assert (i' = i) as ->.
  { apply lookup_seq in Hi' as [-> _]. reflexivity. }
  destruct (de_offspring_Ok _ _ _ _ _ _ Hoff)
    as (a & b & c & j & rs & xa & xb & xc & xi & g2 & g3 &
        Hch & Hxa & Hxb & Hxc & Hxi & _ & Hj & _ & Hlrs & Hunit & Hrow).
  destruct (choose_donors_Ok _ _ _ _ _ _ Hch) as (_ & Ha & Hb & Hc & Hab & Hac & Hbc).
  exists a, b, c, j, xa, xb, xc, xi.
  fold n d X in Ha, Hb, Hc, Hj, Hxa, Hxb, Hxc, Hxi, Hlrs.
  do 7 (split; [assumption|]). do 4 (split; [assumption|]).
  destruct HX as [_ HXrows].
  assert (forall k x, X !! k = Some x -> length x = d) as Hlen.
  { intros k x Hk. exact (Forall_lookup_1 _ _ _ _ HXrows Hk). }
  pose proof (length_trial_vector (MODE.F self) xa xb xc d
                (Hlen _ _ Hxa) (Hlen _ _ Hxb) (Hlen _ _ Hxc)) as Hlv.
  set (v := Described.trial_vector (MODE.F self) xa xb xc) in *.
  assert (forall k, k < d ->
            exists xk vk r, xi !! k = Some xk /\ v !! k = Some vk /\ rs !! k = Some r /\
                            F64.in_unit r = true) as Hentries.
  { intros k Hk.
    destruct (lookup_lt_is_Some_2 xi k) as [xk Hxk]; [rewrite (Hlen _ _ Hxi); lia|].
    destruct (lookup_lt_is_Some_2 v k) as [vk Hvk]; [lia|].
    destruct (lookup_lt_is_Some_2 rs k) as [r Hr]; [lia|].
    exists xk, vk, r. repeat split; try assumption.
    exact (Forall_lookup_1 _ _ _ _ Hunit Hr). }
  assert (forall k, d <= k -> row !! k = None /\ xi !! k = None /\ v !! k = None) as Hnone.
  { intros k Hk. rewrite Hrow, lookup_binomial_crossover.
    rewrite (lookup_ge_None_2 xi k) by (rewrite (Hlen _ _ Hxi); lia).
    rewrite (lookup_ge_None_2 v k) by lia. done. }
  split.
  - intros Hone. apply list_eq. intros k.
    destruct (decide (k < d)) as [Hk|Hk].
    + destruct (Hentries k Hk) as (xk & vk & r & Hxk & Hvk & Hr & Hu).
      rewrite Hrow at 1. rewrite lookup_binomial_crossover, Hxk. cbn.
      rewrite Hvk. cbn. rewrite Hr. cbn.
      by rewrite (unit_below_rate _ _ Hu Hone).
    + destruct (Hnone k) as (-> & _ & ->); [lia|reflexivity].
  - intros Hzero. split.
    + destruct (Hentries j Hj) as (xk & vk & r & Hxk & Hvk & Hr & Hu).
      rewrite Hrow at 1. rewrite lookup_binomial_crossover, Hxk. cbn.
      rewrite Hvk. cbn. rewrite Hr. cbn.
      rewrite bool_decide_true by reflexivity. by rewrite orb_true_r.
    + intros k Hkj. destruct (decide (k < d)) as [Hk|Hk].
      * destruct (Hentries k Hk) as (xk & vk & r & Hxk & Hvk & Hr & Hu).
        rewrite Hrow at 1. rewrite lookup_binomial_crossover, Hxk. cbn.
        rewrite Hvk. cbn. rewrite Hr. cbn.
        rewrite (unit_above_rate _ _ Hu Hzero).
        by rewrite bool_decide_false by done.
      * destruct (Hnone k) as (-> & -> & _); [lia|reflexivity].
Qed.

End Crossover_rate.

(** With crossover rate 1 on a population of three, every offspring
    before clamping is a trial vector. *)
Lemma MODE_crossover_rate_extremes_witness :
  exists rows g',
    MODE._infill (H := CounterRng.counter_rng) Cases.de_full (0 : nat)
      = Ok (Population.new (np_clip rows (Problem.xl Scenario.line)
                                         (Problem.xu Scenario.line)), g') /\
    forall i row, rows !! i = Some row ->
      exists xa xb xc,
        xa ∈ Population.get_X (MODE.pop Cases.de_full) /\
        xb ∈ Population.get_X (MODE.pop Cases.de_full) /\
        xc ∈ Population.get_X (MODE.pop Cases.de_full) /\
        row = Described.trial_vector (MODE.F Cases.de_full) xa xb xc.
Proof.
  destruct (MODE_crossover_rate_extremes (H := CounterRng.counter_rng)
              Cases.de_full (0 : nat))
    as (rows & g' & Hinf & _ & _ & Hall).
  - split; [reflexivity|]. by repeat constructor.
  - cbn. lia.
  - cbn. lia.
  - reflexivity.
  - reflexivity.
  - exists rows, g'. split; [exact Hinf|]. intros i row Hi.
    destruct (Hall i row Hi)
      as (a & b & c & j & xa & xb & xc & xi & _ & _ & _ & _ & _ & _ & _ &
          Hxa & Hxb & Hxc & _ & Hone & _).
    exists xa, xb, xc.
    split; [by eapply list_elem_of_lookup_2|].
    split; [by eapply list_elem_of_lookup_2|].
    split; [by eapply list_elem_of_lookup_2|].
    by apply Hone.
Defined.

(** ** The reference front of [MyProblem.pareto_front] *)

Section Reference_front.
Import MyProblem.

(** Whether some row of [combined] excludes the row [ci]. *)
Local Abbreviation excluded combined ci :=
  (existsb (fun cj : row => excludes cj ci) combined).

Lemma excludes_irrefl (c : row) : excludes c c = false.
Proof. unfold excludes. by rewrite F64_facts.ltb_irrefl, andb_false_r. Qed.

Lemma excludes_trans (a b c : row) :
  excludes a b = true -> excludes b c = true -> excludes a c = true.
Proof.
  unfold excludes. intros [H1 H2]%andb_prop [H3 H4]%andb_prop.
  apply andb_true_intro. split.
  - by apply (F64_facts.leb_trans _ b.1.1).
  - apply (F64_facts.ltb_leb_trans _ b.1.2); [exact H2|].
    by apply F64_facts.ltb_leb.
Qed.

Lemma existsb_lookup_seq {A} (f : A -> bool) (l : list A) :
  existsb (fun j => match l !! j with Some x => f x | None => false end)
          (seq 0 (length l))
  = existsb f l.
Proof.
  apply eq_true_iff_eq. rewrite !existsb_exists. split.
  - intros (j & _ & Hj). destruct (l !! j) as [x|] eqn:Hx; [|discriminate].
    exists x. split; [|exact Hj]. apply list_elem_of_In. by eapply list_elem_of_lookup_2.
  - intros (x & [j Hj]%list_elem_of_In%list_elem_of_lookup & Hx).
    exists j. split.
    + apply list_elem_of_In, elem_of_seq. apply lookup_lt_Some in Hj. lia.
    + by rewrite Hj.
Qed.

(** The inner loop sets entry [i] exactly when some row excludes row
    [i]; the guard [i != j] changes nothing, since no row excludes
    itself. *)
Lemma inner_loop_spec (combined : list row) (i : nat) (ci : row) (mask : list bool) :
  combined !! i = Some ci ->
  forall js,
  inner_loop combined i js mask =
  if existsb (fun j => match combined !! j with
                       | Some cj => excludes cj ci
                       | None => false
                       end) js
  then <[i := true]> mask else mask.
Proof.
  intros Hi. induction js as [|j js IH]; [reflexivity|].
  cbn [inner_loop existsb]. rewrite Hi.
  destruct (decide (i = j)) as [<-|Hij].
  - rewrite bool_decide_false by (intros Hne; by apply Hne).
    rewrite Hi, excludes_irrefl. exact IH.
  - rewrite bool_decide_true by done.
    destruct (combined !! j) as [cj|]; [|exact IH].
    destruct (excludes cj ci); [reflexivity|exact IH].
Qed.

Lemma outer_loop_spec (combined : list row) (m : nat) :
  m <= length combined ->
  foldl (fun mask i => inner_loop combined i (seq 0 (length combined)) mask)
        (replicate (length combined) false) (seq 0 m)
  = ((fun ci => excluded combined ci) <$> take m combined)
    ++ replicate (length combined - m) false.
Proof.
  induction m as [|m IH]; intros Hm.
  - cbn. by rewrite take_0, Nat.sub_0_r.
  - rewrite seq_S, foldl_app, IH by lia. cbn [foldl Nat.add].
    destruct (lookup_lt_is_Some_2 combined m) as [cm Hcm]; [lia|].
    rewrite (inner_loop_spec _ _ cm _ Hcm), existsb_lookup_seq.
    rewrite (take_S_r _ _ _ Hcm), fmap_app, <- app_assoc. cbn [fmap list_fmap app].
    replace (length combined - m) with (S (length combined - S m)) by lia.
    cbn [replicate].
    assert (length ((fun ci => excluded combined ci) <$> take m combined) = m) as Hl.
    { rewrite length_fmap, length_take. lia. }
    destruct (excluded combined cm); [|reflexivity].
    rewrite insert_app_r_alt by lia. by rewrite Hl, Nat.sub_diag.
Qed.

Lemma is_dominated_spec (combined : list row) :
  is_dominated combined = (fun ci => excluded combined ci) <$> combined.
Proof.
  unfold is_dominated. rewrite outer_loop_spec by lia.
  by rewrite firstn_all, Nat.sub_diag, app_nil_r.
Qed.

Lemma boolean_index_fmap (f : row -> bool) (l : list row) :
  boolean_index l (f <$> l) = filter (fun c => f c = true) l.
Proof.
  unfold boolean_index. induction l as [|c l IH]; [reflexivity|].
  cbn [fmap list_fmap zip zip_with]. rewrite !filter_cons. cbn [snd].
  destruct (decide (f c = true)) as [Hc|Hc]; cbn [fmap list_fmap fst]; by rewrite IH.
Qed.

Lemma filter_all {A} (P : A -> Prop) `{forall x, Decision (P x)} (l : list A) :
  (forall x, x ∈ l -> P x) -> filter P l = l.
Proof.
  induction l as [|x l IH]; intros Hall; [reflexivity|].
  rewrite filter_cons, decide_True by (apply Hall; by left).
  rewrite IH; [reflexivity|]. intros y Hy. apply Hall. by right.
Qed.

Lemma non_dominated_rows_filter (combined : list row) :
  non_dominated_rows combined
  = filter (fun ci => excluded combined ci = false) combined.
Proof.
  unfold non_dominated_rows. rewrite is_dominated_spec, <- list_fmap_compose.
  rewrite boolean_index_fmap. apply list_filter_iff. intros c. cbn.
  by rewrite negb_true_iff.
Qed.

Lemma elem_of_non_dominated_rows (combined : list row) (ci : row) :
  ci ∈ non_dominated_rows combined <->
  ci ∈ combined /\ forall cj, cj ∈ combined -> excludes cj ci = false.
Proof.
  rewrite non_dominated_rows_filter, list_elem_of_filter. split.
  - intros [Hex Hin]. split; [exact Hin|]. intros cj Hcj.
    apply not_true_iff_false. intros Hx.
    assert (excluded combined ci = true) as Hex'.
    { apply existsb_exists. exists cj. split; [by apply list_elem_of_In|exact Hx]. }
    rewrite Hex in Hex'. discriminate.
  - intros [Hin Hall]. split; [|exact Hin].
    apply not_true_iff_false. intros (cj & Hcj%list_elem_of_In & Hx)%existsb_exists.
    rewrite (Hall cj Hcj) in Hx. discriminate.
Qed.

(** X14. The loops of [MyProblem.pareto_front] keep exactly the rows
    [ci] of [combined] for which no row [cj] has
    [cj[0] <= ci[0] and cj[1] < ci[1]], in their order.  The guard
    [i != j] has no effect, and the third objective is never looked at:
    two arrays with the same first two columns get the same mask. *)
Theorem pareto_front_filter (combined : list row) :
  non_dominated_rows combined
    = filter (fun ci => existsb (fun cj => excludes cj ci) combined = false) combined /\
  (forall ci, ci ∈ non_dominated_rows combined <->
              ci ∈ combined /\ forall cj, cj ∈ combined -> excludes cj ci = false) /\
  (forall c, excludes c c = false) /\
  (forall other : list row,
     fst <$> other = fst <$> combined ->
     is_dominated other = is_dominated combined) /\
  (forall (np_linspace : Z -> Z -> nat -> vec) (n_points : nat),
     let x := np_linspace (-5)%Z 5%Z n_points in
     pareto_front np_linspace n_points
     = filter (fun ci => existsb (fun cj => excludes cj ci)
                                 (MyProblem.combined x x x) = false)
              (MyProblem.combined x x x)).
Proof.
  split; [apply non_dominated_rows_filter|].
  split; [apply elem_of_non_dominated_rows|].
  split; [apply excludes_irrefl|].
  split; [|intros; apply non_dominated_rows_filter].
  intros other Hfst. rewrite !is_dominated_spec.
  assert (forall l : list row,
            (fun ci => excluded l ci) <$> l
            = (fun p : F64.float * F64.float =>
                 existsb (fun q : F64.float * F64.float =>
                            F64.leb q.1 p.1 && F64.ltb q.2 p.2) (fst <$> l))
              <$> (fst <$> l)) as Hcols.
  { intros l. rewrite <- list_fmap_compose. apply list_fmap_ext.
    intros _ ci _. cbn. induction l as [|c l IH]; [reflexivity|].
    cbn [existsb fmap list_fmap]. by rewrite IH. }
  by rewrite (Hcols other), (Hcols combined), Hfst.
Qed.

(** X15. The rows that [MyProblem.pareto_front] keeps form a front for
    the exclusion test of the loop: a non-empty array keeps at least one
    row, every removed row is excluded by a row that is kept, and
    filtering the result once more changes nothing.  Every row that no
    row dominates in the first two objectives is kept. *)
Theorem pareto_front_covers (combined : list row) :
  (combined <> [] -> non_dominated_rows combined <> []) /\
  (forall ci, ci ∈ combined ->
     ci ∈ non_dominated_rows combined \/
     exists cj, cj ∈ non_dominated_rows combined /\ excludes cj ci = true) /\
  non_dominated_rows (non_dominated_rows combined) = non_dominated_rows combined /\
  (forall ci, ci ∈ combined ->
     (forall cj, cj ∈ combined ->
        NonDominatedSorting.dominates [cj.1.1; cj.1.2] [ci.1.1; ci.1.2] = false) ->
     ci ∈ non_dominated_rows combined).
Proof.
  assert (forall ci, ci ∈ combined ->
            (forall cj, cj ∈ combined ->
               NonDominatedSorting.dominates [cj.1.1; cj.1.2] [ci.1.1; ci.1.2] = false) ->
            ci ∈ non_dominated_rows combined) as Hpareto.
  { intros ci Hci Hnd. apply elem_of_non_dominated_rows. split; [exact Hci|].
    intros cj Hcj. apply not_true_iff_false. intros [Hle Hlt]%andb_prop.
    specialize (Hnd cj Hcj).
    unfold NonDominatedSorting.dominates, all_le, any_lt in Hnd. cbn in Hnd.
    rewrite Hle, Hlt, (F64_facts.ltb_leb _ _ Hlt), orb_true_r in Hnd. discriminate. }
  cut ((combined <> [] -> non_dominated_rows combined <> []) /\
       (forall ci, ci ∈ combined ->
          ci ∈ non_dominated_rows combined \/
          exists cj, cj ∈ non_dominated_rows combined /\ excludes cj ci = true) /\
       non_dominated_rows (non_dominated_rows combined) = non_dominated_rows combined).
  { intros (H1 & H2 & H3). by repeat split. }
  clear Hpareto.
  assert (forall ci, ci ∈ combined ->
            ci ∈ non_dominated_rows combined \/
            exists cj, cj ∈ non_dominated_rows combined /\ excludes cj ci = true) as Hcov.
  { intros ci Hci. destruct (excluded combined ci) eqn:Hex.
    - right. apply existsb_exists in Hex as (c0 & Hc0%list_elem_of_In & Hx).
      destruct (minimal_below excludes combined ci) as (cj & Hcj & Hxj & Hmin).
      + intros c _. apply excludes_irrefl.
      + intros a b c _ _ _. apply excludes_trans.
      + exact Hci.
      + by exists c0.
      + exists cj. split; [|exact Hxj]. apply elem_of_non_dominated_rows. by split.
    - left. rewrite non_dominated_rows_filter. by apply list_elem_of_filter. }
  split; [|split; [exact Hcov|]].
  - intros Hne Hnil. destruct combined as [|c l]; [done|].
    destruct (Hcov c) as [Hin | (cj & Hin & _)]; [by left| |];
      rewrite Hnil in Hin; by apply elem_of_nil in Hin.
  - rewrite (non_dominated_rows_filter (non_dominated_rows combined)).
    set (kept := non_dominated_rows combined).
    assert (forall c, c ∈ kept -> excluded kept c = false) as Hkept.
    { intros c Hc. apply not_true_iff_false.
      intros (cj & Hcj%list_elem_of_In & Hx)%existsb_exists.
      apply elem_of_non_dominated_rows in Hc as [_ Hall].
      apply elem_of_non_dominated_rows in Hcj as [Hcj _].
      rewrite (Hall cj Hcj) in Hx. discriminate. }
    clearbody kept. by apply filter_all.
Qed.

End Reference_front.

(** ** The candidate rows of [MyProblem.pareto_front] *)

Section Grid.
Import MyProblem.
Lemma zip_with_fmap_same {A B C D} (f : B -> C -> D) (g1 : A -> B) (g2 : A -> C)
    (l : list A) :
  zip_with f (g1 <$> l) (g2 <$> l) = (fun x => f (g1 x) (g2 x)) <$> l.
Proof. induction l as [|x l IH]; [reflexivity|]. cbn. by rewrite IH. Qed.

Lemma zip_with_concat_fmap {A B C D} (f : B -> C -> D) (g1 : A -> list B)
    (g2 : A -> list C) (l : list A) :
  (forall x, length (g1 x) = length (g2 x)) ->
  zip_with f (concat (g1 <$> l)) (concat (g2 <$> l))
  = concat ((fun x => zip_with f (g1 x) (g2 x)) <$> l).
Proof.
  intros Hlen. induction l as [|x l IH]; [reflexivity|].
  cbn. rewrite zip_with_app by apply Hlen. by rewrite IH.
Qed.

Lemma concat_concat_fmap {A B} (P : A -> list (list B)) (l : list A) :
  concat (concat (P <$> l)) = concat ((fun x => concat (P x)) <$> l).
Proof.
  induction l as [|x l IH]; [reflexivity|].
  cbn. by rewrite concat_app, IH.
Qed.

Lemma cscale_tab (x0 x1 x2 : vec) (k : F64.float) h :
  cscale k (tabulate x0 x1 x2 h) = tabulate x0 x1 x2 (fun a b c => F64.mul k (h a b c)).
Proof.
  unfold cscale, tabulate. rewrite <- list_fmap_compose. apply list_fmap_ext.
  intros _ b _. cbn. rewrite <- list_fmap_compose. apply list_fmap_ext.
  intros _ a _. cbn. by rewrite <- list_fmap_compose.
Qed.

Lemma czip_tab (x0 x1 x2 : vec) (f : F64.float -> F64.float -> F64.float) h1 h2 :
  zip_with (zip_with (zip_with f)) (tabulate x0 x1 x2 h1) (tabulate x0 x1 x2 h2)
  = tabulate x0 x1 x2 (fun a b c => f (h1 a b c) (h2 a b c)).
Proof.
  unfold tabulate. rewrite zip_with_fmap_same. apply list_fmap_ext.
  intros _ b _. rewrite zip_with_fmap_same. apply list_fmap_ext.
  intros _ a _. by rewrite zip_with_fmap_same.
Qed.

Lemma flatten_tab (x0 x1 x2 : vec) h :
  flatten (tabulate x0 x1 x2 h) = tabulate_flat x0 x1 x2 h.
Proof. unfold flatten, tabulate, tabulate_flat. by rewrite concat_concat_fmap. Qed.

Lemma length_line_block {A} (x0 x2 : vec) (h : F64.float -> F64.float -> A) :
  length (concat ((fun a => (fun c => h a c) <$> x2) <$> x0)) = length x0 * length x2.
Proof.
  induction x0 as [|a l0 IH0]; [reflexivity|].
  cbn. by rewrite length_app, length_fmap, IH0.
Qed.

Lemma length_flat {A} (x0 x1 x2 : vec) (h : F64.float -> F64.float -> F64.float -> A) :
  length (tabulate_flat x0 x1 x2 h) = length x1 * (length x0 * length x2).
Proof.
  unfold tabulate_flat. induction x1 as [|b l1 IH1]; [reflexivity|].
  cbn. by rewrite length_app, IH1, length_line_block.
Qed.

Lemma zip_with_flat {A B C} (x0 x1 x2 : vec) (f : A -> B -> C)
    (h1 : F64.float -> F64.float -> F64.float -> A)
    (h2 : F64.float -> F64.float -> F64.float -> B) :
  zip_with f (tabulate_flat x0 x1 x2 h1) (tabulate_flat x0 x1 x2 h2)
  = tabulate_flat x0 x1 x2 (fun a b c => f (h1 a b c) (h2 a b c)).
Proof.
  unfold tabulate_flat. rewrite zip_with_concat_fmap.
  - f_equal. apply list_fmap_ext. intros _ b _.
    rewrite zip_with_concat_fmap.
    + f_equal. apply list_fmap_ext. intros _ a _. apply zip_with_fmap_same.
    + intros a. by rewrite !length_fmap.
  - intros b. by rewrite !length_line_block.
Qed.

Lemma fmap_flat {A B} (x0 x1 x2 : vec) (f : A -> B)
    (h : F64.float -> F64.float -> F64.float -> A) :
  f <$> tabulate_flat x0 x1 x2 h = tabulate_flat x0 x1 x2 (fun a b c => f (h a b c)).
Proof.
  unfold tabulate_flat. induction x1 as [|b l1 IH1]; [reflexivity|].
  cbn. rewrite fmap_app, IH1. f_equal. clear IH1.
  induction x0 as [|a l0 IH0]; [reflexivity|].
  cbn. rewrite fmap_app, IH0. f_equal. by rewrite <- list_fmap_compose.
Qed.

Lemma flat_bind {A} (x0 x1 x2 : vec) (h : F64.float -> F64.float -> F64.float -> A) :
  tabulate_flat x0 x1 x2 h = b ← x1; a ← x0; c ← x2; [h a b c].
Proof.
  unfold tabulate_flat. induction x1 as [|b l1 IH1]; [reflexivity|].
  cbn. rewrite IH1. f_equal. clear IH1.
  induction x0 as [|a l0 IH0]; [reflexivity|].
  cbn. rewrite IH0. f_equal.
Qed.

(** X16. The candidate rows that [MyProblem.pareto_front] filters are
    the objective vectors of the grid points: the vectorised formulas on
    the [meshgrid] arrays give, row by row, what [evaluate] returns for
    the point [(x0[j], x1[i], x2[k])], with [i] running slowest and [k]
    fastest, and there are [len(x1) * len(x0) * len(x2)] rows. *)
Theorem pareto_front_candidates (x0 x1 x2 : vec) :
  (fun r : row => Ok [r.1.1; r.1.2; r.2]) <$> combined x0 x1 x2
    = (b ← x1; a ← x0; c ← x2; [evaluate [a; b; c]]) /\
  length (combined x0 x1 x2) = length x1 * (length x0 * length x2).
Proof.
  assert (combined x0 x1 x2
          = tabulate_flat x0 x1 x2 (fun a b c =>
                    (F64.mul (F64.of_Z (-1))
                       (F64.sub (F64.mul (literal 5 10) a) (F64.mul (literal 3 10) b)),
                     F64.sub (F64.add (F64.mul (literal 7 10) a) c)
                       (F64.mul (literal 8 10) b),
                     F64.mul (F64.of_Z (-1))
                       (F64.sub (F64.mul (literal 6 10) c) (F64.mul (literal 2 10) b)))))
    as Hc.
  { unfold combined, meshgrid, cadd, csub.
    change ((fun _ : F64.float =>
               (fun a : F64.float => (fun _ : F64.float => a) <$> x2) <$> x0) <$> x1)
      with (tabulate x0 x1 x2 (fun a _ _ => a)).
    change ((fun b : F64.float =>
               (fun _ : F64.float => (fun _ : F64.float => b) <$> x2) <$> x0) <$> x1)
      with (tabulate x0 x1 x2 (fun _ b _ => b)).
    assert ((fun _ : F64.float => (fun _ : F64.float => x2) <$> x0) <$> x1
            = tabulate x0 x1 x2 (fun _ _ c => c)) as ->.
    { unfold tabulate. apply list_fmap_ext. intros _ b _. apply list_fmap_ext.
      intros _ a _. by rewrite list_fmap_id. }
    rewrite !cscale_tab, !czip_tab, !cscale_tab, !flatten_tab.
    unfold vstack_T.
    rewrite (zip_with_flat x0 x1 x2 pair).
    by rewrite (zip_with_flat x0 x1 x2
                  (fun (ab : F64.float * F64.float) (z : F64.float) => (ab.1, ab.2, z))). }
  split.
  - rewrite Hc, fmap_flat. apply flat_bind.
  - rewrite Hc. apply length_flat.
Qed.

End Grid.

(** ** MODE: survival selection respects domination *)

Section Selection_order.
Context `{RandomState}.

Lemma elem_of_concat {A} (x : A) (ls : list (list A)) :
  x ∈ concat ls <-> exists k l, ls !! k = Some l /\ x ∈ l.
Proof.
  induction ls as [|l ls IH]; cbn [concat].
  - split; [intros Hx; by apply elem_of_nil in Hx|]. intros (k & l & Hk & _).
    by rewrite lookup_nil in Hk.
  - rewrite elem_of_app, IH. split.
    + intros [Hx | (k & l' & Hk & Hx)]; [by exists 0, l | by exists (S k), l'].
    + intros ([|k] & l' & Hk & Hx); cbn in Hk.
      * injection Hk as <-. by left.
      * right. by exists k, l'.
Qed.

Lemma elem_of_concat_drop {A} (x : A) (ls : list (list A)) (k m : nat) :
  k <= m -> x ∈ concat (drop m ls) -> x ∈ concat (drop k ls).
Proof.
  intros Hkm (i & l & Hi & Hx)%elem_of_concat. apply elem_of_concat.
  rewrite lookup_drop in Hi. exists (m - k + i), l. split; [|exact Hx].
  rewrite lookup_drop. rewrite <- Hi. f_equal. lia.
Qed.

Lemma peel_S (F : matrix) (fuel : nat) (remaining : list nat) :
  remaining <> [] ->
  NonDominatedSorting.peel (S fuel) F remaining
  = filter (fun i => NonDominatedSorting.dominated_in F remaining i = false) remaining
    :: NonDominatedSorting.peel fuel F
         (filter (fun i => NonDominatedSorting.dominated_in F remaining i = true)
                 remaining).
Proof. by destruct remaining. Qed.

Lemma peel_subset (F : matrix) (fuel : nat) : forall (remaining : list nat) (x : nat),
  x ∈ concat (NonDominatedSorting.peel fuel F remaining) -> x ∈ remaining.
Proof.
  induction fuel as [|fuel IH]; intros remaining x Hx.
  - by apply elem_of_nil in Hx.
  - destruct (decide (remaining = [])) as [->|Hne].
    + by apply elem_of_nil in Hx.
    + rewrite (peel_S _ _ _ Hne) in Hx. cbn [concat] in Hx.
      apply elem_of_app in Hx as [Hx|Hx].
      * by apply list_elem_of_filter in Hx as [_ Hx].
      * apply IH in Hx. by apply list_elem_of_filter in Hx as [_ Hx].
Qed.

(** A member of a later front never dominates a member of an earlier
    front, nor one of its own front. *)
Lemma peel_later_not_dominating (F : matrix) (fuel : nat) :
  forall (remaining : list nat) (k : nat) (front : list nat) (x y : nat) (fx fy : vec),
  NonDominatedSorting.peel fuel F remaining !! k = Some front ->
  x ∈ front ->
  y ∈ concat (drop k (NonDominatedSorting.peel fuel F remaining)) ->
  F !! x = Some fx -> F !! y = Some fy ->
  NonDominatedSorting.dominates fy fx = false.
Proof.
  induction fuel as [|fuel IH]; intros remaining k front x y fx fy Hk Hx Hy Hfx Hfy.
  - cbn in Hk. by rewrite lookup_nil in Hk.
  - destruct (decide (remaining = [])) as [->|Hne].
    + cbn in Hk. by rewrite lookup_nil in Hk.
    + rewrite (peel_S _ _ _ Hne) in Hk, Hy. destruct k as [|k].
      * cbn [lookup list_lookup] in Hk. injection Hk as <-.
        apply list_elem_of_filter in Hx as [Hdom _].
        apply (proj1 (NDS_facts.dominated_in_false _ _ _) Hdom fx y fy Hfx); [|exact Hfy].
        cbn [drop concat] in Hy. apply elem_of_app in Hy as [Hy|Hy].
        -- by apply list_elem_of_filter in Hy as [_ Hy].
        -- apply peel_subset in Hy. by apply list_elem_of_filter in Hy as [_ Hy].
      * cbn [lookup list_lookup drop] in Hk, Hy.
        by apply (IH _ k front x y fx fy Hk Hx Hy).
Qed.

(** X17. Survival selection of [MODE._advance] never prefers a
    dominated candidate: on a merged pool whose objective vectors have
    one length, no candidate that is left out dominates a candidate that
    is kept. *)
Theorem MODE_advance_respects_domination (self : MODE.t) (infills : Population.t)
    (g : rng) (n_obj : nat) :
  let pool := Population.merge (MODE.pop self) infills in
  Forall (fun p => length (Individual.F p) = n_obj) pool ->
  exists (kept : list nat) (self' : MODE.t) (g' : rng),
    MODE._advance self infills g = Ok (self', g') /\
    Forall2 (fun i p => pool !! i = Some p) kept (MODE.pop self') /\
    forall x y px py,
      x ∈ kept -> y ∉ kept ->
      pool !! x = Some px -> pool !! y = Some py ->
      MOPSO.dominate py px = false.
Proof.
  intros pool HF.
  destruct (MODE_advance_selection self infills g n_obj HF)
    as (m & selected & g' & pop' & Hadv & HF2 & _ & _ & Hcase).
  fold pool in HF2, Hcase.
  set (fronts := NonDominatedSorting.do (Population.get_F pool)) in *.
  exists (concat (take m fronts) ++ selected), (MODE.set_pop self pop'), g'.
  split; [exact Hadv|]. split; [exact HF2|].
  intros x y px py Hx Hy Hpx Hpy.
  assert (concat fronts ≡ₚ seq 0 (length pool)) as Hpart.
  { unfold fronts. rewrite (NDS_facts.do_partition _ n_obj).
    - unfold Population.get_F. by rewrite length_fmap.
    - unfold Population.get_F. by apply Forall_fmap. }
  assert (y ∈ concat (drop m fronts)) as Hydrop.
  { assert (y ∈ concat fronts) as Hyall.
    { rewrite Hpart. apply elem_of_seq. apply lookup_lt_Some in Hpy. lia. }
    rewrite (concat_take_drop m fronts) in Hyall.
    apply elem_of_app in Hyall as [Hyt|Hyd]; [|exact Hyd].
    exfalso. apply Hy. apply elem_of_app. by left. }
  rewrite <- dominates_dominate.
  assert (Population.get_F pool !! x = Some (Individual.F px)) as HFx
    by (unfold Population.get_F; by rewrite list_lookup_fmap, Hpx).
  assert (Population.get_F pool !! y = Some (Individual.F py)) as HFy
    by (unfold Population.get_F; by rewrite list_lookup_fmap, Hpy).
  apply elem_of_app in Hx as [Hx|Hx].
  - apply elem_of_concat in Hx as (k & front & Hk & Hxf).
    assert (k < m) as Hkm.
    { apply lookup_lt_Some in Hk. rewrite length_take in Hk. lia. }
    rewrite lookup_take_lt in Hk by exact Hkm.
    apply (peel_later_not_dominating (Population.get_F pool)
             (length (Population.get_F pool)) (seq 0 (length (Population.get_F pool)))
             k front x y); try assumption.
    apply (elem_of_concat_drop _ _ k m); [lia | exact Hydrop].
  - destruct Hcase as [[_ ->] | (front & Hfront & _ & _ & Hin)].
    + by apply elem_of_nil in Hx.
    + apply (peel_later_not_dominating (Population.get_F pool)
               (length (Population.get_F pool)) (seq 0 (length (Population.get_F pool)))
               m front x y); try assumption. by apply Hin.
Qed.

End Selection_order.

(** Three parents that do not dominate each other and three dominated
    offspring, target size 4: the two offspring that are left out
    dominate none of the four that are kept. *)
Lemma MODE_advance_respects_domination_witness :
  exists (kept : list nat) self' g',
    MODE._advance (H := CounterRng.counter_rng) Scenario.de_sel Scenario.infills_dom (0 : nat)
      = Ok (self', g') /\
    forall x y px py,
      x ∈ kept -> y ∉ kept ->
      Population.merge (MODE.pop Scenario.de_sel) Scenario.infills_dom !! x = Some px ->
      Population.merge (MODE.pop Scenario.de_sel) Scenario.infills_dom !! y = Some py ->
      MOPSO.dominate py px = false.
Proof.
  destruct (MODE_advance_respects_domination (H := CounterRng.counter_rng)
              Scenario.de_sel Scenario.infills_dom (0 : nat) 2)
    as (kept & self' & g' & Hadv & _ & Hdom).
  - repeat constructor.
  - exists kept, self', g'. split; [exact Hadv | exact Hdom].
Defined.
